(** * Edge detection with ant colony optimisation: a model of [Edge_Detection.py]

    The development embeds the simulation core of [Edge_Detection.py] (the
    class [Colony] and its inner class [Ant]) and proves properties of it.

    Modelling decisions, all of them visible in the definitions below:

    - Python integers are [Z]; an index into a list or an array follows the
      source, negative indices included ([pheromone[i, j, -1]]).
    - numpy [float64] values are modelled by [npfloat]: an exact rational, or one
      of the three special values that division by zero produces.  Rounding is
      idealised away (arithmetic is exact on rationals), and so is overflow: a
      value of the model can differ from the [float64] value by the rounding
      of the operations that produce it, and a comparison of two values that
      are closer than that can go the other way.  The special values and
      the comparisons that involve them follow IEEE 754 as numpy implements it:
      a division by zero yields an infinity or a NaN together with a
      [RuntimeWarning], it does not raise.
    - the power operator [**] with a float exponent is not a rational function;
      it is a parameter [fpow] of the model.
    - numpy arrays are nested lists, read and written through [py_get] and
      [py_set], which raise [IndexError] out of range as the source does.
    - exceptions are values of [outcome]; the same type has a third result
      for the rejection-sampling loop of the constructor, which has no exit but
      a fresh draw.
    - the module [random] is replaced by its results, passed as arguments: the
      shuffled direction list of [random.sample] and the values returned by
      [random.randrange].
    - [print] and the image files written by [generate_intensities_image] and
      [generate_pheromone_image] are left out: they read the state and do not
      change it. *)

From Stdlib Require Import ZArith QArith Qminmax List Lia Lqa Permutation.
From stdpp Require Import base list gmap.

Open Scope Z_scope.

(** ** Numbers *)

Inductive npfloat : Type :=
  | Fin (q : Q)
  | PInf
  | NInf
  | NaN.

Definition f0 : npfloat := Fin 0%Q.
Definition f1 : npfloat := Fin 1%Q.

(** Sign of a rational: [-1], [0] or [1]. *)
Definition Qsgn (q : Q) : Z := Z.sgn (Qnum q).

Definition fneg (a : npfloat) : npfloat :=
  match a with
  | Fin q => Fin (- q)%Q
  | PInf => NInf
  | NInf => PInf
  | NaN => NaN
  end.

Definition fadd (a b : npfloat) : npfloat :=
  match a, b with
  | NaN, _ | _, NaN => NaN
  | Fin x, Fin y => Fin (x + y)%Q
  | PInf, NInf | NInf, PInf => NaN
  | PInf, _ | _, PInf => PInf
  | NInf, _ | _, NInf => NInf
  end.

Definition fsub (a b : npfloat) : npfloat := fadd a (fneg b).

(** An infinity carrying the sign [s]; a zero sign stands for [inf * 0]. *)
Definition inf_of_sign (s : Z) : npfloat :=
  match s with
  | Z0 => NaN
  | Zpos _ => PInf
  | Zneg _ => NInf
  end.

Definition fsign (a : npfloat) : Z :=
  match a with
  | Fin q => Qsgn q
  | PInf => 1
  | NInf => -1
  | NaN => 0
  end.

Definition fmul (a b : npfloat) : npfloat :=
  match a, b with
  | NaN, _ | _, NaN => NaN
  | Fin x, Fin y => Fin (x * y)%Q
  | _, _ => inf_of_sign (fsign a * fsign b)
  end.

(** Division as numpy performs it on [float64] scalars: no exception.  A zero
    divisor is the positive zero (the divisors of the source are a maximum of
    non-negative samples and a sum of weights). *)
Definition fdiv (a b : npfloat) : npfloat :=
  match a, b with
  | NaN, _ | _, NaN => NaN
  | Fin x, Fin y =>
      if Qeq_bool y 0 then inf_of_sign (Qsgn x) else Fin (x / y)%Q
  | Fin _, _ => f0
  | _, Fin y => if Qle_bool 0 y then a else fneg a
  | _, _ => NaN
  end.

(** Comparisons; every comparison with a NaN is false. *)
Definition fltb (a b : npfloat) : bool :=
  match a, b with
  | NaN, _ | _, NaN => false
  | Fin x, Fin y => negb (Qle_bool y x)
  | PInf, _ | _, NInf => false
  | NInf, _ | _, PInf => true
  end.

Definition feqb (a b : npfloat) : bool :=
  match a, b with
  | Fin x, Fin y => Qeq_bool x y
  | PInf, PInf | NInf, NInf => true
  | _, _ => false
  end.

Definition fleb (a b : npfloat) : bool := fltb a b || feqb a b.
Definition fgtb (a b : npfloat) : bool := fltb b a.
Definition fgeb (a b : npfloat) : bool := fleb b a.

(** Python's two-argument [max(a, b)]: the first argument unless the second
    is greater. *)
Definition pymax (a b : npfloat) : npfloat := if fgtb b a then b else a.

(** Python's [sum(xs)]: a left fold from the integer [0]. *)
Definition pysum (xs : list npfloat) : npfloat := fold_left fadd xs f0.

Definition of_Z (z : Z) : npfloat := Fin (inject_Z z).

(** The power at a natural exponent, by repeated multiplication; it is the
    instance of [**] used to run the model on configurations whose exponents
    [alpha] and [beta] are whole numbers. *)
Fixpoint fpow_nat (x : npfloat) (n : nat) : npfloat :=
  match n with
  | O => f1
  | S n' => fmul x (fpow_nat x n')
  end.

Definition fpow_int (x a : npfloat) : npfloat :=
  match a with
  | Fin (Qmake (Zpos n) 1) => fpow_nat x (Pos.to_nat n)
  | Fin (Qmake Z0 1) => f1
  | _ => NaN
  end.

(** ** Exceptions and the sampling loop *)

Inductive exn : Type := IndexError | ValueError.

(** The result of running a piece of the program: a value, an exception, or
    [Looping] when the draws supplied so far leave the rejection-sampling loop
    of the constructor still running. *)
Inductive outcome (A : Type) : Type :=
  | Ok (a : A)
  | Raise (e : exn)
  | Looping.

Arguments Ok {A} a.
Arguments Raise {A} e.
Arguments Looping {A}.

Definition bind {A B : Type} (x : outcome A) (k : A -> outcome B) : outcome B :=
  match x with
  | Ok a => k a
  | Raise e => Raise e
  | Looping => Looping
  end.

Notation "'do' x <- c ; k" := (bind c (fun x => k))
  (at level 10, x pattern, c at level 100, k at level 200).

Fixpoint mapM {A B : Type} (f : A -> outcome B) (l : list A) : outcome (list B) :=
  match l with
  | [] => Ok []
  | x :: l' => do y <- f x; do ys <- mapM f l'; Ok (y :: ys)
  end.

(** ** Indexing *)

(** The position an index denotes in a sequence of length [len]: Python and
    numpy count a negative index from the end. *)
Definition py_norm (len : nat) (i : Z) : option nat :=
  if i <? 0 then
    if 0 <=? Z.of_nat len + i then Some (Z.to_nat (Z.of_nat len + i)) else None
  else
    if i <? Z.of_nat len then Some (Z.to_nat i) else None.

Definition py_get {A : Type} (l : list A) (i : Z) : outcome A :=
  match py_norm (length l) i with
  | Some n => match l !! n with Some x => Ok x | None => Raise IndexError end
  | None => Raise IndexError
  end.

Definition py_set {A : Type} (l : list A) (i : Z) (v : A) : outcome (list A) :=
  match py_norm (length l) i with
  | Some n => Ok (<[n := v]> l)
  | None => Raise IndexError
  end.

Definition get2 {A : Type} (g : list (list A)) (i j : Z) : outcome A :=
  do r <- py_get g i; py_get r j.

Definition get3 {A : Type} (g : list (list (list A))) (i j k : Z) : outcome A :=
  do r <- py_get g i; do cell <- py_get r j; py_get cell k.

Definition set3 {A : Type} (g : list (list (list A))) (i j k : Z) (v : A)
  : outcome (list (list (list A))) :=
  do r <- py_get g i;
  do cell <- py_get r j;
  do cell' <- py_set cell k v;
  do r' <- py_set r j cell';
  py_set g i r'.

(** [a.shape[0]] and [a.shape[1]] of an array with at least two dimensions. *)
Definition shape0 {A : Type} (g : list (list A)) : Z := Z.of_nat (length g).
Definition shape1 {A : Type} (g : list (list A)) : Z :=
  match g with
  | [] => 0
  | r :: _ => Z.of_nat (length r)
  end.

(** A pixel of the image; every read of [pixel_intensity] is guarded by the
    bounds tests written next to it, so the default is never returned for a
    rectangular image. *)
Definition px (img : list (list Z)) (i j : Z) : Z :=
  match get2 img i j with
  | Ok v => v
  | _ => 0
  end.

(** ** The random source *)

(** [random.randrange(n)] on the raw draw [raw]: a [ValueError] on an empty
    range, otherwise a value of [0 .. n-1]; every such value is the result of
    some draw. *)
Definition randrange (n raw : Z) : outcome Z :=
  if n <=? 0 then Raise ValueError else Ok (raw mod n).

(** What one call of [deposit_pheromone] takes from [random]: the list
    returned by [random.sample(directions, 8)] and the two draws of the
    relocation. *)
Record Draw : Type := {
  sample : list (Z * Z);
  draw_row : Z;
  draw_col : Z
}.

(** ** The colony *)

Definition N : Z * Z := (-1, 0).
Definition NE : Z * Z := (-1, 1).
Definition E : Z * Z := (0, 1).
Definition SE : Z * Z := (1, 1).
Definition S_ : Z * Z := (1, 0).
Definition SW : Z * Z := (1, -1).
Definition W : Z * Z := (0, -1).
Definition NW : Z * Z := (-1, -1).
Definition directions : list (Z * Z) := [N; NE; E; SE; S_; SW; W; NW].

Record Ant : Type := {
  row : Z;
  col : Z;
  pos_memory : list (Z * Z);
  special : bool
}.

Record Colony : Type := {
  alpha : npfloat;
  beta : npfloat;
  img : list (list Z);
  i_max : Z;
  intensities : list (list npfloat);
  ants : list Ant;
  pheromone : list (list (list npfloat));
  m : Z;
  ant_mem : Z;
  tau_min : npfloat;
  p : npfloat;
  b : npfloat;
  memory_index : Z
}.

Definition set_pos (a : Ant) (r c : Z) : Ant :=
  {| row := r; col := c; pos_memory := pos_memory a; special := special a |}.

Definition set_pos_memory (a : Ant) (mem : list (Z * Z)) : Ant :=
  {| row := row a; col := col a; pos_memory := mem; special := special a |}.

Definition set_pheromone (c : Colony) (ph : list (list (list npfloat))) : Colony :=
  {| alpha := alpha c; beta := beta c; img := img c; i_max := i_max c;
     intensities := intensities c; ants := ants c; pheromone := ph;
     m := m c; ant_mem := ant_mem c; tau_min := tau_min c; p := p c; b := b c;
     memory_index := memory_index c |}.

Definition set_memory_index (c : Colony) (idx : Z) : Colony :=
  {| alpha := alpha c; beta := beta c; img := img c; i_max := i_max c;
     intensities := intensities c; ants := ants c; pheromone := pheromone c;
     m := m c; ant_mem := ant_mem c; tau_min := tau_min c; p := p c; b := b c;
     memory_index := idx |}.

Definition set_ants (c : Colony) (l : list Ant) : Colony :=
  {| alpha := alpha c; beta := beta c; img := img c; i_max := i_max c;
     intensities := intensities c; ants := l; pheromone := pheromone c;
     m := m c; ant_mem := ant_mem c; tau_min := tau_min c; p := p c; b := b c;
     memory_index := memory_index c |}.

(** ** The intensity field *)

(** [img.max()]: the largest sample; numpy raises [ValueError] on an empty
    array. *)
Definition img_max (im : list (list Z)) : outcome Z :=
  match concat im with
  | [] => Raise ValueError
  | x :: xs => Ok (fold_left Z.max xs x)
  end.

(** The bounds tests of [pixel_intensity]. *)
Definition both_diagonals_inside (im : list (list Z)) (r c : Z) : bool :=
  (0 <=? r - 1) && (0 <=? c - 1) && (r + 1 <? shape0 im) && (c + 1 <? shape1 im).
Definition horizontal_inside (im : list (list Z)) (c : Z) : bool :=
  (0 <=? c - 1) && (c + 1 <? shape1 im).
Definition vertical_inside (im : list (list Z)) (r : Z) : bool :=
  (0 <=? r - 1) && (r + 1 <? shape0 im).

(** The four differences whose maximum [pixel_intensity] takes. *)
Definition gradients (im : list (list Z)) (r c : Z) : list Z :=
  [ if both_diagonals_inside im r c
    then Z.abs (px im (r - 1) (c - 1) - px im (r + 1) (c + 1)) else 0;
    if both_diagonals_inside im r c
    then Z.abs (px im (r - 1) (c + 1) - px im (r + 1) (c - 1)) else 0;
    if horizontal_inside im c
    then Z.abs (px im r (c - 1) - px im r (c + 1)) else 0;
    if vertical_inside im r
    then Z.abs (px im (r - 1) c - px im (r + 1) c) else 0 ].

Definition max_gradient (im : list (list Z)) (r c : Z) : Z :=
  match gradients im r c with
  | x :: xs => fold_left Z.max xs x
  | [] => 0
  end.

(** [(1 / i_max) * max(...)], the quotient and the product exact: the
    source rounds both, so its value can be one unit in the last place off
    the rational here ([(1 / 49) * 49] is below [1] there, [1] here). *)
Definition pixel_intensity (im : list (list Z)) (imax : Z) (r c : Z) : npfloat :=
  fmul (fdiv f1 (of_Z imax)) (of_Z (max_gradient im r c)).

(** [set_pixel_intensities]: the array filled over [np.ndindex(img.shape)]. *)
Definition set_pixel_intensities (im : list (list Z)) (imax : Z)
  : list (list npfloat) :=
  map (fun r => map (fun c => pixel_intensity im imax r c)
                    (seqZ 0 (shape1 im)))
      (seqZ 0 (shape0 im)).

(** ** The taboo memory *)

(** [update_memory]: the ordered dictionary keeps its keys in insertion
    order, oldest first; assigning to a key that is present leaves its place
    unchanged; [popitem(last=False)] removes the oldest key. *)
Definition update_memory (c : Colony) (a : Ant) : Ant :=
  let pos := (row a, col a) in
  let mem := if decide (pos ∈ pos_memory a) then pos_memory a
             else pos_memory a ++ [pos] in
  set_pos_memory a (if ant_mem c <? Z.of_nat (length mem) then tail mem else mem).

(** ** Selection *)

(** [dict[k] = v] on a dictionary kept as its list of items: a key equal to
    [k] keeps its place and takes the new value, a new key goes last.  A NaN
    is equal to no key. *)
Fixpoint dict_set (d : list (npfloat * (Z * Z))) (k : npfloat) (v : Z * Z)
  : list (npfloat * (Z * Z)) :=
  match d with
  | [] => [(k, v)]
  | (k', v') :: d' =>
      if feqb k' k then (k', v) :: d' else (k', v') :: dict_set d' k v
  end.

(** [dict(zip(keys, values))]. *)
Definition dict_of_zip (keys : list npfloat) (values : list (Z * Z))
  : list (npfloat * (Z * Z)) :=
  fold_left (fun d kv => dict_set d (fst kv) (snd kv)) (combine keys values) [].

(** One step of the stable sort by decreasing key. *)
Fixpoint insert_desc (e : npfloat * (Z * Z)) (l : list (npfloat * (Z * Z)))
  : list (npfloat * (Z * Z)) :=
  match l with
  | [] => [e]
  | x :: l' => if fltb (fst e) (fst x) then x :: insert_desc e l' else e :: x :: l'
  end.

(** [keys.sort(reverse=True)], carried out on the items: the keys in
    decreasing order, keys that do not compare keeping their order.  This is
    the list Python builds when no key is a NaN (the keys of a dictionary are
    then distinct) and when every key is one (no comparison holds and the
    list is left as it is); with NaN among numbers the order Python gives
    depends on its sorting algorithm.  Looking a key of this list up in the
    dictionary returns the value of its own item. *)
Definition sort_desc (d : list (npfloat * (Z * Z))) : list (npfloat * (Z * Z)) :=
  fold_right insert_desc [] d.

(** [Ant.max]. *)
Definition ant_max (a : Ant) (probabilities_to_pos : list (npfloat * (Z * Z)))
  : option (Z * Z) :=
  snd <$> List.find (fun e => bool_decide (snd e ∉ pos_memory a))
                    (sort_desc probabilities_to_pos).

Section Model.

(** The operator [**] on [float64]. *)
Variable fpow : npfloat -> npfloat -> npfloat.

Definition index_probability (c : Colony) (index : Z * Z) : outcome npfloat :=
  let '(r, k) := index in
  do t <- get3 (pheromone c) r k (-1);
  do i <- get2 (intensities c) r k;
  Ok (fmul (fpow t (alpha c)) (fpow i (beta c))).

(** [get_index_probabilities] over the shuffled directions [dirs]. *)
Fixpoint get_index_probabilities (c : Colony) (a : Ant) (dirs : list (Z * Z))
  : outcome (list npfloat * list (Z * Z)) :=
  match dirs with
  | [] => Ok ([], [])
  | d :: dirs' =>
      let x := row a + fst d in
      let y := col a + snd d in
      if (x <? 0) || (shape0 (pheromone c) <=? x)
         || (y <? 0) || (shape1 (pheromone c) <=? y)
      then get_index_probabilities c a dirs'
      else
        do numerator <- index_probability c (x, y);
        do rest <- get_index_probabilities c a dirs';
        Ok (numerator :: fst rest, (x, y) :: snd rest)
  end.

Definition get_max_probability_pos (c : Colony) (a : Ant) (dirs : list (Z * Z))
  : outcome (option (Z * Z)) :=
  do np <- get_index_probabilities c a dirs;
  let denominator := pysum (fst np) in
  let probabilities := map (fun x => fdiv x denominator) (fst np) in
  Ok (ant_max a (dict_of_zip probabilities (snd np))).

(** The relocation of both branches of [deposit_pheromone]. *)
Definition relocate (c : Colony) (a : Ant) (d : Draw) : outcome Ant :=
  do r <- randrange (shape0 (img c)) (draw_row d);
  do k <- randrange (shape1 (img c)) (draw_col d);
  Ok (set_pos a r k).

(** [deposit_pheromone]: the colony and the ant after the call. *)
Definition deposit_pheromone (c : Colony) (a : Ant) (d : Draw)
  : outcome (Colony * Ant) :=
  let a1 := update_memory c a in
  do pos <- get_max_probability_pos c a1 (sample d);
  match pos with
  | None => do a2 <- relocate c a1 d; Ok (c, a2)
  | Some (r, k) =>
      do i <- get2 (intensities c) r k;
      if fgeb i (b c) then
        do ph <- set3 (pheromone c) r k (memory_index c) i;
        Ok (set_pheromone c ph, set_pos a1 r k)
      else
        do a2 <- relocate c a1 d; Ok (c, a2)
  end.

(** The call [ant.deposit_pheromone()] on the ant at place [n] of
    [self.ants]: the ant object of the list is the one that changes. *)
Definition step_ant (c : Colony) (n : nat) (d : Draw) : outcome Colony :=
  match ants c !! n with
  | None => Raise IndexError
  | Some a =>
      do ca <- deposit_pheromone c a d;
      Ok (set_ants (fst ca) (<[n := snd ca]> (ants (fst ca))))
  end.

(** [for ant in self.ants: ant.deposit_pheromone()], from place [n] on for
    [k] ants; [rnd n] is what the call on ant [n] draws. *)
Fixpoint step_ants (k : nat) (n : nat) (c : Colony) (rnd : nat -> Draw)
  : outcome Colony :=
  match k with
  | O => Ok c
  | S k' => do c' <- step_ant c n (rnd n); step_ants k' (S n) c' rnd
  end.

(** ** Consolidation *)

(** The body of the loop of [adjust_pheromone] on the layers of one cell,
    [idx] being the memory index after its update. *)
Definition adjust_cell (c : Colony) (idx : Z) (cell : list npfloat)
  : outcome (list npfloat) :=
  let deltas := take (length cell - 1) cell in
  do total <- py_get cell (-1);
  do cell1 <- py_set cell (-1)
                (pymax (fadd (fmul (fsub f1 (p c)) total) (pysum deltas))
                       (tau_min c));
  py_set cell1 idx f0.

Definition adjust_pheromone (c : Colony) : outcome Colony :=
  let idx := if m c - 1 <=? memory_index c then 0 else memory_index c + 1 in
  do ph <- mapM (mapM (adjust_cell c idx)) (pheromone c);
  Ok (set_pheromone (set_memory_index c idx) ph).

(** One pass of the loop of [iterate]. *)
Definition iteration (c : Colony) (rnd : nat -> Draw) : outcome Colony :=
  do c1 <- step_ants (length (ants c)) 0 c rnd;
  adjust_pheromone c1.

(** [iterate]: [rnd i n] is what ant [n] draws in pass [i]; the passes run
    are [i0], [i0 + 1], ... *)
Fixpoint iterate_from (i0 : nat) (iterations : nat) (c : Colony)
  (rnd : nat -> nat -> Draw) : outcome Colony :=
  match iterations with
  | O => Ok c
  | S k => do c' <- iteration c (rnd i0); iterate_from (S i0) k c' rnd
  end.

Definition iterate (iterations : Z) (c : Colony) (rnd : nat -> nat -> Draw)
  : outcome Colony :=
  iterate_from 0 (Z.to_nat iterations) c rnd.

(** The states the simulation goes through from [c0]: calls of
    [deposit_pheromone] on any ant with any draws, and consolidations. *)
Inductive reachable (c0 : Colony) : Colony -> Prop :=
  | reach_start : reachable c0 c0
  | reach_step c n d c' :
      reachable c0 c -> step_ant c n d = Ok c' -> reachable c0 c'
  | reach_adjust c c' :
      reachable c0 c -> adjust_pheromone c = Ok c' -> reachable c0 c'.

End Model.

(** ** Construction *)

(** [np.zeros(shape=(rows, cols, layers))]; numpy refuses a negative
    dimension. *)
Definition np_zeros (rows cols layers : Z) : outcome (list (list (list npfloat))) :=
  if (rows <? 0) || (cols <? 0) || (layers <? 0) then Raise ValueError
  else Ok (replicate (Z.to_nat rows)
             (replicate (Z.to_nat cols) (replicate (Z.to_nat layers) f0))).

(** The loop [while (True)] of the constructor: draw pairs until one is not
    in [pairs]; the result is the pair and the draws left.  The loop has no
    other exit. *)
Fixpoint sample_pair (pairs : gset (Z * Z)) (rows cols : Z) (draws : list (Z * Z))
  : outcome ((Z * Z) * list (Z * Z)) :=
  match draws with
  | [] => Looping
  | d :: draws' =>
      do r <- randrange rows (fst d);
      do k <- randrange cols (snd d);
      if decide ((r, k) ∈ pairs) then sample_pair pairs rows cols draws'
      else Ok ((r, k), draws')
  end.

(** The loop [for ant in range(ant_count)], [n] ants to go from number
    [ant]. *)
Fixpoint place_ants (n : nat) (ant : Z) (pairs : gset (Z * Z)) (placed : list Ant)
  (rows cols : Z) (draws : list (Z * Z)) : outcome (list Ant) :=
  match n with
  | O => Ok placed
  | S n' =>
      do pd <- sample_pair pairs rows cols draws;
      let '((r, k), draws') := pd in
      let a := {| row := r; col := k; pos_memory := [];
                  special := ant mod 100 =? 0 |} in
      place_ants n' (ant + 1) ({[ (r, k) ]} ∪ pairs) (placed ++ [a]) rows cols draws'
  end.

(** [Colony.__init__]; [draws] are the pairs of raw draws of the placement
    loop, in the order they are taken. *)
Definition init (im : list (list Z)) (ant_count : Z)
  (pheromone_evaporation_constant : npfloat)
  (pheromone_memory_constant : Z)
  (ant_memory_constant : Z)
  (minimum_pheromone_constant : npfloat)
  (intensity_threshold_value : npfloat)
  (alpha_ beta_ : npfloat)
  (draws : list (Z * Z)) : outcome Colony :=
  do imax <- img_max im;
  let ints := set_pixel_intensities im imax in
  do zeros <- np_zeros (shape0 im) (shape1 im) (pheromone_memory_constant + 1);
  do ph <- mapM (mapM (fun cell => py_set cell (-1) minimum_pheromone_constant))
                zeros;
  do placed <- place_ants (Z.to_nat ant_count) 0 ∅ [] (shape0 im) (shape1 im) draws;
  Ok {| alpha := alpha_; beta := beta_; img := im; i_max := imax;
        intensities := ints; ants := placed; pheromone := ph;
        m := pheromone_memory_constant; ant_mem := ant_memory_constant;
        tau_min := minimum_pheromone_constant;
        p := pheromone_evaporation_constant;
        b := intensity_threshold_value; memory_index := 0 |}.

(** ** Snapshots *)

(** The reductions [arr.max()] and [arr.min()] of numpy on a float array: a
    NaN among the values is the result; an empty array raises [ValueError]. *)
Definition np_max2 (a b : npfloat) : npfloat :=
  match a, b with
  | NaN, _ | _, NaN => NaN
  | _, _ => if fltb a b then b else a
  end.

Definition np_min2 (a b : npfloat) : npfloat :=
  match a, b with
  | NaN, _ | _, NaN => NaN
  | _, _ => if fltb b a then b else a
  end.

Definition np_amax (xs : list npfloat) : outcome npfloat :=
  match xs with
  | [] => Raise ValueError
  | x :: xs' => Ok (fold_left np_max2 xs' x)
  end.

Definition np_amin (xs : list npfloat) : outcome npfloat :=
  match xs with
  | [] => Raise ValueError
  | x :: xs' => Ok (fold_left np_min2 xs' x)
  end.

(** The value [convert_to_gray] gives to an entry [x], the product and the
    quotient exact: the source rounds both, so the value of the maximum can
    exceed [255] there by the rounding of the quotient. *)
Definition gray (old_min old_max x : npfloat) : npfloat :=
  fadd (fdiv (fmul (of_Z (255 - 0)) (fsub x old_min)) (fsub old_max old_min))
       (of_Z 0).

(** [convert_to_gray]: the array returned; the argument is copied first and
    is not changed. *)
Definition convert_to_gray (arr : list (list npfloat))
  : outcome (list (list npfloat)) :=
  do old_max <- np_amax (concat arr);
  do old_min <- np_amin (concat arr);
  Ok (map (map (gray old_min old_max)) arr).

(** The array that [generate_pheromone_image] hands to the image writer:
    [convert_to_gray(self.pheromone[:, :, -1])]. *)
Definition pheromone_image (c : Colony) : outcome (list (list npfloat)) :=
  do totals <- mapM (mapM (fun cell : list npfloat => py_get cell (-1)))
                    (pheromone c);
  convert_to_gray totals.

(** ** Predicates of the statements *)

(** The layers of a cell as the constructor leaves them. *)
Definition init_cell (mm : Z) (tau : npfloat) : list npfloat :=
  <[Z.to_nat mm := tau]> (replicate (Z.to_nat (mm + 1)) f0).

(** The cells of a grid. *)
Definition cells (rows cols : Z) : list (Z * Z) :=
  list_prod (seqZ 0 rows) (seqZ 0 cols).

(** An ant as the constructor places it. *)
Definition placed_ok (rows cols : Z) (a : Ant) : Prop :=
  (0 <= row a < rows /\ 0 <= col a < cols) /\ pos_memory a = [].

Definition is_fin (x : npfloat) : Prop := exists v, x = Fin v.

(** A two-dimensional array of [rows] by [cols]. *)
Definition rect {A : Type} (rows cols : Z) (g : list (list A)) : Prop :=
  shape0 g = rows /\ Forall (fun r => Z.of_nat (length r) = cols) g.

Definition in_bounds (c : Colony) (pos : Z * Z) : Prop :=
  0 <= fst pos < shape0 (img c) /\ 0 <= snd pos < shape1 (img c).

(** The shape of a colony: what the constructor establishes and the
    simulation keeps. *)
Record wf (c : Colony) : Prop := {
  wf_index : 0 <= memory_index c < m c;
  wf_pheromone : rect (shape0 (img c)) (shape1 (img c)) (pheromone c);
  wf_cells :
    Forall (Forall (fun cell : list npfloat => Z.of_nat (length cell) = m c + 1))
           (pheromone c);
  wf_intensities : rect (shape0 (img c)) (shape1 (img c)) (intensities c);
  wf_ants : Forall (fun a => in_bounds c (row a, col a)) (ants c)
}.

(** The array [g] with [v] written at place [(i, j, k)], and the value at a
    place, both by position. *)
Definition write_layer {A : Type} (g : list (list (list A))) (i j k : nat) (v : A)
  : list (list (list A)) :=
  alter (alter (<[k := v]>) j) i g.

Definition layer_at {A : Type} (g : list (list (list A))) (i j k : nat) : option A :=
  match g !! i with
  | Some r => match r !! j with Some cell => cell !! k | None => None end
  | None => None
  end.

(** The ant a step leaves when it relocates, and the colony a step leaves
    when it deposits [v] at [(r, k)]. *)
Definition relocated (c : Colony) (a : Ant) (d : Draw) : Ant :=
  set_pos (update_memory c a)
          (draw_row d mod shape0 (img c)) (draw_col d mod shape1 (img c)).

Definition deposited (c : Colony) (r k : Z) (v : npfloat) : Colony :=
  set_pheromone c (write_layer (pheromone c) (Z.to_nat r) (Z.to_nat k)
                     (Z.to_nat (memory_index c)) v).

(** The memory index after [adjust_pheromone]. *)
Definition next_index (c : Colony) : Z :=
  if m c - 1 <=? memory_index c then 0 else memory_index c + 1.

(** The total of a cell after a consolidation, from its total [t] and its
    layers, and the layers of the cell after it. *)
Definition new_total (c : Colony) (t : npfloat) (cell : list npfloat) : npfloat :=
  pymax (fadd (fmul (fsub f1 (p c)) t) (pysum (take (Z.to_nat (m c)) cell)))
        (tau_min c).

Definition consolidate_cell (c : Colony) (idx : Z) (cell : list npfloat)
  : list npfloat :=
  <[Z.to_nat idx := f0]>
    (<[Z.to_nat (m c) := new_total c (List.last cell f0) cell]> cell).

(** The invariant behind the floor of the total layer: the layers of a cell
    are numbers and its total, the layer [m], is at least [tau_min]. *)
Definition cell_sound (c : Colony) (cell : list npfloat) : Prop :=
  Forall is_fin cell
  /\ forall t, cell !! Z.to_nat (m c) = Some t -> fleb (tau_min c) t = true.

Record sound (c : Colony) : Prop := {
  sound_wf : wf c;
  sound_p : is_fin (p c);
  sound_tau : is_fin (tau_min c);
  sound_intensities :
    Forall (Forall (fun i => i = NaN \/ is_fin i)) (intensities c);
  sound_cells : Forall (Forall (cell_sound c)) (pheromone c)
}.

(** The invariant of a colony without ants: every memory layer is zero. *)
Definition memory_clear (c : Colony) : Prop :=
  Forall (Forall (fun cell => Forall (fun x => x = f0) (take (Z.to_nat (m c)) cell)))
         (pheromone c).

(** [c'] has the image, the intensities and the constants of [c], memory
    index included. *)
Definition same_setup (c c' : Colony) : Prop :=
  alpha c' = alpha c /\ beta c' = beta c /\ img c' = img c /\ i_max c' = i_max c
  /\ intensities c' = intensities c /\ m c' = m c /\ ant_mem c' = ant_mem c
  /\ tau_min c' = tau_min c /\ p c' = p c /\ b c' = b c
  /\ memory_index c' = memory_index c.

(** The first position of [positions] that is not in the ant's memory. *)
Definition first_free (a : Ant) (positions : list (Z * Z)) : option (Z * Z) :=
  List.find (fun pos => bool_decide (pos ∉ pos_memory a)) positions.

(** The memory that [update_memory] leaves, from the capacity, the memory
    and the position recorded. *)
Definition remember (cap : Z) (mem : list (Z * Z)) (pos : Z * Z) : list (Z * Z) :=
  let mem' := if decide (pos ∈ mem) then mem else mem ++ [pos] in
  if cap <? Z.of_nat (length mem') then tail mem' else mem'.



(** Image samples are not negative. *)
Definition nonneg_img (im : list (list Z)) : Prop :=
  Forall (Forall (fun v => 0 <= v)) im.

(** The weights are non-negative numbers whose sum is zero. *)
Definition zero_sum (numerators : list npfloat) : Prop :=
  Forall (fun w => exists x, w = Fin x /\ (0 <= x)%Q) numerators
  /\ exists s, pysum numerators = Fin s /\ (s == 0)%Q.

(** The cell an ant stands on. *)
Definition ant_pos (a : Ant) : Z * Z := (row a, col a).

(** The intensity of a cell, by position, and the invariant of the memory
    layers: a place of a memory layer holds zero or the intensity of its
    cell, and then that intensity is at least [b]. *)
Definition intensity_at (c : Colony) (i j : nat) : option npfloat :=
  match intensities c !! i with
  | Some r => r !! j
  | None => None
  end.

Definition layers_deposited (c : Colony) : Prop :=
  forall i j k x,
    (k < Z.to_nat (m c))%nat -> layer_at (pheromone c) i j k = Some x ->
    x = f0 \/ (intensity_at c i j = Some x /\ fgeb x (b c) = true).

(** Keys in decreasing order, and keys that are pairwise different. *)
Fixpoint decreasing (l : list (npfloat * (Z * Z))) : Prop :=
  match l with
  | [] => True
  | x :: l' => Forall (fun y => fleb (fst y) (fst x) = true) l' /\ decreasing l'
  end.

Fixpoint distinct_keys (keys : list npfloat) : Prop :=
  match keys with
  | [] => True
  | k :: keys' => Forall (fun k' => feqb k k' = false) keys' /\ distinct_keys keys'
  end.

(** ** Sample data *)

Definition img_1x1 : list (list Z) := [[7]].
Definition img_1x5 : list (list Z) := [[0; 0; 1; 1; 0]].
Definition img_1x5_flat : list (list Z) := [[5; 5; 5; 5; 5]].
Definition img_3x3_flat : list (list Z) := [[5; 5; 5]; [5; 5; 5]; [5; 5; 5]].
Definition img_3x3_zero : list (list Z) := [[0; 0; 0]; [0; 0; 0]; [0; 0; 0]].
Definition q (n : Z) (d : positive) : npfloat := Fin (Qmake n d).

Definition draw (dirs : list (Z * Z)) (r k : Z) : Draw :=
  {| sample := dirs; draw_row := r; draw_col := k |}.

(** The colony of the module's defaults on [im], with memory depth [mem_depth]
    and [n] ants. *)
Definition default_colony (im : list (list Z)) (n mem_depth : Z)
  (draws : list (Z * Z)) : outcome Colony :=
  init im n (q 1 10) mem_depth 100 (q 1 10000) (q 1 20) f1 f1 draws.

(** One ant on [img_1x5], at [(0, 3)]: the colony as constructed, after the
    first call on the ant (it moves to [(0, 2)] and deposits), and after the
    consolidation that ends the first pass. *)
Definition edge_start : Colony :=
  ltac:(let r := eval vm_compute in (default_colony img_1x5 1 2 [(0, 3)]) in
        lazymatch r with Ok ?c => exact c end).

Definition edge_moved : Colony :=
  ltac:(let r := eval vm_compute in
                 (step_ant fpow_int edge_start 0 (draw directions 0 0)) in
        lazymatch r with Ok ?c => exact c end).

Definition edge_pass : Colony :=
  ltac:(let r := eval vm_compute in (adjust_pheromone edge_moved) in
        lazymatch r with Ok ?c => exact c end).

(** The second call on that ant, the neighbour to the west enumerated before
    the one to the east. *)
Definition west_first : list (Z * Z) := [W; N; NE; E; SE; S_; SW; NW].

Definition edge_lost : Colony :=
  ltac:(let r := eval vm_compute in
                 (step_ant fpow_int edge_pass 0 (draw west_first 0 4)) in
        lazymatch r with Ok ?c => exact c end).

(** One ant in the middle of a flat image, with a threshold of zero. *)
Definition flat_start : Colony :=
  ltac:(let r := eval vm_compute in
                 (init img_3x3_flat 1 (q 1 10) 2 100 (q 1 10000) f0 f1 f1 [(1, 1)]) in
        lazymatch r with Ok ?c => exact c end).

Definition flat_moved : Colony :=
  ltac:(let r := eval vm_compute in
                 (step_ant fpow_int flat_start 0 (draw directions 2 2)) in
        lazymatch r with Ok ?c => exact c end).

(** One ant with a memory of two positions on a flat image, at [(0, 0)],
    and the colony four passes later, every relocation drawing [(0, 1)]. *)
Definition strip_start : Colony :=
  ltac:(let r := eval vm_compute in
                 (init img_1x5_flat 1 (q 1 10) 2 2 (q 1 10000) (q 1 20) f1 f1
                       [(0, 0)]) in
        lazymatch r with Ok ?c => exact c end).


(** One ant on [img_1x5] with a memory depth of zero. *)
Definition shallow_start : Colony :=
  ltac:(let r := eval vm_compute in (default_colony img_1x5 1 0 [(0, 3)]) in
        lazymatch r with Ok ?c => exact c end).

(** One ant on [img_1x5], at [(0, 3)], with a memory depth of one: the
    colony as constructed and after the first call on the ant. *)
Definition single_start : Colony :=
  ltac:(let r := eval vm_compute in (default_colony img_1x5 1 1 [(0, 3)]) in
        lazymatch r with Ok ?c => exact c end).

Definition single_moved : Colony :=
  ltac:(let r := eval vm_compute in
                 (step_ant fpow_int single_start 0 (draw directions 0 0)) in
        lazymatch r with Ok ?c => exact c end).

(** No ant on [img_1x5]. *)
Definition bare_start : Colony :=
  ltac:(let r := eval vm_compute in (default_colony img_1x5 0 2 []) in
        lazymatch r with Ok ?c => exact c end).

(** * Properties *)

(** ** Numbers and indices *)

Lemma fadd_f0_r x : fadd x f0 = x.
Proof.
  destruct x as [[n d]| | |]; simpl; try reflexivity.
  unfold Qplus; simpl. rewrite Z.mul_1_r, Z.add_0_r, Pos.mul_1_r. reflexivity.
Qed.

Lemma feqb_refl_fin x : feqb (Fin x) (Fin x) = true.
Proof. simpl. apply Qeq_bool_iff. reflexivity. Qed.

Lemma fleb_fin x y : fleb (Fin x) (Fin y) = true <-> (x <= y)%Q.
Proof.
  unfold fleb; simpl. rewrite orb_true_iff, negb_true_iff, Qeq_bool_iff.
  split.
  - intros [H|H].
    + apply Qlt_le_weak. apply Qnot_le_lt. intros Hle.
      apply Qle_bool_iff in Hle. congruence.
    + rewrite H. apply Qle_refl.
  - intros H. destruct (Qle_bool y x) eqn:E; [right|left; reflexivity].
    apply Qle_bool_iff in E. apply Qle_antisym; assumption.
Qed.

Lemma fltb_fin x y : fltb (Fin x) (Fin y) = true <-> (x < y)%Q.
Proof.
  simpl. rewrite negb_true_iff. split.
  - intros H. apply Qnot_le_lt. intros Hle. apply Qle_bool_iff in Hle. congruence.
  - intros H. destruct (Qle_bool y x) eqn:E; [|reflexivity].
    apply Qle_bool_iff in E. exfalso. apply (Qlt_not_le _ _ H E).
Qed.

Lemma pymax_fin x t : exists y, pymax (Fin x) (Fin t) = Fin y /\ (t <= y)%Q.
Proof.
  unfold pymax, fgtb. destruct (fltb (Fin x) (Fin t)) eqn:E.
  - exists t. split; [reflexivity|apply Qle_refl].
  - exists x. split; [reflexivity|].
    destruct (Qlt_le_dec x t) as [H|H]; [|exact H].
    apply fltb_fin in H. congruence.
Qed.

Lemma fltb_not_fgeb x y : fltb x y = true -> fgeb x y = false.
Proof.
  intros H. destruct (fgeb x y) eqn:E; [|reflexivity]. exfalso.
  unfold fgeb in E.
  destruct x as [a| | |], y as [c| | |]; try discriminate.
  apply fltb_fin in H. apply fleb_fin in E. exact (Qlt_not_le _ _ H E).
Qed.

Lemma py_norm_lt len i n : py_norm len i = Some n -> (n < len)%nat.
Proof.
  unfold py_norm. repeat case_match; intros; simplify_eq; lia.
Qed.

Lemma py_norm_nonneg len i : 0 <= i < Z.of_nat len -> py_norm len i = Some (Z.to_nat i).
Proof. intros. unfold py_norm. repeat case_match; try lia; reflexivity. Qed.

Lemma py_norm_last len : (0 < len)%nat -> py_norm len (-1) = Some (len - 1)%nat.
Proof. intros. unfold py_norm. repeat case_match; try lia. f_equal. lia. Qed.

Lemma py_get_Ok {A} (l : list A) i x :
  py_get l i = Ok x <-> exists n, py_norm (length l) i = Some n /\ l !! n = Some x.
Proof.
  unfold py_get. split.
  - destruct (py_norm (length l) i) as [n|]; [|discriminate].
    destruct (l !! n) eqn:E; [|discriminate]. intros [= ->]. eauto.
  - intros (n & -> & ->). reflexivity.
Qed.

Lemma py_get_is_Ok {A} (l : list A) i n :
  py_norm (length l) i = Some n -> exists x, py_get l i = Ok x /\ l !! n = Some x.
Proof.
  intros H. unfold py_get. rewrite H.
  destruct (lookup_lt_is_Some_2 l n (py_norm_lt _ _ _ H)) as [x Hx].
  rewrite Hx. eauto.
Qed.

Lemma py_set_Ok {A} (l : list A) i v l' :
  py_set l i v = Ok l' <-> exists n, py_norm (length l) i = Some n /\ l' = <[n := v]> l.
Proof.
  unfold py_set. split.
  - destruct (py_norm (length l) i) as [n|]; [|discriminate]. intros [= <-]. eauto.
  - intros (n & -> & ->). reflexivity.
Qed.

Lemma bind_Ok {A B} (x : outcome A) (k : A -> outcome B) y :
  bind x k = Ok y <-> exists a, x = Ok a /\ k a = Ok y.
Proof.
  destruct x; simpl; split; try (intros (? & ? & ?)); try discriminate; eauto.
  simplify_eq. assumption.
Qed.

(** ** Reading and writing arrays *)

Lemma rect_get2 {A} rows cols (g : list (list A)) i j :
  rect rows cols g -> 0 <= i < rows -> 0 <= j < cols ->
  exists r x, g !! Z.to_nat i = Some r /\ r !! Z.to_nat j = Some x
              /\ py_get g i = Ok r /\ py_get r j = Ok x.
Proof.
  intros [Hr Hc] Hi Hj. unfold shape0 in Hr.
  destruct (py_get_is_Ok g i (Z.to_nat i)) as (r & Hgr & Hlr).
  { apply py_norm_nonneg. lia. }
  assert (Hlen : Z.of_nat (length r) = cols).
  { rewrite Forall_forall in Hc. apply Hc. eapply list_elem_of_lookup_2, Hlr. }
  destruct (py_get_is_Ok r j (Z.to_nat j)) as (x & Hgx & Hlx).
  { apply py_norm_nonneg. lia. }
  exists r, x. auto.
Qed.

Lemma Forall_lookup_elim {A} (P : A -> Prop) (l : list A) n x :
  Forall P l -> l !! n = Some x -> P x.
Proof. intros H Hl. rewrite Forall_forall in H. eapply H, list_elem_of_lookup_2, Hl. Qed.

Lemma layer_at_write_same {A} (g : list (list (list A))) i j k v r cell :
  g !! i = Some r -> r !! j = Some cell -> (k < length cell)%nat ->
  layer_at (write_layer g i j k v) i j k = Some v.
Proof.
  intros Hr Hc Hk. unfold layer_at, write_layer.
  rewrite list_lookup_alter_eq, Hr. simpl.
  rewrite list_lookup_alter_eq, Hc. simpl.
  apply list_lookup_insert_eq. exact Hk.
Qed.

Lemma layer_at_write_other {A} (g : list (list (list A))) i j k v i' j' k' :
  (i', j', k') <> (i, j, k) ->
  layer_at (write_layer g i j k v) i' j' k' = layer_at g i' j' k'.
Proof.
  intros Hne. unfold layer_at, write_layer.
  destruct (decide (i = i')) as [<-|Hi]; [|rewrite list_lookup_alter_ne by exact Hi; reflexivity].
  rewrite list_lookup_alter_eq. destruct (g !! i) as [r|]; simpl; [|reflexivity].
  destruct (decide (j = j')) as [<-|Hj]; [|rewrite list_lookup_alter_ne by exact Hj; reflexivity].
  rewrite list_lookup_alter_eq. destruct (r !! j) as [cell|]; simpl; [|reflexivity].
  apply list_lookup_insert_ne. congruence.
Qed.

Lemma write_layer_rect {A} rows cols (g : list (list (list A))) i j k v :
  rect rows cols g -> rect rows cols (write_layer g i j k v).
Proof.
  intros [H0 H1]. split.
  - unfold shape0, write_layer in *. rewrite length_alter. exact H0.
  - apply Forall_alter; [exact H1|]. intros r _ Hr. rewrite length_alter. exact Hr.
Qed.

Lemma write_layer_cells {A} (n : Z) (g : list (list (list A))) i j k v :
  Forall (Forall (fun cell => Z.of_nat (length cell) = n)) g ->
  Forall (Forall (fun cell => Z.of_nat (length cell) = n)) (write_layer g i j k v).
Proof.
  intros H. apply Forall_alter; [exact H|]. intros r _ Hr.
  apply Forall_alter; [exact Hr|]. intros cell _ Hc. rewrite length_insert. exact Hc.
Qed.

Lemma get3_layer_at {A} (g : list (list (list A))) (i j k : nat) x :
  layer_at g i j k = Some x -> get3 g (Z.of_nat i) (Z.of_nat j) (Z.of_nat k) = Ok x.
Proof.
  unfold layer_at, get3. destruct (g !! i) as [r|] eqn:Hr; [|discriminate].
  destruct (r !! j) as [cell|] eqn:Hc; [|discriminate]. intros Hx.
  assert (Hg : forall B (l : list B) n y, l !! n = Some y -> py_get l (Z.of_nat n) = Ok y).
  { intros B l n y Hl. apply py_get_Ok. exists n. split; [|exact Hl].
    rewrite py_norm_nonneg by (apply lookup_lt_Some in Hl; lia). f_equal. lia. }
  rewrite (Hg _ _ _ _ Hr). simpl. rewrite (Hg _ _ _ _ Hc). simpl. exact (Hg _ _ _ _ Hx).
Qed.

(** ** The dictionary and the sort of the selection *)

Lemma dict_set_elem d k v e :
  e ∈ dict_set d k v -> snd e = v \/ e ∈ d.
Proof.
  induction d as [|[k' v'] d IH]; simpl.
  - intros H%list_elem_of_singleton. subst. auto.
  - destruct (feqb k' k).
    + intros [->|H]%elem_of_cons; [auto|]. right. apply elem_of_cons. auto.
    + intros [->|H]%elem_of_cons; [right; apply elem_of_cons; auto|].
      destruct (IH H); [auto|]. right. apply elem_of_cons. auto.
Qed.

Lemma dict_fold_elem (l : list (npfloat * (Z * Z))) acc e :
  e ∈ fold_left (fun d kv => dict_set d (fst kv) (snd kv)) l acc ->
  snd e ∈ map snd l \/ e ∈ acc.
Proof.
  revert acc. induction l as [|kv l IH]; simpl; intros acc H; [auto|].
  destruct (IH _ H) as [H1|H1].
  - left. apply elem_of_cons. auto.
  - destruct (dict_set_elem _ _ _ _ H1) as [H2|H2]; [|auto].
    left. apply elem_of_cons. auto.
Qed.

Lemma dict_of_zip_elem keys values e :
  e ∈ dict_of_zip keys values -> snd e ∈ values.
Proof.
  intros H. destruct (dict_fold_elem _ _ _ H) as [H1|H1].
  - apply list_elem_of_fmap in H1 as (kv & -> & Hkv).
    apply list_elem_of_In in Hkv. destruct kv as [k v].
    apply in_combine_r in Hkv. apply list_elem_of_In. exact Hkv.
  - inversion H1.
Qed.

Lemma insert_desc_perm e l : insert_desc e l ≡ₚ e :: l.
Proof.
  induction l as [|x l IH]; simpl; [reflexivity|].
  destruct (fltb _ _); [|reflexivity]. rewrite IH. apply Permutation_swap.
Qed.

Lemma sort_desc_perm d : sort_desc d ≡ₚ d.
Proof.
  induction d as [|e d IH]; simpl; [reflexivity|].
  rewrite insert_desc_perm. rewrite IH. reflexivity.
Qed.

Lemma ant_max_Some a d pos :
  ant_max a d = Some pos -> (pos ∉ pos_memory a) /\ exists k, (k, pos) ∈ d.
Proof.
  unfold ant_max. destruct (List.find _ _) as [[k v]|] eqn:E; [|discriminate].
  simpl. intros [= <-]. apply find_some in E as [Hin Hfree].
  split; [apply bool_decide_eq_true in Hfree; exact Hfree|].
  exists k. rewrite <- (sort_desc_perm d). apply list_elem_of_In. exact Hin.
Qed.

(** With keys that are all NaN, nothing merges and nothing moves. *)
Lemma dict_set_nan d v : dict_set d NaN v = d ++ [(NaN, v)].
Proof.
  induction d as [|[k' v'] d IH]; simpl; [reflexivity|].
  replace (feqb k' NaN) with false by (destruct k'; reflexivity).
  rewrite IH. reflexivity.
Qed.

Lemma dict_fold_nan (values : list (Z * Z)) acc :
  fold_left (fun d kv => dict_set d (fst kv) (snd kv))
            (map (fun v => (NaN, v)) values) acc
  = acc ++ map (fun v => (NaN, v)) values.
Proof.
  revert acc. induction values as [|v values IH]; simpl; intros acc.
  - rewrite app_nil_r. reflexivity.
  - rewrite IH, dict_set_nan, <- app_assoc. reflexivity.
Qed.

Lemma sort_desc_nan (values : list (Z * Z)) :
  sort_desc (map (fun v => (NaN, v)) values) = map (fun v => (NaN, v)) values.
Proof.
  induction values as [|v values IH]; simpl; [reflexivity|].
  rewrite IH. destruct values; reflexivity.
Qed.

Lemma combine_nan (keys : list npfloat) (values : list (Z * Z)) :
  Forall (fun k => k = NaN) keys -> length keys = length values ->
  combine keys values = map (fun v => (NaN, v)) values.
Proof.
  intros H. revert values. induction H as [|k keys -> _ IH]; intros [|v values] Hlen;
    simpl in *; try discriminate; [reflexivity|].
  rewrite IH by congruence. reflexivity.
Qed.

Lemma find_map_snd {K V} (f : V -> bool) (l : list V) (k : K) :
  snd <$> List.find (fun e : K * V => f (snd e)) (map (fun v => (k, v)) l)
  = List.find f l.
Proof.
  induction l as [|v l IH]; simpl; [reflexivity|].
  destruct (f v); [reflexivity|exact IH].
Qed.

Lemma ant_max_nan a keys values :
  Forall (fun k => k = NaN) keys -> length keys = length values ->
  ant_max a (dict_of_zip keys values) = first_free a values.
Proof.
  intros Hk Hlen. unfold ant_max, dict_of_zip, first_free.
  rewrite (combine_nan _ _ Hk Hlen), dict_fold_nan. simpl.
  rewrite sort_desc_nan.
  exact (find_map_snd (fun pos => bool_decide (pos ∉ pos_memory a)) values NaN).
Qed.

(** Non-negative weights of sum zero are all zero, and their quotients by
    the sum are NaN. *)
Lemma pysum_nonneg (nums : list npfloat) acc :
  Forall (fun w => exists x, w = Fin x /\ (0 <= x)%Q) nums -> (0 <= acc)%Q ->
  exists s, fold_left fadd nums (Fin acc) = Fin s /\ (acc <= s)%Q
    /\ Forall (fun w => exists x, w = Fin x /\ (0 <= x <= s)%Q) nums.
Proof.
  intros H. revert acc. induction H as [|w nums (x & -> & Hx) _ IH]; intros acc Hacc; simpl.
  - exists acc. split; [reflexivity|]. split; [apply Qle_refl|constructor].
  - destruct (IH (acc + x)%Q) as (s & Hs & Hle & Hall).
    { rewrite <- (Qplus_0_r 0). apply Qplus_le_compat; assumption. }
    exists s. split; [exact Hs|].
    assert (Hax : (acc <= acc + x)%Q).
    { rewrite <- (Qplus_0_r acc) at 1. apply Qplus_le_compat; [apply Qle_refl|assumption]. }
    assert (Hxa : (x <= acc + x)%Q).
    { rewrite <- (Qplus_0_l x) at 1. apply Qplus_le_compat; [assumption|apply Qle_refl]. }
    split; [eapply Qle_trans; eassumption|].
    constructor; [|exact Hall].
    exists x. split; [reflexivity|]. split; [assumption|]. eapply Qle_trans; eassumption.
Qed.

Lemma zero_sum_probabilities nums :
  zero_sum nums ->
  Forall (fun k => k = NaN) (map (fun x => fdiv x (pysum nums)) nums).
Proof.
  intros [Hnn (s & Hs & Hs0)].
  destruct (pysum_nonneg nums 0 Hnn (Qle_refl 0)) as (s' & Hs' & _ & Hall).
  unfold pysum, f0 in *. rewrite Hs in Hs'. injection Hs' as <-.
  rewrite Hs. apply Forall_fmap. eapply Forall_impl; [exact Hall|].
  intros w (x & -> & Hx0 & Hxs). simpl.
  replace (Qeq_bool s 0) with true by (symmetry; apply Qeq_bool_iff; exact Hs0).
  assert (Hx : (x == 0)%Q).
  { apply Qle_antisym; [|assumption]. rewrite <- Hs0. assumption. }
  unfold Qsgn. unfold Qeq in Hx. simpl in Hx. rewrite Z.mul_1_r in Hx. rewrite Hx.
  reflexivity.
Qed.

(** ** The intensity field *)

Lemma fold_max_ge (xs : list Z) (x : Z) :
  x <= fold_left Z.max xs x /\ Forall (fun y => y <= fold_left Z.max xs x) xs.
Proof.
  revert x. induction xs as [|y xs IH]; intros x; simpl.
  - split; [lia|constructor].
  - destruct (IH (Z.max x y)) as [H1 H2]. split; [lia|].
    constructor; [lia|exact H2].
Qed.

Lemma fold_max_bound (xs : list Z) (x lo hi : Z) :
  lo <= x <= hi -> Forall (fun y => lo <= y <= hi) xs ->
  lo <= fold_left Z.max xs x <= hi.
Proof.
  intros Hx H. revert x Hx. induction H as [|y xs Hy _ IH]; intros x Hx; simpl.
  - exact Hx.
  - apply IH. lia.
Qed.

Lemma img_max_bounds im imax :
  nonneg_img im -> img_max im = Ok imax ->
  0 <= imax /\ Forall (Forall (fun v => 0 <= v <= imax)) im.
Proof.
  intros Hnn Hmax. unfold img_max in Hmax.
  assert (Hc : Forall (fun v => 0 <= v) (concat im)).
  { apply Forall_concat. exact Hnn. }
  assert (Hall : Forall (fun v => 0 <= v <= imax) (concat im)).
  { destruct (concat im) as [|x xs]; [discriminate|]. injection Hmax as <-.
    destruct (fold_max_ge xs x) as [H1 H2]. inversion Hc; subst.
    constructor; [lia|]. eapply Forall_impl; [apply Forall_and; split; [exact H2|eassumption]|].
    simpl. intros; lia. }
  split.
  - destruct (concat im) as [|x xs]; [discriminate|]. inversion Hall; lia.
  - apply Forall_concat in Hall. exact Hall.
Qed.

Lemma px_bounds im imax i j :
  0 <= imax -> Forall (Forall (fun v => 0 <= v <= imax)) im ->
  0 <= px im i j <= imax.
Proof.
  intros H0 Hall. unfold px. destruct (get2 im i j) as [v| |] eqn:E; try lia.
  unfold get2 in E. apply bind_Ok in E as (r & Hr & Hv).
  apply py_get_Ok in Hr as (n & _ & Hr). apply py_get_Ok in Hv as (n' & _ & Hv).
  exact (Forall_lookup_1 _ _ _ _ (Forall_lookup_1 _ _ _ _ Hall Hr) Hv).
Qed.

Lemma max_gradient_bounds im imax r c :
  0 <= imax -> Forall (Forall (fun v => 0 <= v <= imax)) im ->
  0 <= max_gradient im r c <= imax.
Proof.
  intros H0 Hall. unfold max_gradient, gradients.
  pose proof (fun i j => px_bounds im imax i j H0 Hall) as Hpx.
  apply fold_max_bound.
  - destruct (both_diagonals_inside im r c); [|lia].
    pose proof (Hpx (r - 1) (c - 1)). pose proof (Hpx (r + 1) (c + 1)). lia.
  - repeat constructor.
    + destruct (both_diagonals_inside im r c); [|lia].
      pose proof (Hpx (r - 1) (c + 1)). pose proof (Hpx (r + 1) (c - 1)). lia.
    + destruct (both_diagonals_inside im r c); [|lia].
      pose proof (Hpx (r - 1) (c + 1)). pose proof (Hpx (r + 1) (c - 1)). lia.
    + destruct (horizontal_inside im c); [|lia].
      pose proof (Hpx r (c - 1)). pose proof (Hpx r (c + 1)). lia.
    + destruct (horizontal_inside im c); [|lia].
      pose proof (Hpx r (c - 1)). pose proof (Hpx r (c + 1)). lia.
    + destruct (vertical_inside im r); [|lia].
      pose proof (Hpx (r - 1) c). pose proof (Hpx (r + 1) c). lia.
    + destruct (vertical_inside im r); [|lia].
      pose proof (Hpx (r - 1) c). pose proof (Hpx (r + 1) c). lia.
Qed.

Lemma scaled_unit (imax g : Z) :
  0 < imax -> 0 <= g <= imax ->
  (0 <= 1 / inject_Z imax * inject_Z g <= 1)%Q.
Proof.
  intros Hi Hg.
  assert (HI : (0 < inject_Z imax)%Q) by (unfold Qlt; simpl; lia).
  assert (HG0 : (0 <= inject_Z g)%Q) by (unfold Qle; simpl; lia).
  assert (HG1 : (inject_Z g <= inject_Z imax)%Q) by (unfold Qle; simpl; lia).
  assert (Hinv : (0 < 1 / inject_Z imax)%Q).
  { unfold Qdiv. rewrite Qmult_1_l. apply Qinv_lt_0_compat. exact HI. }
  split.
  - apply Qmult_le_0_compat; [apply Qlt_le_weak; exact Hinv|exact HG0].
  - assert (H1 : (1 / inject_Z imax * inject_Z imax == 1)%Q).
    { unfold Qdiv. rewrite Qmult_1_l. rewrite Qmult_comm. apply Qmult_inv_r.
      intros E. rewrite E in HI. apply (Qlt_irrefl 0 HI). }
    apply Qle_trans with (1 / inject_Z imax * inject_Z imax)%Q.
    + apply (proj2 (Qmult_le_l (inject_Z g) (inject_Z imax) _ Hinv)). exact HG1.
    + rewrite H1. apply Qle_refl.
Qed.

Lemma pixel_intensity_pos im imax r c :
  0 < imax -> 0 <= max_gradient im r c <= imax ->
  exists x, pixel_intensity im imax r c = Fin x /\ (0 <= x <= 1)%Q.
Proof.
  intros Hi Hg. unfold pixel_intensity, of_Z, f1. simpl.
  assert (Hne : Qeq_bool (inject_Z imax) 0 = false).
  { destruct (Qeq_bool (inject_Z imax) 0) eqn:E; [|reflexivity].
    apply Qeq_bool_iff in E. unfold Qeq in E. simpl in E. lia. }
  rewrite Hne. eexists. split; [reflexivity|]. apply scaled_unit; assumption.
Qed.

Lemma pixel_intensity_zero im r c :
  max_gradient im r c = 0 -> pixel_intensity im 0 r c = NaN.
Proof. intros Hg. unfold pixel_intensity. rewrite Hg. reflexivity. Qed.

Lemma mapM_map {A B} (f : A -> outcome B) (g : A -> B) (l : list A) :
  Forall (fun x => f x = Ok (g x)) l -> mapM f l = Ok (map g l).
Proof.
  induction 1 as [|x l Hx _ IH]; simpl; [reflexivity|]. rewrite Hx, IH. reflexivity.
Qed.

(** ** Construction *)

Lemma sample_pair_Ok pairs rows cols draws pos rest :
  sample_pair pairs rows cols draws = Ok (pos, rest) ->
  0 <= fst pos < rows /\ 0 <= snd pos < cols /\ pos ∉ pairs.
Proof.
  induction draws as [|d draws IH]; simpl; [discriminate|].
  unfold randrange.
  destruct (Z.leb_spec rows 0); [discriminate|]. simpl.
  destruct (Z.leb_spec cols 0); [discriminate|]. simpl.
  destruct (decide _) as [Hin|Hout]; [exact IH|].
  intros [= <- <-]. simpl.
  pose proof (Z.mod_pos_bound (fst d) rows). pose proof (Z.mod_pos_bound (snd d) cols).
  split; [lia|]. split; [lia|exact Hout].
Qed.

Lemma sample_pair_no_raise pairs rows cols draws e :
  0 < rows -> 0 < cols -> sample_pair pairs rows cols draws <> Raise e.
Proof.
  intros Hr Hc. induction draws as [|d draws IH]; simpl; [discriminate|].
  unfold randrange.
  destruct (Z.leb_spec rows 0); [lia|]. simpl.
  destruct (Z.leb_spec cols 0); [lia|]. simpl.
  destruct (decide _); [exact IH|discriminate].
Qed.

Lemma cells_length rows cols :
  0 <= rows -> 0 <= cols -> Z.of_nat (length (cells rows cols)) = rows * cols.
Proof.
  intros. unfold cells. rewrite length_prod, !length_seqZ. lia.
Qed.

Lemma cells_elem rows cols pos :
  0 <= fst pos < rows -> 0 <= snd pos < cols -> pos ∈ cells rows cols.
Proof.
  intros Hr Hc. destruct pos as [r k]. simpl in *. apply list_elem_of_In.
  apply in_prod; apply list_elem_of_In, elem_of_seqZ; lia.
Qed.

Lemma pigeonhole (pairs : gset (Z * Z)) rows cols :
  0 <= rows -> 0 <= cols ->
  (forall pos, pos ∈ pairs -> 0 <= fst pos < rows /\ 0 <= snd pos < cols) ->
  Z.of_nat (size pairs) <= rows * cols.
Proof.
  intros Hr Hc Hin. rewrite <- cells_length by assumption.
  apply inj_le. unfold size, set_size. simpl.
  apply submseteq_length, NoDup_submseteq; [apply NoDup_elements|].
  intros pos Hp. apply elem_of_elements in Hp. destruct (Hin pos Hp).
  apply cells_elem; assumption.
Qed.

Lemma place_ants_Ok n : forall ant pairs placed rows cols draws l,
  0 <= rows -> 0 <= cols ->
  place_ants n ant pairs placed rows cols draws = Ok l ->
  (forall pos, pos ∈ pairs -> 0 <= fst pos < rows /\ 0 <= snd pos < cols) ->
  Forall (placed_ok rows cols) placed ->
  Forall (placed_ok rows cols) l
  /\ length l = (length placed + n)%nat
  /\ Z.of_nat (size pairs) + Z.of_nat n <= rows * cols.
Proof.
  induction n as [|n IH]; intros ant pairs placed rows cols draws l Hr Hc Hp Hin Hpl; simpl in Hp.
  - injection Hp as <-. split; [exact Hpl|]. split; [lia|].
    pose proof (pigeonhole pairs rows cols Hr Hc Hin). lia.
  - apply bind_Ok in Hp as ([[r k] rest] & Hs & Hp).
    apply sample_pair_Ok in Hs as (H1 & H2 & H3). simpl in H1, H2.
    apply IH in Hp as (Ha & Hb & Hcnt); try assumption.
    + split; [exact Ha|]. split; [rewrite Hb, length_app; simpl; lia|].
      rewrite size_union in Hcnt by (apply disjoint_singleton_l; exact H3).
      rewrite size_singleton in Hcnt. lia.
    + intros pos [->%elem_of_singleton|Hpos]%elem_of_union; [simpl; lia|auto].
    + apply Forall_app. split; [exact Hpl|]. repeat constructor; simpl; lia.
Qed.

Lemma place_ants_no_raise n : forall ant pairs placed rows cols draws e,
  0 < rows -> 0 < cols ->
  place_ants n ant pairs placed rows cols draws <> Raise e.
Proof.
  induction n as [|n IH]; intros ant pairs placed rows cols draws e Hr Hc; simpl;
    [discriminate|].
  destruct (sample_pair pairs rows cols draws) as [[[r k] rest]| |] eqn:E; simpl.
  - apply IH; assumption.
  - exfalso. exact (sample_pair_no_raise _ _ _ _ _ Hr Hc E).
  - discriminate.
Qed.

Lemma shape0_nonneg {A} (g : list (list A)) : 0 <= shape0 g.
Proof. unfold shape0. lia. Qed.

Lemma shape1_nonneg {A} (g : list (list A)) : 0 <= shape1 g.
Proof. unfold shape1. destruct g; lia. Qed.

Lemma init_eq im n pp mm am tau bb al be draws :
  0 <= mm ->
  init im n pp mm am tau bb al be draws
  = do imax <- img_max im;
    do placed <- place_ants (Z.to_nat n) 0 ∅ [] (shape0 im) (shape1 im) draws;
    Ok {| alpha := al; beta := be; img := im; i_max := imax;
          intensities := set_pixel_intensities im imax; ants := placed;
          pheromone := replicate (Z.to_nat (shape0 im))
                         (replicate (Z.to_nat (shape1 im)) (init_cell mm tau));
          m := mm; ant_mem := am; tau_min := tau; p := pp; b := bb;
          memory_index := 0 |}.
Proof.
  intros Hm. unfold init. destruct (img_max im) as [imax| |]; simpl; try reflexivity.
  unfold np_zeros.
  pose proof (shape0_nonneg im). pose proof (shape1_nonneg im).
  destruct (Z.ltb_spec (shape0 im) 0); [lia|].
  destruct (Z.ltb_spec (shape1 im) 0); [lia|].
  destruct (Z.ltb_spec (mm + 1) 0); [lia|]. simpl.
  rewrite (mapM_map _ (map (fun cell => <[Z.to_nat mm := tau]> cell))).
  - simpl. rewrite !fmap_replicate. reflexivity.
  - apply Forall_replicate. apply mapM_map. apply Forall_replicate.
    unfold py_set. rewrite py_norm_last by (rewrite length_replicate; lia).
    rewrite length_replicate. do 3 f_equal. lia.
Qed.

Lemma init_inv im n pp mm am tau bb al be draws c0 :
  0 <= mm ->
  init im n pp mm am tau bb al be draws = Ok c0 ->
  exists imax placed,
    img_max im = Ok imax
    /\ place_ants (Z.to_nat n) 0 ∅ [] (shape0 im) (shape1 im) draws = Ok placed
    /\ c0 = {| alpha := al; beta := be; img := im; i_max := imax;
          intensities := set_pixel_intensities im imax; ants := placed;
          pheromone := replicate (Z.to_nat (shape0 im))
                         (replicate (Z.to_nat (shape1 im)) (init_cell mm tau));
          m := mm; ant_mem := am; tau_min := tau; p := pp; b := bb;
          memory_index := 0 |}.
Proof.
  intros Hm Hi. rewrite init_eq in Hi by exact Hm.
  apply bind_Ok in Hi as (imax & Himax & Hi).
  apply bind_Ok in Hi as (placed & Hpl & Hi).
  injection Hi as <-. eauto.
Qed.

Lemma init_cell_length mm tau : 0 <= mm -> Z.of_nat (length (init_cell mm tau)) = mm + 1.
Proof. intros. unfold init_cell. rewrite length_insert, length_replicate. lia. Qed.

Lemma set_pixel_intensities_rect im imax :
  rect (shape0 im) (shape1 im) (set_pixel_intensities im imax).
Proof.
  pose proof (shape0_nonneg im). pose proof (shape1_nonneg im).
  unfold set_pixel_intensities. split.
  - unfold shape0 at 1. rewrite length_map, length_seqZ. lia.
  - apply Forall_fmap, Forall_forall. intros r _. simpl.
    rewrite length_map, length_seqZ. lia.
Qed.

Lemma init_wf im n pp mm am tau bb al be draws c0 :
  1 <= mm -> init im n pp mm am tau bb al be draws = Ok c0 ->
  wf c0 /\ Forall (placed_ok (shape0 im) (shape1 im)) (ants c0)
  /\ Z.of_nat (length (ants c0)) = Z.max 0 n
  /\ Z.max 0 n <= shape0 im * shape1 im.
Proof.
  intros Hm Hi. apply init_inv in Hi as (imax & placed & Himax & Hpl & ->); [|lia].
  pose proof (shape0_nonneg im). pose proof (shape1_nonneg im).
  apply place_ants_Ok in Hpl as (Hok & Hlen & Hcnt); try assumption;
    [|intros pos Hpos; set_solver|constructor].
  simpl in Hlen. rewrite size_empty in Hcnt.
  split; [|split; [exact Hok|simpl; lia]].
  constructor; simpl.
  - lia.
  - split.
    + unfold shape0 at 1. rewrite length_replicate. lia.
    + apply Forall_replicate. rewrite length_replicate. lia.
  - apply Forall_replicate, Forall_replicate. apply init_cell_length. lia.
  - apply set_pixel_intensities_rect.
  - eapply Forall_impl; [exact Hok|]. intros a [Ha _]. exact Ha.
Qed.

Section Properties.

Variable fpow : npfloat -> npfloat -> npfloat.

Lemma wf_shape1_pheromone c :
  wf c -> pheromone c <> [] -> shape1 (pheromone c) = shape1 (img c).
Proof.
  intros Hwf Hne. destruct (wf_pheromone c Hwf) as [_ Hc].
  destruct (pheromone c) as [|r g]; [congruence|].
  simpl. inversion Hc; subst. assumption.
Qed.

Lemma wf_shape0_pheromone c : wf c -> shape0 (pheromone c) = shape0 (img c).
Proof. intros Hwf. apply (wf_pheromone c Hwf). Qed.

Lemma index_probability_ok c pos :
  wf c -> in_bounds c pos ->
  exists t i, get3 (pheromone c) (fst pos) (snd pos) (-1) = Ok t
    /\ get2 (intensities c) (fst pos) (snd pos) = Ok i
    /\ index_probability fpow c pos = Ok (fmul (fpow t (alpha c)) (fpow i (beta c))).
Proof.
  intros Hwf [Hr Hk]. destruct pos as [r k]; simpl in *.
  destruct (rect_get2 _ _ _ r k (wf_pheromone c Hwf) Hr Hk)
    as (prow & cell & Hl1 & Hl2 & Hg1 & Hg2).
  destruct (rect_get2 _ _ _ r k (wf_intensities c Hwf) Hr Hk)
    as (irow & i & _ & _ & Hi1 & Hi2).
  assert (Hlen : Z.of_nat (length cell) = m c + 1).
  { pose proof (Forall_lookup_1 _ _ _ _ (wf_cells c Hwf) Hl1) as Hrow.
    exact (Forall_lookup_1 _ _ _ _ Hrow Hl2). }
  destruct (py_get_is_Ok cell (-1) (length cell - 1)%nat) as (t & Ht & _).
  { apply py_norm_last. pose proof (wf_index c Hwf). lia. }
  exists t, i. unfold index_probability, get3, get2.
  rewrite Hg1, Hi1; simpl. rewrite Hg2, Hi2; simpl. rewrite Ht; simpl. auto.
Qed.

Local Arguments index_probability : simpl never.

Lemma get_index_probabilities_ok c a dirs :
  wf c ->
  exists nums poss, get_index_probabilities fpow c a dirs = Ok (nums, poss)
    /\ length nums = length poss /\ Forall (in_bounds c) poss.
Proof.
  intros Hwf. induction dirs as [|d dirs IH]; simpl.
  - exists (@nil npfloat), (@nil (Z * Z)). split; [reflexivity|]. split; [reflexivity|constructor].
  - destruct IH as (nums & poss & IH & Hlen & Hin).
    case_match eqn:Hb.
    + exists nums, poss. auto.
    + repeat rewrite orb_false_iff in Hb. destruct Hb as [[[H1 H2] H3] H4].
      apply Z.ltb_ge in H1, H3. apply Z.leb_gt in H2, H4.
      assert (Hne : pheromone c <> []).
      { intros E. rewrite E in H2. unfold shape0 in H2. simpl in H2. lia. }
      rewrite (wf_shape1_pheromone c Hwf Hne) in H4.
      rewrite (wf_shape0_pheromone c Hwf) in H2.
      assert (Hib : in_bounds c (row a + d.1, col a + d.2)).
      { unfold in_bounds; simpl. lia. }
      destruct (index_probability_ok c _ Hwf Hib) as (t & i & _ & _ & Hp).
      rewrite Hp, IH; simpl.
      eexists _, _. split; [reflexivity|]. simpl. split; [lia|].
      constructor; assumption.
Qed.

Lemma set3_ok c r k v :
  wf c -> in_bounds c (r, k) ->
  set3 (pheromone c) r k (memory_index c) v
  = Ok (write_layer (pheromone c) (Z.to_nat r) (Z.to_nat k)
          (Z.to_nat (memory_index c)) v).
Proof.
  intros Hwf [Hr Hk]. simpl in *.
  destruct (rect_get2 _ _ _ r k (wf_pheromone c Hwf) Hr Hk)
    as (prow & cell & Hl1 & Hl2 & Hg1 & Hg2).
  assert (Hlen : Z.of_nat (length cell) = m c + 1).
  { pose proof (Forall_lookup_1 _ _ _ _ (wf_cells c Hwf) Hl1) as Hrow.
    exact (Forall_lookup_1 _ _ _ _ Hrow Hl2). }
  pose proof (wf_index c Hwf) as Hidx.
  unfold set3. rewrite Hg1; simpl. rewrite Hg2; simpl.
  unfold py_set. rewrite (py_norm_nonneg (length cell)) by lia. simpl.
  rewrite (py_norm_nonneg (length prow)) by (apply lookup_lt_Some in Hl2; lia). simpl.
  rewrite (py_norm_nonneg (length (pheromone c))) by (apply lookup_lt_Some in Hl1; lia).
  f_equal. unfold write_layer.
  apply list_eq. intros n. destruct (decide (Z.to_nat r = n)) as [<-|Hn].
  - rewrite list_lookup_insert_eq by (apply lookup_lt_Some in Hl1; exact Hl1).
    rewrite list_lookup_alter_eq, Hl1. simpl. f_equal.
    apply list_eq. intros n'. destruct (decide (Z.to_nat k = n')) as [<-|Hn'].
    + rewrite list_lookup_insert_eq by (apply lookup_lt_Some in Hl2; exact Hl2).
      rewrite list_lookup_alter_eq, Hl2. reflexivity.
    + rewrite list_lookup_insert_ne, list_lookup_alter_ne by exact Hn'. reflexivity.
  - rewrite list_lookup_insert_ne, list_lookup_alter_ne by exact Hn. reflexivity.
Qed.

Lemma relocate_ok c a d :
  0 < shape0 (img c) -> 0 < shape1 (img c) ->
  relocate c a d
  = Ok (set_pos a (draw_row d mod shape0 (img c)) (draw_col d mod shape1 (img c))).
Proof.
  intros H0 H1. unfold relocate, randrange.
  destruct (Z.leb_spec (shape0 (img c)) 0); [lia|]. simpl.
  destruct (Z.leb_spec (shape1 (img c)) 0); [lia|]. reflexivity.
Qed.

Lemma deposit_pheromone_spec c a d :
  wf c -> 0 < shape0 (img c) -> 0 < shape1 (img c) ->
  exists nums poss,
    get_index_probabilities fpow c (update_memory c a) (sample d) = Ok (nums, poss)
    /\ length nums = length poss /\ Forall (in_bounds c) poss
    /\ get_max_probability_pos fpow c (update_memory c a) (sample d)
       = Ok (ant_max (update_memory c a)
               (dict_of_zip (map (fun x => fdiv x (pysum nums)) nums) poss))
    /\ match ant_max (update_memory c a)
               (dict_of_zip (map (fun x => fdiv x (pysum nums)) nums) poss) with
       | None => deposit_pheromone fpow c a d = Ok (c, relocated c a d)
       | Some (r, k) =>
           exists i, get2 (intensities c) r k = Ok i /\ in_bounds c (r, k)
             /\ deposit_pheromone fpow c a d
                = if fgeb i (b c)
                  then Ok (deposited c r k i, set_pos (update_memory c a) r k)
                  else Ok (c, relocated c a d)
       end.
Proof.
  intros Hwf H0 H1.
  destruct (get_index_probabilities_ok c (update_memory c a) (sample d) Hwf)
    as (nums & poss & Hgip & Hlen & Hin).
  exists nums, poss. split; [exact Hgip|]. split; [exact Hlen|]. split; [exact Hin|].
  assert (Hsel : get_max_probability_pos fpow c (update_memory c a) (sample d)
       = Ok (ant_max (update_memory c a)
               (dict_of_zip (map (fun x => fdiv x (pysum nums)) nums) poss))).
  { unfold get_max_probability_pos. rewrite Hgip. reflexivity. }
  split; [exact Hsel|].
  unfold deposit_pheromone. rewrite Hsel. simpl.
  destruct (ant_max _ _) as [[r k]|] eqn:Emax.
  - apply ant_max_Some in Emax as [_ [key Hkey]].
    apply dict_of_zip_elem in Hkey. simpl in Hkey.
    pose proof (proj1 (Forall_forall _ _) Hin _ Hkey) as Hb.
    destruct (index_probability_ok c (r, k) Hwf Hb) as (_ & i & _ & Hi & _).
    simpl in Hi. exists i. split; [exact Hi|]. split; [exact Hb|].
    rewrite Hi. simpl. destruct (fgeb i (b c)).
    + rewrite (set3_ok c r k i Hwf Hb). reflexivity.
    + rewrite relocate_ok by assumption. reflexivity.
  - rewrite relocate_ok by assumption. reflexivity.
Qed.

Lemma in_bounds_relocated c a d :
  0 < shape0 (img c) -> 0 < shape1 (img c) ->
  in_bounds c (row (relocated c a d), col (relocated c a d)).
Proof.
  intros H0 H1. unfold in_bounds, relocated. simpl.
  split; apply Z.mod_pos_bound; assumption.
Qed.

(** What a call on the ant at place [n] does: one of two things. *)
Lemma step_ant_cases c n a d :
  wf c -> ants c !! n = Some a ->
  step_ant fpow c n d = Ok (set_ants c (<[n := relocated c a d]> (ants c)))
  \/ exists r k i,
       in_bounds c (r, k) /\ get2 (intensities c) r k = Ok i
       /\ fgeb i (b c) = true
       /\ step_ant fpow c n d
          = Ok (set_ants (deposited c r k i)
                  (<[n := set_pos (update_memory c a) r k]> (ants c))).
Proof.
  intros Hwf Ha.
  pose proof (Forall_lookup_1 _ _ _ _ (wf_ants c Hwf) Ha) as [Hr Hk]. simpl in Hr, Hk.
  destruct (deposit_pheromone_spec c a d Hwf) as (nums & poss & _ & _ & _ & _ & Hd);
    [lia|lia|].
  unfold step_ant. rewrite Ha.
  destruct (ant_max _ _) as [[r k]|].
  - destruct Hd as (i & Hi & Hb & Hd). rewrite Hd.
    destruct (fgeb i (b c)) eqn:E.
    + right. exists r, k, i. auto.
    + left. reflexivity.
  - rewrite Hd. left. reflexivity.
Qed.

Lemma wf_relocated c n a d :
  wf c -> ants c !! n = Some a ->
  wf (set_ants c (<[n := relocated c a d]> (ants c))).
Proof.
  intros Hwf Ha.
  pose proof (Forall_lookup_1 _ _ _ _ (wf_ants c Hwf) Ha) as [Hr Hk]. simpl in Hr, Hk.
  destruct Hwf as [H1 H2 H3 H4 H5]. constructor; simpl; try assumption.
  apply Forall_insert; [exact H5|]. apply (in_bounds_relocated c a d); lia.
Qed.

Lemma wf_deposited c n a r k i :
  wf c -> in_bounds c (r, k) ->
  wf (set_ants (deposited c r k i)
        (<[n := set_pos (update_memory c a) r k]> (ants c))).
Proof.
  intros [H1 H2 H3 H4 H5] Hb. constructor; simpl; try assumption.
  - apply write_layer_rect. exact H2.
  - apply write_layer_cells. exact H3.
  - apply Forall_insert; [exact H5|]. exact Hb.
Qed.

Lemma step_ant_wf c n d c' : wf c -> step_ant fpow c n d = Ok c' -> wf c'.
Proof.
  intros Hwf Hs. destruct (ants c !! n) as [a|] eqn:Ha.
  - destruct (step_ant_cases c n a d Hwf Ha) as [H|(r & k & i & Hb & _ & _ & H)];
      rewrite H in Hs; injection Hs as <-.
    + apply wf_relocated; assumption.
    + apply wf_deposited; assumption.
  - unfold step_ant in Hs. rewrite Ha in Hs. discriminate.
Qed.

(** Consolidation *)

Lemma last_lookup_Z {A} (cell : list A) (n : nat) (d : A) :
  length cell = Datatypes.S n -> cell !! n = Some (List.last cell d).
Proof.
  intros Hlen. rewrite <- (firstn_skipn n cell) at 2.
  assert (Hs : length (drop n cell) = 1%nat) by (rewrite length_drop; lia).
  destruct (drop n cell) as [|x [|? ?]] eqn:E; try discriminate.
  rewrite last_last. rewrite <- (Nat.add_0_r n), <- lookup_drop, E. reflexivity.
Qed.

Lemma adjust_cell_ok c idx cell :
  Z.of_nat (length cell) = m c + 1 -> 0 <= idx < m c ->
  adjust_cell c idx cell = Ok (consolidate_cell c idx cell).
Proof.
  intros Hlen Hidx. unfold adjust_cell, consolidate_cell, new_total.
  assert (Hl : length cell = Datatypes.S (Z.to_nat (m c))) by lia.
  unfold py_get. rewrite py_norm_last by lia.
  replace (length cell - 1)%nat with (Z.to_nat (m c)) by lia.
  rewrite (last_lookup_Z cell _ f0 Hl). simpl.
  unfold py_set. rewrite py_norm_last by lia.
  replace (length cell - 1)%nat with (Z.to_nat (m c)) by lia. simpl.
  rewrite length_insert. rewrite py_norm_nonneg by lia. reflexivity.
Qed.

Lemma next_index_range c :
  0 <= memory_index c < m c ->
  0 <= next_index c < m c /\ next_index c = (memory_index c + 1) mod m c.
Proof.
  intros H. unfold next_index. destruct (Z.leb_spec (m c - 1) (memory_index c)).
  - assert (memory_index c + 1 = m c) as -> by lia. rewrite Z.mod_same by lia. lia.
  - rewrite Z.mod_small by lia. lia.
Qed.

Lemma adjust_pheromone_ok c :
  wf c ->
  adjust_pheromone c
  = Ok (set_pheromone (set_memory_index c (next_index c))
          (map (map (consolidate_cell c (next_index c))) (pheromone c))).
Proof.
  intros Hwf. unfold adjust_pheromone. fold (next_index c).
  destruct (next_index_range c (wf_index c Hwf)) as [Hn _].
  rewrite (mapM_map _ (map (consolidate_cell c (next_index c)))); [reflexivity|].
  eapply Forall_impl; [apply (wf_cells c Hwf)|]. intros r Hr. simpl in Hr.
  apply mapM_map. eapply Forall_impl; [exact Hr|]. intros cell Hc. simpl in Hc.
  apply adjust_cell_ok; assumption.
Qed.

Lemma consolidate_cell_length c idx cell :
  length (consolidate_cell c idx cell) = length cell.
Proof. unfold consolidate_cell. rewrite !length_insert. reflexivity. Qed.

Lemma adjust_pheromone_wf c c' : wf c -> adjust_pheromone c = Ok c' -> wf c'.
Proof.
  intros Hwf Ha. rewrite (adjust_pheromone_ok c Hwf) in Ha. injection Ha as <-.
  destruct (next_index_range c (wf_index c Hwf)) as [Hn _].
  destruct Hwf as [H1 [H2a H2b] H3 H4 H5]. constructor; simpl; try assumption.
  - split.
    + unfold shape0 in *. rewrite length_map. exact H2a.
    + apply Forall_fmap. eapply Forall_impl; [exact H2b|].
      intros r Hr. simpl. rewrite length_map. exact Hr.
  - apply Forall_fmap. eapply Forall_impl; [exact H3|]. intros r Hr. simpl.
    apply Forall_fmap. eapply Forall_impl; [exact Hr|]. intros cell Hc. simpl.
    rewrite consolidate_cell_length. exact Hc.
Qed.

(** ** The floor of the total layer *)

Lemma pysum_fin (xs : list npfloat) acc :
  Forall is_fin xs -> is_fin (fold_left fadd xs (Fin acc)).
Proof.
  intros H. revert acc. induction H as [|x xs [v ->] _ IH]; intros acc; simpl.
  - exists acc. reflexivity.
  - apply IH.
Qed.

Lemma new_total_sound c t cell :
  is_fin (p c) -> is_fin (tau_min c) -> is_fin t -> Forall is_fin cell ->
  is_fin (new_total c t cell) /\ fleb (tau_min c) (new_total c t cell) = true.
Proof.
  intros [pv Hp] [tv Ht] [v ->] Hc. unfold new_total. rewrite Hp, Ht.
  destruct (pysum_fin (take (Z.to_nat (m c)) cell) 0) as [sv Hs].
  { apply Forall_take. exact Hc. }
  unfold pysum, f0. rewrite Hs. simpl.
  destruct (pymax_fin ((1 + - pv) * v + sv) tv) as (y & Hy & Hle).
  rewrite Hy. split; [exists y; reflexivity|]. apply fleb_fin. exact Hle.
Qed.

Lemma consolidate_cell_sound c idx cell :
  is_fin (p c) -> is_fin (tau_min c) ->
  Z.of_nat (length cell) = m c + 1 -> 0 <= idx < m c ->
  Forall is_fin cell ->
  Forall is_fin (consolidate_cell c idx cell)
  /\ consolidate_cell c idx cell !! Z.to_nat (m c)
     = Some (new_total c (List.last cell f0) cell)
  /\ fleb (tau_min c) (new_total c (List.last cell f0) cell) = true.
Proof.
  intros Hp Ht Hlen Hidx Hc.
  assert (Hl : length cell = Datatypes.S (Z.to_nat (m c))) by lia.
  assert (Hlast : is_fin (List.last cell f0)).
  { exact (Forall_lookup_1 _ _ _ _ Hc (last_lookup_Z cell _ f0 Hl)). }
  destruct (new_total_sound c _ cell Hp Ht Hlast Hc) as [Hn1 Hn2].
  unfold consolidate_cell. split; [|split; [|exact Hn2]].
  - apply Forall_insert; [apply Forall_insert; assumption|exists 0%Q; reflexivity].
  - rewrite list_lookup_insert_ne by lia.
    apply list_lookup_insert_eq. lia.
Qed.

Lemma fgeb_not_nan i x : fgeb i x = true -> i <> NaN.
Proof. intros H ->. destruct x; discriminate. Qed.

Lemma get2_elem {A} (g : list (list A)) i j x :
  get2 g i j = Ok x -> exists r, r ∈ g /\ x ∈ r.
Proof.
  unfold get2. intros (r & Hr & Hx)%bind_Ok.
  apply py_get_Ok in Hr as (n & _ & Hr). apply py_get_Ok in Hx as (n' & _ & Hx).
  exists r. split; eapply list_elem_of_lookup_2; eassumption.
Qed.

Lemma sound_step c n d c' : sound c -> step_ant fpow c n d = Ok c' -> sound c'.
Proof.
  intros [Hwf Hp Ht Hi Hc] Hs.
  pose proof (step_ant_wf c n d c' Hwf Hs) as Hwf'.
  destruct (ants c !! n) as [a|] eqn:Ha;
    [|unfold step_ant in Hs; rewrite Ha in Hs; discriminate].
  destruct (step_ant_cases c n a d Hwf Ha) as [H|(r & k & i & Hb & Hg & Hge & H)];
    rewrite H in Hs; injection Hs as <-; constructor; try assumption.
  simpl. unfold write_layer.
  apply Forall_alter; [exact Hc|]. intros prow _ Hrow.
  apply Forall_alter; [exact Hrow|]. intros cell _ [Hfin Htot].
  pose proof (wf_index c Hwf) as Hidx.
  split.
  - apply Forall_insert; [exact Hfin|].
    apply get2_elem in Hg as (irow & Hir & Hii).
    rewrite Forall_forall in Hi. specialize (Hi _ Hir). rewrite Forall_forall in Hi.
    destruct (Hi _ Hii) as [->|Hf]; [|exact Hf]. apply fgeb_not_nan in Hge. congruence.
  - intros t. simpl. rewrite list_lookup_insert_ne by lia. apply Htot.
Qed.

Lemma sound_adjust c c' : sound c -> adjust_pheromone c = Ok c' -> sound c'.
Proof.
  intros [Hwf Hp Ht Hi Hc] Ha.
  pose proof (adjust_pheromone_wf c c' Hwf Ha) as Hwf'.
  rewrite (adjust_pheromone_ok c Hwf) in Ha. injection Ha as <-.
  destruct (next_index_range c (wf_index c Hwf)) as [Hn _].
  constructor; try assumption. simpl.
  apply Forall_fmap. rewrite Forall_forall. intros prow Hprow. simpl.
  apply Forall_fmap. rewrite Forall_forall. intros cell Hcell. simpl.
  pose proof (proj1 (Forall_forall _ _) (proj1 (Forall_forall _ _) Hc _ Hprow) _ Hcell)
    as [Hfin _].
  pose proof (proj1 (Forall_forall _ _)
                (proj1 (Forall_forall _ _) (wf_cells c Hwf) _ Hprow) _ Hcell) as Hlen.
  simpl in Hlen.
  destruct (consolidate_cell_sound c (next_index c) cell Hp Ht Hlen Hn Hfin)
    as (H1 & H2 & H3).
  split; [exact H1|]. simpl. intros t Hl. rewrite H2 in Hl. injection Hl as <-. exact H3.
Qed.

Lemma sound_reachable c0 c : sound c0 -> reachable fpow c0 c -> sound c.
Proof.
  intros H0 Hr. induction Hr as [|c n d c' _ IH Hs|c c' _ IH Ha]; [exact H0| |].
  - exact (sound_step c n d c' IH Hs).
  - exact (sound_adjust c c' IH Ha).
Qed.

Lemma sound_init im n pp mm am tau bb al be draws c0 :
  nonneg_img im -> is_fin pp -> is_fin tau -> 1 <= mm ->
  init im n pp mm am tau bb al be draws = Ok c0 -> sound c0.
Proof.
  intros Hnn Hp Ht Hm Hi.
  destruct (init_wf _ _ _ _ _ _ _ _ _ _ _ Hm Hi) as (Hwf & _).
  apply init_inv in Hi as (imax & placed & Himax & _ & ->); [|lia].
  destruct (img_max_bounds im imax Hnn Himax) as [H0 Hall].
  constructor; simpl; try assumption.
  - unfold set_pixel_intensities.
    apply Forall_fmap, Forall_forall. intros r _. simpl.
    apply Forall_fmap, Forall_forall. intros k _. simpl.
    pose proof (max_gradient_bounds im imax r k H0 Hall) as Hg.
    destruct (Z.eq_dec imax 0) as [->|Hne].
    + left. apply pixel_intensity_zero. lia.
    + right. destruct (pixel_intensity_pos im imax r k) as (x & Hx & _); [lia|exact Hg|].
      exists x. exact Hx.
  - apply Forall_replicate, Forall_replicate. unfold cell_sound, init_cell. simpl. split.
    + apply Forall_insert; [|exact Ht]. apply Forall_replicate. exists 0%Q. reflexivity.
    + intros t. rewrite list_lookup_insert_eq by (rewrite length_replicate; lia).
      intros [= <-]. destruct Ht as [tv ->]. apply fleb_fin. apply Qle_refl.
Qed.

(** ** A colony without ants *)

Lemma py_get_map {A B} (f : A -> B) (l : list A) i x :
  py_get l i = Ok x -> py_get (map f l) i = Ok (f x).
Proof.
  intros (n & Hn & Hx)%py_get_Ok. apply py_get_Ok. exists n.
  rewrite length_map. split; [exact Hn|]. rewrite list_lookup_fmap, Hx. reflexivity.
Qed.

Lemma pysum_zero (xs : list npfloat) : Forall (fun x => x = f0) xs -> pysum xs = f0.
Proof.
  unfold pysum. induction 1 as [|x xs -> _ IH]; simpl; [reflexivity|exact IH].
Qed.

Lemma new_total_clear c t cell :
  Forall (fun x => x = f0) (take (Z.to_nat (m c)) cell) ->
  new_total c t cell = pymax (fmul (fsub f1 (p c)) t) (tau_min c).
Proof.
  intros H. unfold new_total. rewrite (pysum_zero _ H), fadd_f0_r. reflexivity.
Qed.

Lemma consolidate_cell_clear c idx cell :
  0 <= idx < m c ->
  Forall (fun x => x = f0) (take (Z.to_nat (m c)) cell) ->
  Forall (fun x => x = f0) (take (Z.to_nat (m c)) (consolidate_cell c idx cell)).
Proof.
  intros Hidx H. unfold consolidate_cell.
  rewrite take_insert_lt by lia. apply Forall_insert; [|reflexivity].
  rewrite take_insert_ge by lia. exact H.
Qed.

Lemma py_get_last_total c idx cell :
  Z.of_nat (length cell) = m c + 1 -> 0 <= idx < m c ->
  py_get cell (-1) = Ok (List.last cell f0)
  /\ py_get (consolidate_cell c idx cell) (-1)
     = Ok (new_total c (List.last cell f0) cell).
Proof.
  intros Hlen Hidx.
  assert (Hl : length cell = Datatypes.S (Z.to_nat (m c))) by lia.
  split; apply py_get_Ok; exists (Z.to_nat (m c)).
  - split; [rewrite py_norm_last by lia; f_equal; lia|].
    apply last_lookup_Z. exact Hl.
  - rewrite consolidate_cell_length. split; [rewrite py_norm_last by lia; f_equal; lia|].
    unfold consolidate_cell. rewrite list_lookup_insert_ne by lia.
    apply list_lookup_insert_eq. lia.
Qed.

Lemma get2_cell_length c i j cell :
  wf c -> get2 (pheromone c) i j = Ok cell -> Z.of_nat (length cell) = m c + 1.
Proof.
  intros Hwf (r & Hr & Hc)%get2_elem.
  exact (proj1 (Forall_forall _ _) (proj1 (Forall_forall _ _) (wf_cells c Hwf) _ Hr) _ Hc).
Qed.

Lemma get2_map_map {A B} (f : A -> B) (g : list (list A)) i j x :
  get2 g i j = Ok x -> get2 (map (map f) g) i j = Ok (f x).
Proof.
  unfold get2. intros (r & Hr & Hx)%bind_Ok.
  rewrite (py_get_map (map f) g i r Hr). simpl. apply py_get_map. exact Hx.
Qed.

Lemma get3_get2 {A} (g : list (list (list A))) i j k x :
  get3 g i j k = Ok x <-> exists cell, get2 g i j = Ok cell /\ py_get cell k = Ok x.
Proof.
  unfold get3, get2. destruct (py_get g i) as [r| |]; simpl;
    [|split; [discriminate|intros (? & ? & ?); discriminate]..].
  destruct (py_get r j) as [cell| |]; simpl;
    [|split; [discriminate|intros (? & ? & ?); discriminate]..].
  split; [eauto|]. intros (cell' & [= <-] & H). exact H.
Qed.


(** ** The claims about the fields *)

(** C10: the intensity computation presupposes a positive maximum sample.
    On a grid of non-negative samples whose maximum [i_max] is positive, every
    computed intensity is a number of [[0,1]]; on an all-zero grid
    ([i_max = 0]) the factor [1 / i_max] is a division by zero, it yields an
    infinity, and every computed intensity is NaN: a value outside [[0,1]].
    The statement covers a single pixel and every entry of the array that
    [set_pixel_intensities] builds. *)
Theorem intensity_needs_positive_maximum im imax :
  nonneg_img im -> img_max im = Ok imax ->
  (0 < imax ->
     (forall r k, exists x,
        pixel_intensity im imax r k = Fin x /\ (0 <= x <= 1)%Q)
     /\ (forall i j v, get2 (set_pixel_intensities im imax) i j = Ok v ->
           exists x, v = Fin x /\ (0 <= x <= 1)%Q))
  /\ (imax = 0 ->
        fdiv f1 (of_Z imax) = PInf
        /\ (forall r k, pixel_intensity im imax r k = NaN)
        /\ (forall i j v, get2 (set_pixel_intensities im imax) i j = Ok v ->
              v = NaN)).
Proof.
  intros Hnn Hmax. destruct (img_max_bounds im imax Hnn Hmax) as [H0 Hall].
  assert (Hentry : forall i j v, get2 (set_pixel_intensities im imax) i j = Ok v ->
            exists r k, v = pixel_intensity im imax r k).
  { intros i j v (row_ & Hr & Hv)%get2_elem. unfold set_pixel_intensities in Hr.
    apply list_elem_of_fmap in Hr as (r & -> & _).
    apply list_elem_of_fmap in Hv as (k & -> & _). eauto. }
  split.
  - intros Hpos.
    assert (Hpix : forall r k, exists x,
              pixel_intensity im imax r k = Fin x /\ (0 <= x <= 1)%Q).
    { intros r k. apply pixel_intensity_pos; [exact Hpos|].
      apply max_gradient_bounds; assumption. }
    split; [exact Hpix|]. intros i j v Hv.
    destruct (Hentry i j v Hv) as (r & k & ->). apply Hpix.
  - intros ->.
    assert (Hpix : forall r k, pixel_intensity im 0 r k = NaN).
    { intros r k. apply pixel_intensity_zero.
      pose proof (max_gradient_bounds im 0 r k H0 Hall). lia. }
    split; [reflexivity|]. split; [exact Hpix|]. intros i j v Hv.
    destruct (Hentry i j v Hv) as (r & k & ->). apply Hpix.
Qed.

(** C2: in every colony state reachable from construction by calls of
    [deposit_pheromone] and consolidations, the total layer (layer [m]) of
    every cell is at least [tau_min].  The configuration is the documented
    one: non-negative samples, numbers for [p] and [tau_min], and a memory
    depth of at least one. *)
Theorem total_layer_floor im n pp mm am tau bb al be draws c0 c i j t :
  nonneg_img im -> is_fin pp -> is_fin tau -> 1 <= mm ->
  init im n pp mm am tau bb al be draws = Ok c0 ->
  reachable fpow c0 c ->
  get3 (pheromone c) i j (m c) = Ok t ->
  tau_min c = tau /\ is_fin t /\ fleb tau t = true.
Proof.
  intros Hnn Hp Ht Hm Hi Hr Hg.
  assert (Htau : tau_min c = tau /\ m c = mm).
  { assert (H0 : tau_min c0 = tau /\ m c0 = mm).
    { apply init_inv in Hi as (imax & placed & _ & _ & ->); [|lia]. auto. }
    clear Hi Hg. induction Hr as [|c k d c' _ IH Hs|c c' _ IH Ha]; [exact H0| |].
    - unfold step_ant in Hs. destruct (ants c !! k); [|discriminate].
      apply bind_Ok in Hs as ([c1 a1] & Hd & [= <-]). simpl.
      unfold deposit_pheromone in Hd. apply bind_Ok in Hd as (pos & _ & Hd).
      destruct pos as [[r k']|].
      + apply bind_Ok in Hd as (v & _ & Hd). destruct (fgeb v (b c)).
        * apply bind_Ok in Hd as (ph & _ & [= <- _]). exact IH.
        * apply bind_Ok in Hd as (a2 & _ & [= <- _]). exact IH.
      + apply bind_Ok in Hd as (a2 & _ & [= <- _]). exact IH.
    - unfold adjust_pheromone in Ha. apply bind_Ok in Ha as (ph & _ & [= <-]). exact IH. }
  destruct Htau as [Htau Hmm].
  pose proof (sound_reachable c0 c
                (sound_init _ _ _ _ _ _ _ _ _ _ _ Hnn Hp Ht Hm Hi) Hr) as Hs.
  apply get3_get2 in Hg as (cell & Hc & Hl).
  pose proof (get2_cell_length c i j cell (sound_wf c Hs) Hc) as Hlen.
  apply get2_elem in Hc as (prow & Hprow & Hcell).
  pose proof (proj1 (Forall_forall _ _)
                (proj1 (Forall_forall _ _) (sound_cells c Hs) _ Hprow) _ Hcell)
    as [Hfin Htot].
  apply py_get_Ok in Hl as (k & Hk & Hl).
  rewrite py_norm_nonneg in Hk by lia. injection Hk as <-.
  split; [exact Htau|]. split.
  - exact (Forall_lookup_1 _ _ _ _ Hfin Hl).
  - rewrite <- Htau. apply Htot. exact Hl.
Qed.

(** ** The claims about a step *)

Lemma same_setup_refl c : same_setup c c.
Proof. repeat split. Qed.

(** What a call changes, without any assumption on the colony. *)
Lemma step_ant_frame c n d c' :
  step_ant fpow c n d = Ok c' ->
  same_setup c c'
  /\ exists a a', ants c !! n = Some a /\ ants c' = <[n := a']> (ants c)
       /\ pos_memory a' = pos_memory (update_memory c a)
       /\ special a' = special a.
Proof.
  unfold step_ant. destruct (ants c !! n) as [a|]; [|discriminate].
  intros ([c1 a1] & Hd & [= <-])%bind_Ok. simpl.
  assert (H : same_setup c c1 /\ ants c1 = ants c
              /\ pos_memory a1 = pos_memory (update_memory c a)
              /\ special a1 = special a).
  { unfold deposit_pheromone in Hd. apply bind_Ok in Hd as (pos & _ & Hd).
    assert (Hrel : forall a2, relocate c (update_memory c a) d = Ok a2 ->
              pos_memory a2 = pos_memory (update_memory c a)
              /\ special a2 = special a).
    { unfold relocate. intros a2 (r & _ & (k & _ & [= <-])%bind_Ok)%bind_Ok. auto. }
    destruct pos as [[r k]|].
    - apply bind_Ok in Hd as (v & _ & Hd). destruct (fgeb v (b c)).
      + apply bind_Ok in Hd as (ph & _ & [= <- <-]). repeat split.
      + apply bind_Ok in Hd as (a2 & Ha2 & [= <- <-]).
        destruct (Hrel _ Ha2). repeat split; assumption.
    - apply bind_Ok in Hd as (a2 & Ha2 & [= <- <-]).
      destruct (Hrel _ Ha2). repeat split; assumption. }
  destruct H as (Hs & Hants & Hmem & Hsp).
  split; [exact Hs|]. exists a, a1. rewrite Hants. auto.
Qed.

Lemma adjust_pheromone_frame c c' :
  adjust_pheromone c = Ok c' ->
  ants c' = ants c /\ ant_mem c' = ant_mem c /\ m c' = m c
  /\ tau_min c' = tau_min c /\ p c' = p c.
Proof.
  unfold adjust_pheromone. intros (ph & _ & [= <-])%bind_Ok. repeat split.
Qed.

(** C9: a call of [deposit_pheromone] on ant [n] changes the position and
    the memory of that ant and at most one cell of one memory layer of the
    pheromone array, the layer of the current index.  The image, the
    intensities, every constant, every other ant, the cosmetic flag of the
    ant, the total layer and every other place of the pheromone array are
    as before. *)
Theorem step_frame c n d c' :
  wf c -> step_ant fpow c n d = Ok c' ->
  same_setup c c'
  /\ (exists a a', ants c !! n = Some a /\ ants c' = <[n := a']> (ants c)
        /\ special a' = special a)
  /\ (forall k, k <> n -> ants c' !! k = ants c !! k)
  /\ (forall i j, layer_at (pheromone c') i j (Z.to_nat (m c))
                  = layer_at (pheromone c) i j (Z.to_nat (m c)))
  /\ (pheromone c' = pheromone c
      \/ exists r k v,
           memory_index c < m c
           /\ pheromone c' = write_layer (pheromone c) r k
                               (Z.to_nat (memory_index c)) v
           /\ forall i j l, (i, j, l) <> (r, k, Z.to_nat (memory_index c)) ->
                layer_at (pheromone c') i j l = layer_at (pheromone c) i j l).
Proof.
  intros Hwf Hs.
  destruct (step_ant_frame c n d c' Hs) as (Hsame & a & a' & Ha & Hants & _ & Hsp).
  pose proof (wf_index c Hwf) as Hidx.
  split; [exact Hsame|]. split; [eauto|]. split.
  { intros k Hk. rewrite Hants. apply list_lookup_insert_ne. congruence. }
  destruct (step_ant_cases c n a d Hwf Ha) as [H|(r & k & i & Hb & _ & _ & H)];
    rewrite H in Hs; injection Hs as <-; simpl.
  - split; [reflexivity|]. left. reflexivity.
  - split.
    + intros i' j'. apply layer_at_write_other. intros [= _ _ E]. lia.
    + right. exists (Z.to_nat r), (Z.to_nat k), i. split; [lia|]. split; [reflexivity|].
      intros i' j' l Hne. apply layer_at_write_other. exact Hne.
Qed.

(** C6: when the selection returns a candidate [(r, k)], the call compares
    the intensity of that cell with the threshold [b].  If it is at least [b]
    the ant moves to [(r, k)] and the memory layer of the current index takes
    the intensity at that cell, whatever it held.  If it is below [b] the ant
    goes to the coordinate that the two calls of [randrange] return, inside
    the grid, and the pheromone array is as before. *)
Theorem step_on_selected c n a d r k :
  wf c -> ants c !! n = Some a ->
  get_max_probability_pos fpow c (update_memory c a) (sample d) = Ok (Some (r, k)) ->
  exists i,
    get2 (intensities c) r k = Ok i
    /\ (fgeb i (b c) = true ->
          step_ant fpow c n d
          = Ok (set_ants (deposited c r k i)
                  (<[n := set_pos (update_memory c a) r k]> (ants c)))
          /\ get3 (pheromone (deposited c r k i)) r k (memory_index c) = Ok i)
    /\ (fltb i (b c) = true ->
          step_ant fpow c n d
          = Ok (set_ants c (<[n := relocated c a d]> (ants c)))
          /\ in_bounds c (row (relocated c a d), col (relocated c a d))).
Proof.
  intros Hwf Ha Hsel.
  pose proof (Forall_lookup_1 _ _ _ _ (wf_ants c Hwf) Ha) as [Hr Hk]. simpl in Hr, Hk.
  destruct (deposit_pheromone_spec c a d Hwf) as (nums & poss & _ & _ & _ & Hsel' & Hd);
    [lia|lia|].
  rewrite Hsel in Hsel'. injection Hsel' as Hsel'. rewrite <- Hsel' in Hd.
  destruct Hd as (i & Hi & Hb & Hd). exists i. split; [exact Hi|].
  unfold step_ant. rewrite Ha, Hd. split.
  - intros Hge. rewrite Hge. split; [reflexivity|].
    destruct Hb as [Hbr Hbk]. simpl in Hbr, Hbk.
    destruct (rect_get2 _ _ _ r k (wf_pheromone c Hwf) Hbr Hbk)
      as (prow & cell & Hl1 & Hl2 & _ & _).
    pose proof (Forall_lookup_1 _ _ _ _
                  (Forall_lookup_1 _ _ _ _ (wf_cells c Hwf) Hl1) Hl2) as Hlen.
    simpl in Hlen. pose proof (wf_index c Hwf) as Hidx.
    assert (Hat : layer_at (pheromone (deposited c r k i)) (Z.to_nat r) (Z.to_nat k)
                    (Z.to_nat (memory_index c)) = Some i).
    { simpl. eapply layer_at_write_same; [exact Hl1|exact Hl2|lia]. }
    apply get3_layer_at in Hat. rewrite !Z2Nat.id in Hat by lia. exact Hat.
  - intros Hlt. rewrite (fltb_not_fgeb _ _ Hlt). split; [reflexivity|].
    apply in_bounds_relocated; lia.
Qed.

(** C3, as the code has it: a candidate weight sum of zero does not stop
    the call: the quotients are NaN and nothing is raised.  The call does
    not take it for the absence of a candidate either: the selection
    returns the first neighbour inside the grid, in the order of the
    enumeration, that is not in the memory.  The ant relocates without a
    deposit when there is no such neighbour or when the intensity of the one
    selected is not at least [b]; otherwise it moves there and deposits. *)
Theorem step_on_zero_weights c n a d :
  wf c -> ants c !! n = Some a ->
  exists nums poss,
    get_index_probabilities fpow c (update_memory c a) (sample d) = Ok (nums, poss)
    /\ (zero_sum nums ->
          get_max_probability_pos fpow c (update_memory c a) (sample d)
          = Ok (first_free (update_memory c a) poss)
          /\ match first_free (update_memory c a) poss with
             | None =>
                 step_ant fpow c n d
                 = Ok (set_ants c (<[n := relocated c a d]> (ants c)))
             | Some (r, k) =>
                 exists i, get2 (intensities c) r k = Ok i
                   /\ step_ant fpow c n d
                      = if fgeb i (b c)
                        then Ok (set_ants (deposited c r k i)
                                   (<[n := set_pos (update_memory c a) r k]> (ants c)))
                        else Ok (set_ants c (<[n := relocated c a d]> (ants c)))
             end).
Proof.
  intros Hwf Ha.
  pose proof (Forall_lookup_1 _ _ _ _ (wf_ants c Hwf) Ha) as [Hr Hk]. simpl in Hr, Hk.
  destruct (deposit_pheromone_spec c a d Hwf)
    as (nums & poss & Hgip & Hlen & _ & Hsel & Hd); [lia|lia|].
  exists nums, poss. split; [exact Hgip|]. intros Hz.
  assert (Hmax : ant_max (update_memory c a)
                   (dict_of_zip (map (fun x => fdiv x (pysum nums)) nums) poss)
                 = first_free (update_memory c a) poss).
  { apply ant_max_nan; [apply zero_sum_probabilities; exact Hz|].
    rewrite length_map. exact Hlen. }
  rewrite Hmax in Hsel, Hd. split; [exact Hsel|].
  unfold step_ant. rewrite Ha.
  destruct (first_free (update_memory c a) poss) as [[r k]|].
  - destruct Hd as (i & Hi & _ & Hd). exists i. split; [exact Hi|].
    rewrite Hd. destruct (fgeb i (b c)); reflexivity.
  - rewrite Hd. reflexivity.
Qed.

(** ** The claims about consolidation *)

(** The memory layers of a cell after a consolidation: the layer of the
    index handed over is zero, every other memory layer is as it was. *)
Lemma consolidate_cell_layer c idx cell k :
  Z.of_nat (length cell) = m c + 1 -> 0 <= idx < m c -> 0 <= k < m c ->
  py_get (consolidate_cell c idx cell) k
  = if decide (k = idx) then Ok f0 else py_get cell k.
Proof.
  intros Hlen Hidx Hk. unfold py_get. rewrite consolidate_cell_length.
  rewrite py_norm_nonneg by lia. unfold consolidate_cell.
  destruct (decide (k = idx)) as [->|Hne].
  - rewrite list_lookup_insert_eq by (rewrite length_insert; lia). reflexivity.
  - rewrite list_lookup_insert_ne by lia. rewrite list_lookup_insert_ne by lia.
    reflexivity.
Qed.

(** C1, as the code has it: [adjust_pheromone] first advances the rotating
    index to [(idx + 1) mod m]; then, for every cell, it sets the total layer
    to [max((1 - p) * oldTotal + sum of the m memory layers, tau_min)] and
    zeroes the memory layer of the new index.  Every other memory layer is
    left as it was.  So for [m >= 2] the layer of the index the ants wrote
    to is not the one zeroed: it keeps its deposits.  For [m = 1] the new
    index is the old one, and the layer the ants wrote to is zeroed.  The
    call touches nothing else, and a pass of [iterate] calls it once, after
    the calls on all ants. *)
Theorem consolidation_spec c :
  wf c ->
  exists c',
    adjust_pheromone c = Ok c'
    /\ memory_index c' = (memory_index c + 1) mod m c
    /\ c' = set_pheromone (set_memory_index c (memory_index c')) (pheromone c')
    /\ (forall i j cell t,
          get2 (pheromone c) i j = Ok cell -> py_get cell (m c) = Ok t ->
          get2 (pheromone c') i j
          = Ok (<[Z.to_nat (memory_index c') := f0]>
                  (<[Z.to_nat (m c) :=
                       pymax (fadd (fmul (fsub f1 (p c)) t)
                                   (pysum (take (Z.to_nat (m c)) cell)))
                             (tau_min c)]> cell)))
    /\ (forall rnd,
          iteration fpow c rnd
          = do c1 <- step_ants fpow (length (ants c)) 0 c rnd; adjust_pheromone c1)
    /\ (forall i j cell,
          get2 (pheromone c) i j = Ok cell ->
          get3 (pheromone c') i j (memory_index c') = Ok f0)
    /\ (forall i j k x,
          0 <= k < m c -> k <> memory_index c' ->
          get3 (pheromone c) i j k = Ok x -> get3 (pheromone c') i j k = Ok x)
    /\ (2 <= m c ->
        memory_index c' <> memory_index c
        /\ forall i j x,
             get3 (pheromone c) i j (memory_index c) = Ok x ->
             get3 (pheromone c') i j (memory_index c) = Ok x)
    /\ (m c = 1 ->
        memory_index c' = memory_index c
        /\ forall i j cell,
             get2 (pheromone c) i j = Ok cell ->
             get3 (pheromone c') i j (memory_index c) = Ok f0).
Proof.
  intros Hwf. eexists. split; [apply adjust_pheromone_ok; exact Hwf|]. simpl.
  pose proof (wf_index c Hwf) as Hidx.
  destruct (next_index_range c Hidx) as [Hn Hmod].
  assert (Hzero : forall i j cell,
            get2 (pheromone c) i j = Ok cell ->
            get3 (map (map (consolidate_cell c (next_index c))) (pheromone c))
                 i j (next_index c) = Ok f0).
  { intros i j cell Hc. apply get3_get2. eexists.
    split; [apply get2_map_map; exact Hc|].
    rewrite consolidate_cell_layer;
      [|exact (get2_cell_length c i j cell Hwf Hc)|exact Hn|exact Hn].
    destruct (decide (next_index c = next_index c)); [reflexivity|contradiction]. }
  assert (Hkeep : forall i j k x,
            0 <= k < m c -> k <> next_index c ->
            get3 (pheromone c) i j k = Ok x ->
            get3 (map (map (consolidate_cell c (next_index c))) (pheromone c))
                 i j k = Ok x).
  { intros i j k x Hk Hne (cell & Hc & Hx)%get3_get2. apply get3_get2. eexists.
    split; [apply get2_map_map; exact Hc|].
    rewrite consolidate_cell_layer;
      [|exact (get2_cell_length c i j cell Hwf Hc)|exact Hn|exact Hk].
    destruct (decide (k = next_index c)); [contradiction|exact Hx]. }
  split; [exact Hmod|]. split; [reflexivity|]. split; [|split; [reflexivity|]].
  - intros i j cell t Hc Ht.
    pose proof (get2_cell_length c i j cell Hwf Hc) as Hlen.
    rewrite (get2_map_map (consolidate_cell c (next_index c)) _ i j cell Hc).
    apply py_get_Ok in Ht as (k & Hk & Ht).
    rewrite py_norm_nonneg in Hk by lia. injection Hk as <-.
    rewrite (last_lookup_Z cell (Z.to_nat (m c)) f0) in Ht by lia.
    injection Ht as Ht. unfold consolidate_cell, new_total. rewrite Ht. reflexivity.
  - split; [exact Hzero|]. split; [exact Hkeep|]. split.
    + intros Hm2.
      assert (Hne : next_index c <> memory_index c).
      { unfold next_index. destruct (Z.leb_spec (m c - 1) (memory_index c)); lia. }
      split; [exact Hne|]. intros i j x Hx.
      apply Hkeep; [exact Hidx|congruence|exact Hx].
    + intros Hm1.
      assert (He : next_index c = memory_index c).
      { unfold next_index. destruct (Z.leb_spec (m c - 1) (memory_index c)); lia. }
      split; [exact He|]. intros i j cell Hc. rewrite <- He. exact (Hzero i j cell Hc).
Qed.

Lemma iterate_from_S t i0 c rnd :
  iterate_from fpow i0 (Datatypes.S t) c rnd
  = do c' <- iteration fpow c (rnd i0); iterate_from fpow (Datatypes.S i0) t c' rnd.
Proof. reflexivity. Qed.

Lemma iterate_from_snoc t : forall i0 c rnd,
  iterate_from fpow i0 (Datatypes.S t) c rnd
  = do c' <- iterate_from fpow i0 t c rnd; iteration fpow c' (rnd (i0 + t)%nat).
Proof.
  induction t as [|t IH]; intros i0 c rnd.
  - rewrite iterate_from_S. cbn [iterate_from bind]. rewrite Nat.add_0_r.
    destruct (iteration fpow c (rnd i0)); reflexivity.
  - rewrite (iterate_from_S (Datatypes.S t)), (iterate_from_S t).
    destruct (iteration fpow c (rnd i0)) as [c1| |]; cbn [bind]; try reflexivity.
    rewrite IH. replace (Datatypes.S i0 + t)%nat with (i0 + Datatypes.S t)%nat by lia.
    reflexivity.
Qed.

(** A pass over a colony without ants. *)
Lemma evaporation_pass c rnd :
  wf c -> ants c = [] -> memory_clear c ->
  exists c',
    iteration fpow c rnd = Ok c'
    /\ wf c' /\ ants c' = [] /\ memory_clear c'
    /\ p c' = p c /\ tau_min c' = tau_min c
    /\ forall i j x, get3 (pheromone c) i j (-1) = Ok x ->
         get3 (pheromone c') i j (-1)
         = Ok (pymax (fmul (fsub f1 (p c)) x) (tau_min c)).
Proof.
  intros Hwf Hants Hclear.
  destruct (next_index_range c (wf_index c Hwf)) as [Hn _].
  assert (Hit : iteration fpow c rnd = adjust_pheromone c).
  { unfold iteration. rewrite Hants. reflexivity. }
  eexists. split; [rewrite Hit; apply adjust_pheromone_ok; exact Hwf|].
  split; [eapply adjust_pheromone_wf; [exact Hwf|apply adjust_pheromone_ok; exact Hwf]|].
  simpl. split; [exact Hants|]. split; [|split; [reflexivity|split; [reflexivity|]]].
  - unfold memory_clear in *. simpl.
    apply Forall_fmap. eapply Forall_impl; [exact Hclear|]. intros prow Hprow. simpl.
    apply Forall_fmap. eapply Forall_impl; [exact Hprow|]. intros cell Hcell. simpl.
    apply consolidate_cell_clear; assumption.
  - intros i j x Hx. apply get3_get2 in Hx as (cell & Hc & Hx).
    pose proof (get2_cell_length c i j cell Hwf Hc) as Hlen.
    destruct (py_get_last_total c (next_index c) cell Hlen Hn) as [Hlast Hnew].
    rewrite Hlast in Hx. injection Hx as <-.
    apply get3_get2. eexists. split; [apply get2_map_map; exact Hc|].
    rewrite Hnew. f_equal. apply new_total_clear.
    apply get2_elem in Hc as (prow & Hprow & Hcell).
    exact (proj1 (Forall_forall _ _) (proj1 (Forall_forall _ _) Hclear _ Hprow) _ Hcell).
Qed.

Lemma init_memory_clear im n pp mm am tau bb al be draws c0 :
  0 <= mm -> init im n pp mm am tau bb al be draws = Ok c0 -> memory_clear c0.
Proof.
  intros Hm Hi. apply init_inv in Hi as (imax & placed & _ & _ & ->); [|exact Hm].
  unfold memory_clear. simpl. apply Forall_replicate, Forall_replicate.
  unfold init_cell. rewrite take_insert_ge by lia. rewrite take_replicate.
  apply Forall_replicate. reflexivity.
Qed.

(** C8: with [ant_count = 0] every pass of [iterate] is an evaporation
    clamped at the floor: in every cell, the total after pass [t + 1] is
    [max((1 - p) * total after pass t, tau_min)], for every [t]. *)
Theorem pure_evaporation im pp mm am tau bb al be draws c0 rnd t :
  1 <= mm -> init im 0 pp mm am tau bb al be draws = Ok c0 ->
  exists ct ct1,
    iterate_from fpow 0 t c0 rnd = Ok ct
    /\ iterate_from fpow 0 (Datatypes.S t) c0 rnd = Ok ct1
    /\ forall i j x, get3 (pheromone ct) i j (-1) = Ok x ->
         get3 (pheromone ct1) i j (-1) = Ok (pymax (fmul (fsub f1 pp) x) tau).
Proof.
  intros Hm Hi.
  assert (Hinv : exists ct, iterate_from fpow 0 t c0 rnd = Ok ct
            /\ wf ct /\ ants ct = [] /\ memory_clear ct /\ p ct = pp /\ tau_min ct = tau).
  { induction t as [|t IH].
    - exists c0. split; [reflexivity|].
      destruct (init_wf _ _ _ _ _ _ _ _ _ _ _ Hm Hi) as (Hwf & _ & Hlen & _).
      split; [exact Hwf|]. split; [destruct (ants c0); [reflexivity|simpl in Hlen; lia]|].
      split; [eapply init_memory_clear; [|exact Hi]; lia|].
      apply init_inv in Hi as (imax & placed & _ & _ & ->); [|lia]. auto.
    - destruct IH as (ct & Hct & Hwf & Hants & Hclear & Hp & Htau).
      destruct (evaporation_pass ct (rnd t) Hwf Hants Hclear)
        as (ct1 & Hit & Hwf1 & Hants1 & Hclear1 & Hp1 & Htau1 & _).
      exists ct1. rewrite iterate_from_snoc, Hct. simpl.
      split; [exact Hit|]. split; [exact Hwf1|]. split; [exact Hants1|].
      split; [exact Hclear1|]. split; congruence. }
  destruct Hinv as (ct & Hct & Hwf & Hants & Hclear & Hp & Htau).
  destruct (evaporation_pass ct (rnd t) Hwf Hants Hclear)
    as (ct1 & Hit & _ & _ & _ & _ & _ & Hev).
  exists ct, ct1. split; [exact Hct|]. split.
  - rewrite iterate_from_snoc, Hct. exact Hit.
  - rewrite <- Hp, <- Htau. exact Hev.
Qed.

(** ** The claims about the memory of an ant *)

Lemma update_memory_remember c a :
  pos_memory (update_memory c a) = remember (ant_mem c) (pos_memory a) (row a, col a).
Proof. reflexivity. Qed.


Lemma remember_length cap mem pos :
  0 <= cap -> Z.of_nat (length mem) <= cap ->
  Z.of_nat (length (remember cap mem pos)) <= cap.
Proof.
  intros Hcap Hlen. unfold remember.
  destruct (decide (pos ∈ mem)).
  - destruct (Z.ltb_spec cap (Z.of_nat (length mem))); [|lia].
    destruct mem; simpl in *; lia.
  - rewrite length_app. simpl.
    destruct (Z.ltb_spec cap (Z.of_nat (length mem + 1)));
      [|rewrite length_app; simpl; lia].
    destruct mem; simpl in *; [lia|]. rewrite length_app. simpl. lia.
Qed.




Lemma init_ants im n pp mm am tau bb al be draws c0 :
  init im n pp mm am tau bb al be draws = Ok c0 ->
  ant_mem c0 = am /\ Forall (placed_ok (shape0 im) (shape1 im)) (ants c0).
Proof.
  unfold init. intros (imax & _ & (zeros & _ & (ph & _ & Hi)%bind_Ok)%bind_Ok)%bind_Ok.
  apply bind_Ok in Hi as (placed & Hpl & [= <-]). simpl. split; [reflexivity|].
  apply place_ants_Ok in Hpl as (Hok & _).
  - exact Hok.
  - apply shape0_nonneg.
  - apply shape1_nonneg.
  - intros pos Hpos. set_solver.
  - constructor.
Qed.

Lemma memory_bounded_reachable c0 c :
  0 <= ant_mem c0 ->
  Forall (fun a => Z.of_nat (length (pos_memory a)) <= ant_mem c0) (ants c0) ->
  reachable fpow c0 c ->
  ant_mem c = ant_mem c0
  /\ Forall (fun a => Z.of_nat (length (pos_memory a)) <= ant_mem c0) (ants c).
Proof.
  intros Hcap H0 Hr.
  induction Hr as [|c k d c' _ [IHm IH] Hs|c c' _ [IHm IH] Ha]; [auto| |].
  - destruct (step_ant_frame c k d c' Hs)
      as (Hsame & a & a' & Ha & Hants & Hmem & _).
    destruct Hsame as (_ & _ & _ & _ & _ & _ & Ham & _).
    split; [congruence|]. rewrite Hants. apply Forall_insert; [exact IH|].
    rewrite Hmem, update_memory_remember, IHm.
    apply remember_length; [exact Hcap|].
    exact (Forall_lookup_1 _ _ _ _ IH Ha).
  - destruct (adjust_pheromone_frame c c' Ha) as (Hants & Ham & _).
    split; [congruence|]. rewrite Hants. exact IH.
Qed.



(** ** The claims about construction *)

Lemma img_max_rows im imax : img_max im = Ok imax -> 0 < shape0 im.
Proof.
  unfold img_max, shape0. destruct im; simpl; [discriminate|]. lia.
Qed.

(** More ants than cells: whatever is drawn, the placement loop is still
    running. *)
Lemma init_looping im imax n pp mm am tau bb al be draws :
  img_max im = Ok imax -> 0 < shape1 im -> 0 <= mm ->
  shape0 im * shape1 im < n ->
  init im n pp mm am tau bb al be draws = Looping.
Proof.
  intros Hmax Hcols Hm Hn. rewrite init_eq by exact Hm. rewrite Hmax. simpl.
  pose proof (img_max_rows im imax Hmax) as Hrows.
  destruct (place_ants (Z.to_nat n) 0 ∅ [] (shape0 im) (shape1 im) draws)
    as [placed|e|] eqn:E; simpl; [| |reflexivity].
  - apply place_ants_Ok in E as (_ & _ & Hcnt); [|lia|lia|intros pos Hpos; set_solver|constructor].
    rewrite size_empty in Hcnt. lia.
  - exfalso. exact (place_ants_no_raise _ _ _ _ _ _ _ _ Hrows Hcols E).
Qed.

(** C5, as the code has it: the constructor has no test on [ant_count].
    With more ants than cells, on a grid that is not empty, construction
    neither returns nor raises: for every sequence of draws the
    rejection-sampling loop is still running.  Hence construction completes
    only if [ant_count <= rows * cols]. *)
Theorem construction_needs_room im imax n pp mm am tau bb al be :
  img_max im = Ok imax -> 0 < shape1 im -> 0 <= mm ->
  (shape0 im * shape1 im < n ->
     forall draws, init im n pp mm am tau bb al be draws = Looping)
  /\ (forall draws c0, init im n pp mm am tau bb al be draws = Ok c0 ->
        n <= shape0 im * shape1 im).
Proof.
  intros Hmax Hcols Hm. split.
  - intros Hn draws. eapply init_looping; eassumption.
  - intros draws c0 Hi. destruct (Z.lt_ge_cases (shape0 im * shape1 im) n) as [Hn|Hn]; [|lia].
    rewrite (init_looping im imax n pp mm am tau bb al be draws Hmax Hcols Hm Hn) in Hi.
    discriminate.
Qed.

(** ** Running the simulation *)

Lemma reachable_wf c0 c : wf c0 -> reachable fpow c0 c -> wf c.
Proof.
  intros H0 Hr. induction Hr as [|c k d c' _ IH Hs|c c' _ IH Ha]; [exact H0| |].
  - exact (step_ant_wf c k d c' IH Hs).
  - exact (adjust_pheromone_wf c c' IH Ha).
Qed.

Lemma reachable_trans c0 c1 c2 :
  reachable fpow c0 c1 -> reachable fpow c1 c2 -> reachable fpow c0 c2.
Proof.
  intros H1 H2. induction H2 as [|c k d c' _ IH Hs|c c' _ IH Ha]; [exact H1| |].
  - eapply reach_step; eassumption.
  - eapply reach_adjust; eassumption.
Qed.

Lemma step_ant_run c n a d :
  wf c -> ants c !! n = Some a ->
  exists c', step_ant fpow c n d = Ok c' /\ wf c'
    /\ length (ants c') = length (ants c) /\ same_setup c c'.
Proof.
  intros Hwf Ha.
  assert (Hex : exists c', step_ant fpow c n d = Ok c').
  { destruct (step_ant_cases c n a d Hwf Ha) as [H|(r & k & i & _ & _ & _ & H)];
      eauto. }
  destruct Hex as [c' Hs]. exists c'. split; [exact Hs|].
  split; [exact (step_ant_wf c n d c' Hwf Hs)|].
  destruct (step_ant_frame c n d c' Hs) as (Hsame & a0 & a' & _ & Hants & _).
  split; [rewrite Hants; apply length_insert|exact Hsame].
Qed.

Lemma step_ants_run k : forall n c rnd,
  wf c -> (n + k <= length (ants c))%nat ->
  exists c', step_ants fpow k n c rnd = Ok c' /\ wf c'
    /\ length (ants c') = length (ants c) /\ same_setup c c'
    /\ reachable fpow c c'.
Proof.
  induction k as [|k IH]; intros n c rnd Hwf Hlen.
  - exists c. split; [reflexivity|]. split; [exact Hwf|]. split; [reflexivity|].
    split; [apply same_setup_refl|apply reach_start].
  - destruct (lookup_lt_is_Some_2 (ants c) n) as [a Ha]; [lia|].
    destruct (step_ant_run c n a (rnd n) Hwf Ha) as (c1 & Hs & Hwf1 & Hl1 & Hsame1).
    destruct (IH (Datatypes.S n) c1 rnd Hwf1) as (c' & Hk & Hwf' & Hl' & Hsame' & Hr');
      [lia|].
    exists c'. simpl. rewrite Hs. simpl. split; [exact Hk|]. split; [exact Hwf'|].
    split; [congruence|]. split.
    + unfold same_setup in *.
      destruct Hsame1 as (?&?&?&?&?&?&?&?&?&?&?), Hsame' as (?&?&?&?&?&?&?&?&?&?&?).
      repeat split; congruence.
    + eapply reachable_trans; [|exact Hr'].
      eapply reach_step; [apply reach_start|exact Hs].
Qed.

Lemma iteration_run c rnd :
  wf c ->
  exists c', iteration fpow c rnd = Ok c' /\ wf c'
    /\ length (ants c') = length (ants c) /\ m c' = m c
    /\ memory_index c' = (memory_index c + 1) mod m c
    /\ reachable fpow c c'.
Proof.
  intros Hwf.
  destruct (step_ants_run (length (ants c)) 0 c rnd Hwf) as
    (c1 & Hs & Hwf1 & Hl1 & Hsame & Hr1); [lia|].
  destruct Hsame as (_ & _ & _ & _ & _ & Hm & _ & _ & _ & _ & Hidx).
  pose proof (adjust_pheromone_ok c1 Hwf1) as Ha.
  eexists. unfold iteration. rewrite Hs. simpl. split; [exact Ha|].
  split; [exact (adjust_pheromone_wf c1 _ Hwf1 Ha)|]. simpl.
  split; [exact Hl1|]. split; [exact Hm|]. split.
  - destruct (next_index_range c1 (wf_index c1 Hwf1)) as [_ Hn].
    rewrite Hn, Hm, Hidx. reflexivity.
  - eapply reach_adjust; [exact Hr1|exact Ha].
Qed.

Lemma iterate_from_run k : forall i0 c rnd,
  wf c ->
  exists c', iterate_from fpow i0 k c rnd = Ok c' /\ wf c'
    /\ length (ants c') = length (ants c) /\ m c' = m c
    /\ memory_index c' = (memory_index c + Z.of_nat k) mod m c
    /\ reachable fpow c c'.
Proof.
  induction k as [|k IH]; intros i0 c rnd Hwf.
  - exists c. split; [reflexivity|]. split; [exact Hwf|]. split; [reflexivity|].
    split; [reflexivity|]. split; [|apply reach_start].
    pose proof (wf_index c Hwf). rewrite Z.add_0_r, Z.mod_small by lia. reflexivity.
  - destruct (iteration_run c (rnd i0) Hwf) as (c1 & Hit & Hwf1 & Hl1 & Hm1 & Hi1 & Hr1).
    destruct (IH (Datatypes.S i0) c1 rnd Hwf1) as (c' & Hk & Hwf' & Hl' & Hm' & Hi' & Hr').
    exists c'. rewrite iterate_from_S, Hit. simpl. split; [exact Hk|].
    split; [exact Hwf'|]. split; [congruence|]. split; [congruence|]. split.
    + rewrite Hi', Hi1, Hm1. pose proof (wf_index c Hwf).
      rewrite Zplus_mod_idemp_l. f_equal. lia.
    + eapply reachable_trans; eassumption.
Qed.

(** X1: on a well-shaped colony a call of [deposit_pheromone] on any of its
    ants raises nothing, whatever the draws: it returns a colony of the same
    shape with the same number of ants. *)
Theorem deposit_never_raises c n a d :
  wf c -> ants c !! n = Some a ->
  exists c', step_ant fpow c n d = Ok c' /\ wf c'
    /\ length (ants c') = length (ants c).
Proof.
  intros Hwf Ha. destruct (step_ant_run c n a d Hwf Ha) as (c' & H1 & H2 & H3 & _).
  eauto.
Qed.

(** X2: from a colony built by the constructor with a memory depth of at
    least one, [iterate] completes for every number of passes and every
    sequence of draws: no call on an ant and no consolidation raises. *)
Theorem iterate_completes im n pp mm am tau bb al be draws c0 passes rnd :
  1 <= mm -> init im n pp mm am tau bb al be draws = Ok c0 ->
  exists c, iterate fpow passes c0 rnd = Ok c /\ wf c
    /\ reachable fpow c0 c /\ length (ants c) = length (ants c0).
Proof.
  intros Hm Hi. destruct (init_wf _ _ _ _ _ _ _ _ _ _ _ Hm Hi) as (Hwf & _).
  destruct (iterate_from_run (Z.to_nat passes) 0 c0 rnd Hwf)
    as (c & Hc & Hwfc & Hl & _ & _ & Hr).
  exists c. unfold iterate. auto.
Qed.

(** X3: the rotating index depends on the number of passes only: after [k]
    passes of [iterate] it is [(idx + k) mod m], so it comes back to its value
    every [m] passes, whatever the ants do. *)
Theorem memory_index_cycles c k i0 rnd c' :
  wf c -> iterate_from fpow i0 k c rnd = Ok c' ->
  m c' = m c
  /\ 0 <= memory_index c' < m c
  /\ memory_index c' = (memory_index c + Z.of_nat k) mod m c.
Proof.
  intros Hwf Hit.
  destruct (iterate_from_run k i0 c rnd Hwf) as (c1 & Hc & Hwf1 & _ & Hm & Hidx & _).
  rewrite Hit in Hc. injection Hc as <-.
  split; [exact Hm|]. split; [|exact Hidx].
  rewrite <- Hm. apply (wf_index c' Hwf1).
Qed.

(** X4: in every state reachable from construction the ants are the ones
    placed, as many as [ant_count], and each stands inside the grid. *)
Theorem ants_stay_inside im n pp mm am tau bb al be draws c0 c :
  1 <= mm -> init im n pp mm am tau bb al be draws = Ok c0 ->
  reachable fpow c0 c ->
  Z.of_nat (length (ants c)) = Z.max 0 n
  /\ forall a, a ∈ ants c ->
       0 <= row a < shape0 im /\ 0 <= col a < shape1 im.
Proof.
  intros Hm Hi Hr.
  destruct (init_wf _ _ _ _ _ _ _ _ _ _ _ Hm Hi) as (Hwf & _ & Hlen & _).
  assert (Himg : img c0 = im).
  { apply init_inv in Hi as (imax & placed & _ & _ & ->); [reflexivity|lia]. }
  assert (H : length (ants c) = length (ants c0) /\ img c = img c0).
  { clear Hi Hlen Himg. induction Hr as [|c k d c' _ IH Hs|c c' _ IH Ha]; [auto| |].
    - destruct (step_ant_frame c k d c' Hs)
        as ((_ & _ & Hig & _) & a0 & a' & _ & Hants & _).
      rewrite Hants, length_insert. destruct IH. split; congruence.
    - unfold adjust_pheromone in Ha. apply bind_Ok in Ha as (ph & _ & [= <-]).
      exact IH. }
  destruct H as [Hl Hig]. split; [rewrite Hl; exact Hlen|].
  intros a Ha. pose proof (reachable_wf c0 c Hwf Hr) as Hwfc.
  pose proof (proj1 (Forall_forall _ _) (wf_ants c Hwfc) a Ha) as Hb.
  unfold in_bounds in Hb. simpl in Hb. rewrite Hig, Himg in Hb. exact Hb.
Qed.

(** ** More on construction *)

Lemma init_placed im n pp mm am tau bb al be draws c0 :
  init im n pp mm am tau bb al be draws = Ok c0 ->
  place_ants (Z.to_nat n) 0 ∅ [] (shape0 im) (shape1 im) draws = Ok (ants c0).
Proof.
  unfold init. intros (imax & _ & (zeros & _ & (ph & _ & Hi)%bind_Ok)%bind_Ok)%bind_Ok.
  apply bind_Ok in Hi as (placed & Hpl & [= <-]). exact Hpl.
Qed.

Lemma place_ants_distinct n : forall ant pairs placed rows cols draws l,
  place_ants n ant pairs placed rows cols draws = Ok l ->
  NoDup (map ant_pos placed) ->
  (forall a, a ∈ placed -> ant_pos a ∈ pairs) ->
  ant = Z.of_nat (length placed) ->
  (forall i a, placed !! i = Some a -> special a = (Z.of_nat i mod 100 =? 0)) ->
  NoDup (map ant_pos l)
  /\ (forall i a, l !! i = Some a -> special a = (Z.of_nat i mod 100 =? 0)).
Proof.
  induction n as [|n IH]; intros ant pairs placed rows cols draws l Hp Hnd Hin Hant Hsp;
    simpl in Hp.
  - injection Hp as <-. auto.
  - apply bind_Ok in Hp as ([[r k] rest] & Hs & Hp).
    apply sample_pair_Ok in Hs as (_ & _ & Hfresh).
    apply IH in Hp; [exact Hp| | | |].
    + rewrite map_app. apply NoDup_app. split; [exact Hnd|]. split.
      * intros pos Hpos Hsing. apply list_elem_of_singleton in Hsing. subst pos.
        apply list_elem_of_fmap in Hpos as (a & Ha & Hain).
        apply Hfresh. pose proof (Hin a Hain) as Hmem. rewrite <- Ha in Hmem.
        exact Hmem.
      * apply NoDup_singleton.
    + intros a [Ha|Ha]%elem_of_app.
      * apply elem_of_union. right. apply Hin. exact Ha.
      * apply list_elem_of_singleton in Ha. subst a.
        apply elem_of_union. left. apply elem_of_singleton. reflexivity.
    + rewrite length_app. simpl. lia.
    + intros i a Hl. destruct (decide (i < length placed)%nat) as [Hlt|Hge].
      * rewrite lookup_app_l in Hl by exact Hlt. apply Hsp. exact Hl.
      * rewrite lookup_app_r in Hl by lia.
        destruct (i - length placed)%nat as [|?] eqn:E; [|discriminate].
        injection Hl as <-. simpl. rewrite Hant. f_equal. f_equal. lia.
Qed.

Lemma sample_pair_fresh pairs rows cols d rest :
  0 <= fst d < rows -> 0 <= snd d < cols -> d ∉ pairs ->
  sample_pair pairs rows cols (d :: rest) = Ok (d, rest).
Proof.
  intros Hr Hc Hfresh. destruct d as [r k]. simpl in *. unfold randrange.
  destruct (Z.leb_spec rows 0); [lia|]. simpl.
  destruct (Z.leb_spec cols 0); [lia|]. simpl.
  rewrite !Z.mod_small by lia.
  destruct (decide ((r, k) ∈ pairs)); [contradiction|reflexivity].
Qed.

Lemma place_ants_fresh draws : forall ant pairs placed rows cols,
  NoDup draws ->
  (forall d, d ∈ draws -> (0 <= fst d < rows /\ 0 <= snd d < cols) /\ d ∉ pairs) ->
  exists l, place_ants (length draws) ant pairs placed rows cols draws = Ok l
    /\ map ant_pos l = map ant_pos placed ++ draws.
Proof.
  induction draws as [|d draws IH]; intros ant pairs placed rows cols Hnd Hin.
  - exists placed. split; [reflexivity|]. rewrite app_nil_r. reflexivity.
  - apply NoDup_cons in Hnd as [Hd Hnd].
    destruct (Hin d) as [[Hr Hc] Hfresh]; [left|].
    change (length (d :: draws)) with (Datatypes.S (length draws)).
    cbn [place_ants].
    rewrite (sample_pair_fresh pairs rows cols d draws Hr Hc Hfresh). cbn [bind].
    destruct d as [r k].
    destruct (IH (ant + 1) ({[(r, k)]} ∪ pairs)
                (placed ++ [{| row := r; col := k; pos_memory := [];
                               special := ant mod 100 =? 0 |}]) rows cols Hnd)
      as (l & Hl & Hpos).
    + intros d' Hd'. destruct (Hin d') as [Hb Hf]; [right; exact Hd'|].
      split; [exact Hb|]. intros [Hp|Hp]%elem_of_union; [|contradiction].
      apply elem_of_singleton in Hp. subst d'. contradiction.
    + exists l. split; [exact Hl|]. rewrite Hpos, map_app, <- app_assoc. reflexivity.
Qed.

(** X5: the constructor places the ants on pairwise distinct cells inside
    the grid, with an empty memory each; there are [ant_count] of them, and
    the flag [special] is set on the ants numbered 0, 100, 200, ... only. *)
Theorem construction_places_distinct im n pp mm am tau bb al be draws c0 :
  init im n pp mm am tau bb al be draws = Ok c0 ->
  NoDup (map ant_pos (ants c0))
  /\ length (ants c0) = Z.to_nat n
  /\ (forall i a, ants c0 !! i = Some a ->
        (0 <= row a < shape0 im /\ 0 <= col a < shape1 im)
        /\ pos_memory a = []
        /\ special a = (Z.of_nat i mod 100 =? 0)).
Proof.
  intros Hi. pose proof (init_placed _ _ _ _ _ _ _ _ _ _ _ Hi) as Hpl.
  destruct (place_ants_distinct _ _ _ _ _ _ _ _ Hpl) as [Hnd Hsp];
    [constructor|intros a []%elem_of_nil|reflexivity|intros i a Hl; discriminate|].
  destruct (place_ants_Ok _ _ _ _ _ _ _ _ (shape0_nonneg im) (shape1_nonneg im) Hpl)
    as (Hok & Hlen & _); [intros pos []%elem_of_empty|constructor|].
  split; [exact Hnd|]. split; [exact Hlen|].
  intros i a Hl. destruct (Forall_lookup_1 _ _ _ _ Hok Hl) as [Hb Hmem].
  split; [exact Hb|]. split; [exact Hmem|]. apply Hsp. exact Hl.
Qed.

(** X6: the placement loop ends as soon as it is fed fresh cells: on an
    image that is not empty, with [ant_count] pairwise distinct draws inside
    the grid, the constructor returns, the ants standing on the cells drawn,
    in the order drawn. *)
Theorem construction_completes im imax n pp mm am tau bb al be draws :
  img_max im = Ok imax -> 0 <= mm ->
  NoDup draws ->
  (forall d, d ∈ draws -> 0 <= fst d < shape0 im /\ 0 <= snd d < shape1 im) ->
  length draws = Z.to_nat n ->
  exists c0, init im n pp mm am tau bb al be draws = Ok c0
    /\ map ant_pos (ants c0) = draws.
Proof.
  intros Hmax Hm Hnd Hin Hlen. rewrite init_eq by exact Hm. rewrite Hmax. simpl.
  destruct (place_ants_fresh draws 0 ∅ [] (shape0 im) (shape1 im) Hnd) as (l & Hl & Hpos).
  { intros d Hd. split; [apply Hin; exact Hd|apply not_elem_of_empty]. }
  rewrite <- Hlen, Hl. simpl. eexists. split; [reflexivity|exact Hpos].
Qed.

Lemma py_get_replicate {A} (n : nat) (x : A) i :
  0 <= i < Z.of_nat n -> py_get (replicate n x) i = Ok x.
Proof.
  intros Hi. apply py_get_Ok. exists (Z.to_nat i). rewrite length_replicate.
  split; [apply py_norm_nonneg; exact Hi|]. apply lookup_replicate. split; [reflexivity|lia].
Qed.

(** X7: the pheromone array as the constructor leaves it: in every cell
    the [m] memory layers are zero and the total layer is [tau_min]; the
    rotating index is [0]. *)
Theorem construction_fills_floor im n pp mm am tau bb al be draws c0 i j k :
  0 <= mm -> init im n pp mm am tau bb al be draws = Ok c0 ->
  0 <= i < shape0 im -> 0 <= j < shape1 im -> 0 <= k <= mm ->
  get3 (pheromone c0) i j k = Ok (if k =? mm then tau else f0)
  /\ get3 (pheromone c0) i j (-1) = Ok tau
  /\ memory_index c0 = 0.
Proof.
  intros Hm Hi Hr Hc Hk.
  apply init_inv in Hi as (imax & placed & _ & _ & ->); [|exact Hm]. simpl.
  unfold get3. rewrite py_get_replicate by lia. simpl.
  rewrite py_get_replicate by lia. simpl.
  split; [|split; [|reflexivity]].
  - apply py_get_Ok. exists (Z.to_nat k). unfold init_cell.
    rewrite length_insert, length_replicate.
    split; [apply py_norm_nonneg; lia|].
    destruct (Z.eqb_spec k mm) as [->|Hne].
    + apply list_lookup_insert_eq. rewrite length_replicate. lia.
    + rewrite list_lookup_insert_ne by lia. apply lookup_replicate.
      split; [reflexivity|lia].
  - apply py_get_Ok. exists (Z.to_nat mm). unfold init_cell.
    rewrite length_insert, length_replicate.
    split; [rewrite py_norm_last by lia; f_equal; lia|].
    apply list_lookup_insert_eq. rewrite length_replicate. lia.
Qed.

(** X8: what the constructor raises.  An image without a sample makes
    [img.max()] raise [ValueError]; on an image with samples, a memory depth
    below [-1] makes [np.zeros] raise [ValueError], and a memory depth of
    [-1] leaves cells without a layer, so the first write of [tau_min]
    raises [IndexError]. *)
Theorem construction_errors im n pp mm am tau bb al be draws :
  (concat im = [] -> init im n pp mm am tau bb al be draws = Raise ValueError)
  /\ (concat im <> [] -> mm < -1 ->
        init im n pp mm am tau bb al be draws = Raise ValueError)
  /\ (concat im <> [] -> mm = -1 -> 0 < shape1 im ->
        init im n pp mm am tau bb al be draws = Raise IndexError).
Proof.
  unfold init, img_max. split; [intros ->; reflexivity|].
  pose proof (shape0_nonneg im) as H0. pose proof (shape1_nonneg im) as H1.
  split.
  - intros Hne Hm. destruct (concat im) as [|x xs]; [congruence|]. simpl.
    unfold np_zeros.
    destruct (Z.ltb_spec (shape0 im) 0); [lia|].
    destruct (Z.ltb_spec (shape1 im) 0); [lia|].
    destruct (Z.ltb_spec (mm + 1) 0); [|lia]. reflexivity.
  - intros Hne -> Hcols. destruct (concat im) as [|x xs] eqn:E; [congruence|]. simpl.
    unfold np_zeros.
    destruct (Z.ltb_spec (shape0 im) 0); [lia|].
    destruct (Z.ltb_spec (shape1 im) 0); [lia|]. simpl.
    assert (Hrows : 0 < shape0 im).
    { unfold shape0. destruct im; [discriminate|]. simpl. lia. }
    destruct (Z.to_nat (shape0 im)) as [|r] eqn:Er; [lia|].
    destruct (Z.to_nat (shape1 im)) as [|k] eqn:Ek; [lia|].
    reflexivity.
Qed.

(** ** More on the calls on an ant *)

Lemma reachable_setup c0 c :
  reachable fpow c0 c ->
  img c = img c0 /\ intensities c = intensities c0 /\ m c = m c0
  /\ ant_mem c = ant_mem c0 /\ tau_min c = tau_min c0 /\ p c = p c0 /\ b c = b c0.
Proof.
  intros Hr. induction Hr as [|c k d c' _ IH Hs|c c' _ IH Ha]; [repeat split| |].
  - destruct (step_ant_frame c k d c' Hs) as (Hsame & _).
    destruct Hsame as (_ & _ & H1 & _ & H2 & H3 & H4 & H5 & H6 & H7 & _).
    destruct IH as (?&?&?&?&?&?&?). repeat split; congruence.
  - unfold adjust_pheromone in Ha. apply bind_Ok in Ha as (ph & _ & [= <-]). exact IH.
Qed.

Lemma get_index_probabilities_offsets c a dirs nums poss :
  get_index_probabilities fpow c a dirs = Ok (nums, poss) ->
  forall pos, pos ∈ poss ->
    exists d, d ∈ dirs /\ pos = (row a + fst d, col a + snd d).
Proof.
  revert nums poss. induction dirs as [|d dirs IH]; intros nums poss H pos Hpos;
    cbn [get_index_probabilities] in H.
  - injection H as <- <-. inversion Hpos.
  - destruct (_ || _) in H.
    + destruct (IH _ _ H pos Hpos) as (d' & Hd' & ->). exists d'. split; [right|]; auto.
    + apply bind_Ok in H as (w & _ & H). apply bind_Ok in H as ([ns ps] & Hrest & H).
      injection H as <- <-. simpl in Hpos. apply elem_of_cons in Hpos as [->|Hpos].
      * exists d. split; [left|reflexivity].
      * destruct (IH _ _ Hrest pos Hpos) as (d' & Hd' & ->). exists d'.
        split; [right|]; auto.
Qed.

Lemma direction_is_a_step d :
  d ∈ directions -> Z.abs (fst d) <= 1 /\ Z.abs (snd d) <= 1 /\ d <> (0, 0).
Proof.
  unfold directions. rewrite !elem_of_cons.
  intros [->|[->|[->|[->|[->|[->|[->|[->|[]%elem_of_nil]]]]]]]];
    (split; [simpl; lia|split; [simpl; lia|discriminate]]).
Qed.

(** X9: a call never moves an ant further than to a neighbour.  When the
    directions sampled are compass directions, the ant either relocates to
    the coordinate drawn, the pheromone array unchanged, or it moves to one of
    the eight neighbours of its cell: a cell inside the grid, other than its
    own, absent from its memory, whose intensity is at least [b], and that
    intensity is what the call writes there. *)
Theorem move_is_to_free_neighbour c n a d c' :
  wf c -> ants c !! n = Some a ->
  (forall v, v ∈ sample d -> v ∈ directions) ->
  step_ant fpow c n d = Ok c' ->
  exists a', ants c' !! n = Some a'
    /\ ((a' = relocated c a d /\ pheromone c' = pheromone c)
        \/ (Z.abs (row a' - row a) <= 1 /\ Z.abs (col a' - col a) <= 1
            /\ ant_pos a' <> ant_pos a
            /\ (ant_pos a' ∉ pos_memory (update_memory c a))
            /\ in_bounds c (ant_pos a')
            /\ exists i, get2 (intensities c) (row a') (col a') = Ok i
                 /\ fgeb i (b c) = true
                 /\ c' = set_ants (deposited c (row a') (col a') i)
                           (<[n := a']> (ants c)))).
Proof.
  intros Hwf Ha Hdirs Hs.
  pose proof (Forall_lookup_1 _ _ _ _ (wf_ants c Hwf) Ha) as [Hr Hk]. simpl in Hr, Hk.
  assert (Hn : (n < length (ants c))%nat) by (eapply lookup_lt_Some, Ha).
  destruct (deposit_pheromone_spec c a d Hwf) as (nums & poss & Hgip & _ & _ & _ & Hd);
    [lia|lia|].
  unfold step_ant in Hs. rewrite Ha in Hs.
  destruct (ant_max _ _) as [[r k]|] eqn:Emax.
  - destruct Hd as (i & Hi & Hb & Hd). rewrite Hd in Hs.
    destruct (fgeb i (b c)) eqn:Hge; simpl in Hs; injection Hs as <-; simpl.
    + eexists. split; [apply list_lookup_insert_eq; exact Hn|]. right. simpl.
      apply ant_max_Some in Emax as [Hfree [key Hkey]].
      apply dict_of_zip_elem in Hkey. simpl in Hkey.
      destruct (get_index_probabilities_offsets _ _ _ _ _ Hgip _ Hkey)
        as (v & Hv & Hpos).
      destruct (direction_is_a_step v (Hdirs v Hv)) as (H1 & H2 & H3).
      injection Hpos as -> ->. simpl.
      split; [lia|]. split; [lia|]. split.
      { unfold ant_pos. simpl. intros [= E1 E2]. apply H3.
        destruct v as [v1 v2]. simpl in *. f_equal; lia. }
      split; [exact Hfree|]. split; [exact Hb|].
      exists i. auto.
    + eexists. split; [apply list_lookup_insert_eq; exact Hn|]. left. auto.
  - rewrite Hd in Hs. simpl in Hs. injection Hs as <-. simpl.
    eexists. split; [apply list_lookup_insert_eq; exact Hn|]. left. auto.
Qed.

Lemma remember_NoDup cap mem pos : NoDup mem -> NoDup (remember cap mem pos).
Proof.
  intros Hnd. unfold remember.
  assert (Htail : forall l : list (Z * Z), NoDup l -> NoDup (tail l)).
  { intros [|x l] Hl; [exact Hl|]. simpl. apply NoDup_cons in Hl as [_ Hl]. exact Hl. }
  assert (Hnew : NoDup (if decide (pos ∈ mem) then mem else mem ++ [pos])).
  { destruct (decide (pos ∈ mem)) as [Hin|Hout]; [exact Hnd|].
    apply NoDup_app. split; [exact Hnd|]. split; [|apply NoDup_singleton].
    intros x Hx Hs. apply list_elem_of_singleton in Hs. subst. contradiction. }
  destruct (_ <? _); [apply Htail|]; exact Hnew.
Qed.

Lemma remember_current cap mem pos :
  1 <= cap -> Z.of_nat (length mem) <= cap -> pos ∈ remember cap mem pos.
Proof.
  intros Hcap Hlen. unfold remember.
  destruct (decide (pos ∈ mem)) as [Hin|Hout].
  - destruct (Z.ltb_spec cap (Z.of_nat (length mem))); [lia|exact Hin].
  - destruct (Z.ltb_spec cap (Z.of_nat (length (mem ++ [pos])))).
    + rewrite length_app in *. simpl in *.
      destruct mem as [|x mem]; simpl in *; [lia|].
      apply elem_of_app. right. apply list_elem_of_singleton. reflexivity.
    + apply elem_of_app. right. apply list_elem_of_singleton. reflexivity.
Qed.

Lemma memory_NoDup_reachable c0 c :
  Forall (fun a => NoDup (pos_memory a)) (ants c0) ->
  reachable fpow c0 c ->
  Forall (fun a => NoDup (pos_memory a)) (ants c).
Proof.
  intros H0 Hr. induction Hr as [|c k d c' _ IH Hs|c c' _ IH Ha]; [exact H0| |].
  - destruct (step_ant_frame c k d c' Hs) as (_ & a & a' & Ha & Hants & Hmem & _).
    rewrite Hants. apply Forall_insert; [exact IH|].
    rewrite Hmem, update_memory_remember. apply remember_NoDup.
    exact (Forall_lookup_1 _ _ _ _ IH Ha).
  - destruct (adjust_pheromone_frame c c' Ha) as (Hants & _). rewrite Hants. exact IH.
Qed.

(** X10: the list that stands for the ordered dictionary [pos_memory]
    never holds a position twice, in any state reachable from construction;
    and with a capacity of at least one, the cell an ant stands on when a
    call begins is in its memory when the call returns. *)
Theorem taboo_memory_is_a_set im n pp mm am tau bb al be draws c0 c :
  init im n pp mm am tau bb al be draws = Ok c0 ->
  reachable fpow c0 c ->
  (forall a, a ∈ ants c -> NoDup (pos_memory a))
  /\ (1 <= am -> forall k a d c' a',
        ants c !! k = Some a -> step_ant fpow c k d = Ok c' ->
        ants c' !! k = Some a' -> ant_pos a ∈ pos_memory a').
Proof.
  intros Hi Hr. destruct (init_ants _ _ _ _ _ _ _ _ _ _ _ Hi) as [Ham Hpl].
  assert (Hnd : Forall (fun a => NoDup (pos_memory a)) (ants c)).
  { apply (memory_NoDup_reachable c0 c); [|exact Hr].
    eapply Forall_impl; [exact Hpl|]. intros a [_ ->]. constructor. }
  split; [apply Forall_forall; exact Hnd|].
  intros Hcap k a d c' a' Ha Hs Ha'.
  destruct (memory_bounded_reachable c0 c) as [Hm Hb]; [lia| |exact Hr|].
  { eapply Forall_impl; [exact Hpl|]. intros x [_ ->]. simpl. lia. }
  destruct (step_ant_frame c k d c' Hs) as (_ & a1 & a2 & Ha1 & Hants & Hmem & _).
  rewrite Ha in Ha1. injection Ha1 as <-.
  rewrite Hants, list_lookup_insert_eq in Ha' by (eapply lookup_lt_Some, Ha).
  injection Ha' as <-. rewrite Hmem, update_memory_remember.
  apply remember_current; [lia|].
  rewrite Hm. exact (Forall_lookup_1 _ _ _ _ Hb Ha).
Qed.

(** ** More on the pheromone field *)

Lemma below_threshold_step c n d c' :
  wf c ->
  (forall i j v, get2 (intensities c) i j = Ok v -> fgeb v (b c) = false) ->
  step_ant fpow c n d = Ok c' -> pheromone c' = pheromone c.
Proof.
  intros Hwf Hlow Hs. destruct (ants c !! n) as [a|] eqn:Ha;
    [|unfold step_ant in Hs; rewrite Ha in Hs; discriminate].
  destruct (step_ant_cases c n a d Hwf Ha) as [H|(r & k & i & _ & Hi & Hge & _)].
  - rewrite H in Hs. injection Hs as <-. reflexivity.
  - rewrite (Hlow r k i Hi) in Hge. discriminate.
Qed.

Lemma adjust_pheromone_clear c c' :
  wf c -> memory_clear c -> adjust_pheromone c = Ok c' -> memory_clear c'.
Proof.
  intros Hwf Hclear Ha. rewrite (adjust_pheromone_ok c Hwf) in Ha. injection Ha as <-.
  destruct (next_index_range c (wf_index c Hwf)) as [Hn _].
  unfold memory_clear in *. simpl.
  apply Forall_fmap. eapply Forall_impl; [exact Hclear|]. intros prow Hprow. simpl.
  apply Forall_fmap. eapply Forall_impl; [exact Hprow|]. intros cell Hcell. simpl.
  apply consolidate_cell_clear; assumption.
Qed.

Lemma adjust_pheromone_evaporates c c' :
  wf c -> memory_clear c -> adjust_pheromone c = Ok c' ->
  forall i j x, get3 (pheromone c) i j (-1) = Ok x ->
    get3 (pheromone c') i j (-1) = Ok (pymax (fmul (fsub f1 (p c)) x) (tau_min c)).
Proof.
  intros Hwf Hclear Ha i j x Hx.
  rewrite (adjust_pheromone_ok c Hwf) in Ha. injection Ha as <-. simpl.
  destruct (next_index_range c (wf_index c Hwf)) as [Hn _].
  apply get3_get2 in Hx as (cell & Hc & Hx).
  pose proof (get2_cell_length c i j cell Hwf Hc) as Hlen.
  destruct (py_get_last_total c (next_index c) cell Hlen Hn) as [Hlast Hnew].
  rewrite Hlast in Hx. injection Hx as <-.
  apply get3_get2. eexists. split; [apply get2_map_map; exact Hc|].
  rewrite Hnew. f_equal. apply new_total_clear.
  apply get2_elem in Hc as (prow & Hprow & Hcell).
  exact (proj1 (Forall_forall _ _) (proj1 (Forall_forall _ _) Hclear _ Hprow) _ Hcell).
Qed.

(** X11: where no cell reaches the threshold no ant ever deposits.  If
    every intensity of the colony built fails the test [>= b], then in every
    reachable state all memory layers are zero, a call on an ant leaves the
    pheromone array as it is, and a consolidation is an evaporation clamped at
    the floor, [max((1 - p) * total, tau_min)] in every cell, ants or not. *)
Theorem no_deposit_below_threshold im n pp mm am tau bb al be draws c0 c :
  1 <= mm -> init im n pp mm am tau bb al be draws = Ok c0 ->
  (forall i j v, get2 (intensities c0) i j = Ok v -> fgeb v bb = false) ->
  reachable fpow c0 c ->
  memory_clear c
  /\ (forall k d c', step_ant fpow c k d = Ok c' -> pheromone c' = pheromone c)
  /\ (forall c' i j x, adjust_pheromone c = Ok c' ->
        get3 (pheromone c) i j (-1) = Ok x ->
        get3 (pheromone c') i j (-1) = Ok (pymax (fmul (fsub f1 pp) x) tau)).
Proof.
  intros Hm Hi Hlow Hr.
  destruct (init_wf _ _ _ _ _ _ _ _ _ _ _ Hm Hi) as (Hwf0 & _).
  assert (Hm0 : 0 <= mm) by lia.
  pose proof (init_memory_clear _ _ _ _ _ _ _ _ _ _ _ Hm0 Hi) as Hc0.
  assert (Hpar : b c0 = bb /\ p c0 = pp /\ tau_min c0 = tau).
  { apply init_inv in Hi as (imax & placed & _ & _ & ->); [auto|lia]. }
  destruct Hpar as (Hb0 & Hp0 & Ht0).
  pose proof (reachable_wf c0 c Hwf0 Hr) as Hwf.
  destruct (reachable_setup c0 c Hr) as (_ & Hints & _ & _ & Htau & Hp & Hb).
  assert (Hlowc : forall i j v, get2 (intensities c) i j = Ok v -> fgeb v (b c) = false).
  { intros i j v Hv. rewrite Hb, Hb0. rewrite Hints in Hv. eapply Hlow, Hv. }
  assert (Hclear : memory_clear c).
  { clear Hlowc Hwf Hints Htau Hp Hb.
    induction Hr as [|c k d c' Hr IH Hs|c c' Hr IH Ha]; [exact Hc0| |].
    - pose proof (reachable_wf c0 c Hwf0 Hr) as Hwf.
      destruct (reachable_setup c0 c Hr) as (_ & Hints & _ & _ & _ & _ & Hb).
      destruct (step_ant_frame c k d c' Hs) as ((_&_&_&_&_&Hmm&_) & _).
      assert (Hph : pheromone c' = pheromone c).
      { apply (below_threshold_step c k d c' Hwf); [|exact Hs].
        intros i j v Hv. rewrite Hb, Hb0. rewrite Hints in Hv. eapply Hlow, Hv. }
      unfold memory_clear. rewrite Hph, Hmm. exact IH.
    - exact (adjust_pheromone_clear c c' (reachable_wf c0 c Hwf0 Hr) IH Ha). }
  split; [exact Hclear|]. split.
  - intros k d c' Hs. exact (below_threshold_step c k d c' Hwf Hlowc Hs).
  - intros c' i j x Ha Hx. rewrite <- Hp0, <- Ht0, <- Hp, <- Htau.
    exact (adjust_pheromone_evaporates c c' Hwf Hclear Ha i j x Hx).
Qed.

Lemma py_get_map_inv {A B} (f : A -> B) (l : list A) i y :
  py_get (map f l) i = Ok y -> exists x, py_get l i = Ok x /\ y = f x.
Proof.
  intros (n & Hn & Hy)%py_get_Ok. rewrite length_map in Hn.
  rewrite list_lookup_fmap in Hy. destruct (l !! n) as [x|] eqn:E; [|discriminate].
  injection Hy as <-. exists x. split; [|reflexivity]. apply py_get_Ok. eauto.
Qed.

Lemma floor_is_kept pq tq :
  (0 < pq)%Q -> (0 < tq)%Q ->
  pymax (fmul (fsub f1 (Fin pq)) (Fin tq)) (Fin tq) = Fin tq.
Proof.
  intros Hp Ht. unfold pymax, fgtb, fsub, f1. simpl.
  replace (negb (Qle_bool tq ((1 + - pq) * tq))) with true; [reflexivity|].
  symmetry. apply (fltb_fin ((1 + - pq) * tq) tq).
  pose proof (Qmult_lt_0_compat _ _ Hp Ht) as Hpt.
  assert (E : ((1 + - pq) * tq == tq - pq * tq)%Q) by ring.
  rewrite E. lra.
Qed.

(** X20: where no cell reaches the threshold the field stays at its floor.
    With [p > 0] and [tau_min > 0], if every intensity of the colony built
    fails the test [>= b], then in every reachable state the total of every
    cell is exactly [tau_min]. *)
Theorem totals_stay_at_floor im n pq mm am tq bb al be draws c0 c i j x :
  1 <= mm -> (0 < pq)%Q -> (0 < tq)%Q ->
  init im n (Fin pq) mm am (Fin tq) bb al be draws = Ok c0 ->
  (forall i' j' v, get2 (intensities c0) i' j' = Ok v -> fgeb v bb = false) ->
  reachable fpow c0 c ->
  get3 (pheromone c) i j (-1) = Ok x -> x = Fin tq.
Proof.
  intros Hm Hp Ht Hi Hlow Hr Hx.
  destruct (init_wf _ _ _ _ _ _ _ _ _ _ _ Hm Hi) as (Hwf0 & _).
  assert (Hm0 : 0 <= mm) by lia.
  pose proof (init_memory_clear _ _ _ _ _ _ _ _ _ _ _ Hm0 Hi) as Hc0.
  assert (Hpar : b c0 = bb /\ p c0 = Fin pq /\ tau_min c0 = Fin tq
                 /\ forall i j x, get3 (pheromone c0) i j (-1) = Ok x -> x = Fin tq).
  { apply init_inv in Hi as (imax & placed & _ & _ & ->); [|lia].
    split; [reflexivity|]. split; [reflexivity|]. split; [reflexivity|].
    simpl. intros i' j' y Hy. apply get3_get2 in Hy as (cell & Hc & Hy).
    apply get2_elem in Hc as (prow & Hprow & Hcell).
    apply elem_of_replicate in Hprow as [-> _].
    apply elem_of_replicate in Hcell as [-> _].
    apply py_get_Ok in Hy as (k & Hk & Hy). unfold init_cell in Hk, Hy.
    rewrite length_insert, length_replicate, py_norm_last in Hk by lia.
    injection Hk as <-.
    replace (Z.to_nat (mm + 1) - 1)%nat with (Z.to_nat mm) in Hy by lia.
    rewrite list_lookup_insert_eq in Hy by (rewrite length_replicate; lia).
    congruence. }
  destruct Hpar as (Hb0 & Hp0 & Ht0 & Hfl0).
  assert (Hinv : memory_clear c
                 /\ forall i j x, get3 (pheromone c) i j (-1) = Ok x -> x = Fin tq).
  { clear Hx. induction Hr as [|c k d c' Hr [IHc IHf] Hs|c c' Hr [IHc IHf] Ha];
      [auto| |].
    - pose proof (reachable_wf c0 c Hwf0 Hr) as Hwf.
      destruct (reachable_setup c0 c Hr) as (_ & Hints & _ & _ & _ & _ & Hb).
      destruct (step_ant_frame c k d c' Hs) as ((_&_&_&_&_&Hmm&_) & _).
      assert (Hph : pheromone c' = pheromone c).
      { apply (below_threshold_step c k d c' Hwf); [|exact Hs].
        intros i' j' v Hv. rewrite Hb, Hb0. rewrite Hints in Hv. eapply Hlow, Hv. }
      unfold memory_clear. rewrite Hph, Hmm. split; [exact IHc|exact IHf].
    - pose proof (reachable_wf c0 c Hwf0 Hr) as Hwf.
      destruct (reachable_setup c0 c Hr) as (_ & _ & _ & _ & Htau & Hpc & _).
      split; [exact (adjust_pheromone_clear c c' Hwf IHc Ha)|].
      intros i' j' y Hy.
      pose proof (adjust_pheromone_evaporates c c' Hwf IHc Ha i' j') as Hev.
      rewrite (adjust_pheromone_ok c Hwf) in Ha. injection Ha as <-. simpl in Hy.
      destruct (next_index_range c (wf_index c Hwf)) as [Hn _].
      apply get3_get2 in Hy as (cell' & Hc' & Hy).
      unfold get2 in Hc'. apply bind_Ok in Hc' as (prow' & Hprow' & Hc').
      apply py_get_map_inv in Hprow' as (prow & Hprow & ->).
      apply py_get_map_inv in Hc' as (cell & Hcell & ->).
      assert (Hg2 : get2 (pheromone c) i' j' = Ok cell).
      { unfold get2. rewrite Hprow. exact Hcell. }
      pose proof (get2_cell_length c i' j' cell Hwf Hg2) as Hlen.
      destruct (py_get_last_total c (next_index c) cell Hlen Hn) as [Hlast _].
      assert (Hold : get3 (pheromone c) i' j' (-1) = Ok (List.last cell f0)).
      { apply get3_get2. eauto. }
      specialize (Hev _ Hold). simpl in Hev.
      apply get3_get2 in Hev as (cell2 & Hc2 & Hev).
      rewrite (get2_map_map (consolidate_cell c (next_index c)) _ i' j' cell Hg2) in Hc2.
      injection Hc2 as <-. rewrite Hev in Hy. injection Hy as <-.
      rewrite (IHf _ _ _ Hold), Hpc, Hp0, Htau, Ht0.
      apply floor_is_kept; assumption. }
  exact (proj2 Hinv i j x Hx).
Qed.

(** X12: a memory depth of zero defeats the floor.  The colony is built,
    its cells holding the total layer only, and the first consolidation
    writes the zero meant for a memory layer over the total: every total is
    [0] afterwards, whatever [tau_min] is. *)
Theorem zero_depth_clears_totals im n pp am tau bb al be draws c0 :
  init im n pp 0 am tau bb al be draws = Ok c0 ->
  exists c', adjust_pheromone c0 = Ok c'
    /\ memory_index c' = 0
    /\ forall i j, 0 <= i < shape0 im -> 0 <= j < shape1 im ->
         get3 (pheromone c0) i j (-1) = Ok tau
         /\ get3 (pheromone c') i j (-1) = Ok f0.
Proof.
  intros Hi. apply init_inv in Hi as (imax & placed & _ & _ & ->); [|lia].
  unfold adjust_pheromone. simpl.
  rewrite (mapM_map _ (map (fun _ : list npfloat => [f0]))).
  - simpl. eexists. split; [reflexivity|]. simpl. split; [reflexivity|].
    intros i j Hr Hc. rewrite !fmap_replicate. unfold get3.
    rewrite !py_get_replicate by lia. simpl. rewrite !py_get_replicate by lia.
    split; reflexivity.
  - apply Forall_replicate. apply mapM_map. apply Forall_replicate. reflexivity.
Qed.

Lemma py_norm_nonneg_inv len i n :
  0 <= i -> py_norm len i = Some n -> n = Z.to_nat i.
Proof.
  intros Hi. unfold py_norm. destruct (Z.ltb_spec i 0); [lia|].
  destruct (i <? Z.of_nat len); [|discriminate]. intros [= <-]. reflexivity.
Qed.

Lemma py_get_nonneg {A} (l : list A) i x :
  0 <= i -> py_get l i = Ok x -> l !! Z.to_nat i = Some x.
Proof.
  intros Hi (n & Hn & Hx)%py_get_Ok.
  rewrite <- (py_norm_nonneg_inv _ _ _ Hi Hn). exact Hx.
Qed.

Lemma py_get_of_lookup {A} (l : list A) (n : nat) x :
  l !! n = Some x -> py_get l (Z.of_nat n) = Ok x.
Proof.
  intros Hl. apply py_get_Ok. exists n. split; [|exact Hl].
  rewrite py_norm_nonneg by (apply lookup_lt_Some in Hl; lia). f_equal. lia.
Qed.

Lemma layer_at_of_get3 {A} (g : list (list (list A))) i j k x :
  0 <= i -> 0 <= j -> 0 <= k ->
  get3 g i j k = Ok x -> layer_at g (Z.to_nat i) (Z.to_nat j) (Z.to_nat k) = Some x.
Proof.
  intros Hi Hj Hk. unfold get3, layer_at.
  intros (r & Hr & (cell & Hc & Hx)%bind_Ok)%bind_Ok.
  rewrite (py_get_nonneg _ _ _ Hi Hr), (py_get_nonneg _ _ _ Hj Hc).
  exact (py_get_nonneg _ _ _ Hk Hx).
Qed.

Lemma layer_at_write_inv {A} (g : list (list (list A))) i j k v x :
  layer_at (write_layer g i j k v) i j k = Some x -> x = v.
Proof.
  unfold layer_at, write_layer. rewrite list_lookup_alter_eq.
  destruct (g !! i) as [r|]; simpl; [|discriminate].
  rewrite list_lookup_alter_eq. destruct (r !! j) as [cell|]; simpl; [|discriminate].
  intros [(_ & -> & _)|(Hne & _)]%list_lookup_insert_Some; [reflexivity|congruence].
Qed.

Lemma layer_at_map {A} (f : list A -> list A) (g : list (list (list A))) i j k :
  layer_at (map (map f) g) i j k
  = match g !! i with
    | Some r => match r !! j with Some cell => f cell !! k | None => None end
    | None => None
    end.
Proof.
  unfold layer_at. rewrite list_lookup_fmap. destruct (g !! i) as [r|]; simpl; [|reflexivity].
  rewrite list_lookup_fmap. destruct (r !! j); reflexivity.
Qed.

Lemma layers_deposited_step c n d c' :
  wf c -> layers_deposited c -> step_ant fpow c n d = Ok c' -> layers_deposited c'.
Proof.
  intros Hwf Hinv Hs. destruct (ants c !! n) as [a|] eqn:Ha;
    [|unfold step_ant in Hs; rewrite Ha in Hs; discriminate].
  destruct (step_ant_cases c n a d Hwf Ha) as [H|(r & k & v & Hb & Hv & Hge & H)];
    rewrite H in Hs; injection Hs as <-; [exact Hinv|].
  intros i j l x Hl Hx. simpl in Hl, Hx. unfold intensity_at. simpl.
  destruct (decide ((i, j, l) = (Z.to_nat r, Z.to_nat k, Z.to_nat (memory_index c))))
    as [[= -> -> ->]|Hne].
  - apply layer_at_write_inv in Hx. subst x. right. split; [|exact Hge].
    destruct Hb as [Hr Hk]. simpl in Hr, Hk. unfold get2 in Hv.
    apply bind_Ok in Hv as (irow & Hirow & Hv).
    rewrite (py_get_nonneg _ _ _ (proj1 Hr) Hirow).
    exact (py_get_nonneg _ _ _ (proj1 Hk) Hv).
  - rewrite layer_at_write_other in Hx by exact Hne. exact (Hinv i j l x Hl Hx).
Qed.

Lemma layers_deposited_adjust c c' :
  wf c -> layers_deposited c -> adjust_pheromone c = Ok c' -> layers_deposited c'.
Proof.
  intros Hwf Hinv Ha. rewrite (adjust_pheromone_ok c Hwf) in Ha. injection Ha as <-.
  intros i j l x Hl Hx. simpl in Hl, Hx. unfold intensity_at. simpl.
  rewrite layer_at_map in Hx.
  destruct (pheromone c !! i) as [prow|] eqn:Hrow; [|discriminate].
  destruct (prow !! j) as [cell|] eqn:Hcell; [|discriminate].
  unfold consolidate_cell in Hx.
  apply list_lookup_insert_Some in Hx as [(_ & <- & _)|(_ & Hx)]; [left; reflexivity|].
  apply list_lookup_insert_Some in Hx as [(E & _)|(_ & Hx)]; [lia|].
  apply (Hinv i j l x Hl). unfold layer_at. rewrite Hrow, Hcell. exact Hx.
Qed.

(** X13: what the memory layers can hold.  In every state reachable from
    construction a place of a memory layer holds either zero or the intensity
    of its own cell, and in the second case that intensity is at least [b]:
    deposits overwrite, they never add up, and nothing else is written. *)
Theorem memory_layers_hold_intensities
  im n pp mm am tau bb al be draws c0 c i j k x :
  1 <= mm -> init im n pp mm am tau bb al be draws = Ok c0 ->
  reachable fpow c0 c ->
  0 <= i -> 0 <= j -> 0 <= k < mm ->
  get3 (pheromone c) i j k = Ok x ->
  x = f0 \/ (get2 (intensities c0) i j = Ok x /\ fgeb x bb = true).
Proof.
  intros Hm Hi Hr Hi0 Hj0 Hk Hx.
  destruct (init_wf _ _ _ _ _ _ _ _ _ _ _ Hm Hi) as (Hwf0 & _).
  assert (H0 : layers_deposited c0 /\ m c0 = mm /\ b c0 = bb).
  { apply init_inv in Hi as (imax & placed & _ & _ & ->); [|lia].
    split; [|auto]. intros i' j' l y Hl Hy. left. simpl in Hl, Hy.
    unfold layer_at in Hy.
    destruct (replicate _ _ !! i') as [prow|] eqn:E1; [|discriminate].
    apply lookup_replicate in E1 as [-> _].
    destruct (replicate _ _ !! j') as [cell|] eqn:E2; [|discriminate].
    apply lookup_replicate in E2 as [-> _]. unfold init_cell in Hy.
    rewrite list_lookup_insert_ne in Hy by lia.
    apply lookup_replicate in Hy as [-> _]. reflexivity. }
  destruct H0 as (Hinv0 & Hm0 & Hb0).
  assert (Hinv : layers_deposited c).
  { clear Hx. induction Hr as [|c s d c' Hr IH Hs|c c' Hr IH Ha]; [exact Hinv0| |].
    - exact (layers_deposited_step c s d c' (reachable_wf c0 c Hwf0 Hr) IH Hs).
    - exact (layers_deposited_adjust c c' (reachable_wf c0 c Hwf0 Hr) IH Ha). }
  destruct (reachable_setup c0 c Hr) as (_ & Hints & Hmc & _ & _ & _ & Hbc).
  apply layer_at_of_get3 in Hx; [|lia..].
  assert (Hkm : (Z.to_nat k < Z.to_nat (m c))%nat) by lia.
  destruct (Hinv _ _ _ _ Hkm Hx) as [->|[Hat Hge]]; [left; reflexivity|].
  right. split; [|congruence].
  unfold intensity_at in Hat. rewrite Hints in Hat.
  destruct (intensities c0 !! Z.to_nat i) as [irow|] eqn:E; [|discriminate].
  unfold get2. rewrite <- (Z2Nat.id i Hi0), (py_get_of_lookup _ _ _ E). simpl.
  rewrite <- (Z2Nat.id j Hj0). apply py_get_of_lookup. exact Hat.
Qed.

(** ** More on the selection *)

Lemma fleb_trans a b c : fleb a b = true -> fleb b c = true -> fleb a c = true.
Proof.
  destruct a as [x| | |], b as [y| | |], c as [z| | |]; try discriminate;
    try reflexivity.
  rewrite !fleb_fin. apply Qle_trans.
Qed.

Lemma fleb_total a b : a <> NaN -> b <> NaN -> fltb a b = false -> fleb b a = true.
Proof.
  destruct a as [x| | |], b as [y| | |]; try congruence; try discriminate;
    try reflexivity.
  intros _ _ H. apply fleb_fin. destruct (Qlt_le_dec x y) as [Hlt|Hle]; [|exact Hle].
  apply fltb_fin in Hlt. congruence.
Qed.

Lemma fltb_fleb a b : fltb a b = true -> fleb a b = true.
Proof. unfold fleb. intros ->. reflexivity. Qed.

Lemma fleb_refl a : a <> NaN -> fleb a a = true.
Proof.
  destruct a as [x| | |]; try congruence; try reflexivity.
  intros _. apply fleb_fin, Qle_refl.
Qed.

Lemma insert_desc_decreasing e l :
  fst e <> NaN -> Forall (fun y => fst y <> NaN) l ->
  decreasing l -> decreasing (insert_desc e l).
Proof.
  intros He Hl. induction Hl as [|x l Hx Hl IH]; intros Hd; simpl.
  - split; [constructor|exact I].
  - destruct Hd as [Hall Hd]. destruct (fltb (fst e) (fst x)) eqn:E; simpl.
    + split; [|exact (IH Hd)].
      rewrite (insert_desc_perm e l). constructor; [apply fltb_fleb; exact E|exact Hall].
    + pose proof (fleb_total _ _ He Hx E) as Hxe.
      split; [|split; assumption].
      constructor; [exact Hxe|].
      eapply Forall_impl; [exact Hall|]. intros y Hy. simpl in Hy.
      exact (fleb_trans _ _ _ Hy Hxe).
Qed.

Lemma sort_desc_decreasing d :
  Forall (fun y => fst y <> NaN) d -> decreasing (sort_desc d).
Proof.
  induction 1 as [|e d He Hd IH]; simpl; [exact I|].
  apply insert_desc_decreasing; [exact He| |exact IH].
  rewrite (sort_desc_perm d). exact Hd.
Qed.

Lemma dict_set_new d k v :
  Forall (fun e => feqb (fst e) k = false) d -> dict_set d k v = d ++ [(k, v)].
Proof.
  induction 1 as [|[k' v'] d Hk _ IH]; simpl; [reflexivity|].
  simpl in Hk. rewrite Hk, IH. reflexivity.
Qed.

Lemma dict_fold_distinct keys : forall values acc,
  distinct_keys keys ->
  Forall (fun e => Forall (fun k => feqb (fst e) k = false) keys) acc ->
  fold_left (fun d kv => dict_set d (fst kv) (snd kv)) (combine keys values) acc
  = acc ++ combine keys values.
Proof.
  induction keys as [|k keys IH]; intros values acc Hd Hacc; simpl.
  - rewrite app_nil_r. reflexivity.
  - destruct values as [|v values]; simpl; [rewrite app_nil_r; reflexivity|].
    destruct Hd as [Hk Hd].
    rewrite dict_set_new.
    + rewrite IH; [rewrite <- app_assoc; reflexivity|exact Hd|].
      apply Forall_app. split.
      * eapply Forall_impl; [exact Hacc|]. intros e He. simpl in He.
        apply Forall_cons in He as [_ He]. exact He.
      * constructor; [exact Hk|constructor].
    + eapply Forall_impl; [exact Hacc|]. intros e He. simpl in He.
      apply Forall_cons in He as [He _]. exact He.
Qed.

Lemma find_first {A} (f : A -> bool) (l : list A) x :
  List.find f l = Some x ->
  exists l1 l2, l = l1 ++ x :: l2 /\ Forall (fun y => f y = false) l1 /\ f x = true.
Proof.
  induction l as [|y l IH]; simpl; [discriminate|].
  destruct (f y) eqn:E.
  - intros [= <-]. exists [], l. split; [reflexivity|]. split; [constructor|exact E].
  - intros H. destruct (IH H) as (l1 & l2 & -> & Hl1 & Hx).
    exists (y :: l1), l2. split; [reflexivity|]. split; [constructor; assumption|exact Hx].
Qed.

Lemma decreasing_app_inv l1 x l2 :
  decreasing (l1 ++ x :: l2) -> Forall (fun y => fleb (fst y) (fst x) = true) l2.
Proof.
  induction l1 as [|y l1 IH]; simpl; intros [H1 H2]; [exact H1|exact (IH H2)].
Qed.

(** X14: what the selection returns in any case: a candidate that is not
    in the memory of the ant; and it returns [None] when every candidate is
    in the memory. *)
Theorem selection_returns_free_candidate a keys values :
  (forall pos, ant_max a (dict_of_zip keys values) = Some pos ->
     pos ∈ values /\ (pos ∉ pos_memory a))
  /\ ((forall pos, pos ∈ values -> pos ∈ pos_memory a) ->
      ant_max a (dict_of_zip keys values) = None).
Proof.
  split.
  - intros pos H. apply ant_max_Some in H as [Hfree [k Hk]].
    apply dict_of_zip_elem in Hk. auto.
  - intros Hall. unfold ant_max.
    destruct (List.find _ _) as [[k v]|] eqn:E; [|reflexivity].
    apply find_some in E as [Hin Hfree]. simpl in Hfree.
    apply bool_decide_eq_true in Hfree. exfalso. apply Hfree, Hall.
    apply list_elem_of_In in Hin. rewrite (sort_desc_perm _) in Hin.
    apply dict_of_zip_elem in Hin. exact Hin.
Qed.

(** X15: without ties the selection is the one its docstring describes.
    When the probabilities are numbers or infinities, pairwise different, the
    position returned is, among the candidates that are not in the memory of
    the ant, the one of highest probability; [None] is returned only when
    every candidate is in the memory. *)
Theorem selection_without_ties a keys values :
  length keys = length values ->
  Forall (fun k => k <> NaN) keys -> distinct_keys keys ->
  match ant_max a (dict_of_zip keys values) with
  | Some pos =>
      (pos ∉ pos_memory a)
      /\ exists k, (k, pos) ∈ combine keys values
           /\ forall k' pos', (k', pos') ∈ combine keys values ->
                pos' ∉ pos_memory a -> fleb k' k = true
  | None => forall pos, pos ∈ values -> pos ∈ pos_memory a
  end.
Proof.
  clear fpow. intros Hlen Hnan Hdist.
  assert (Hdict : dict_of_zip keys values = combine keys values).
  { unfold dict_of_zip. rewrite dict_fold_distinct; [reflexivity|exact Hdist|constructor]. }
  assert (Hkeys : Forall (fun y : npfloat * (Z * Z) => fst y <> NaN) (combine keys values)).
  { apply Forall_forall. intros [k v] Hkv. simpl.
    apply list_elem_of_In, in_combine_l, list_elem_of_In in Hkv.
    exact (proj1 (Forall_forall _ _) Hnan k Hkv). }
  pose proof (sort_desc_decreasing _ Hkeys) as Hsorted.
  unfold ant_max. rewrite Hdict.
  destruct (List.find _ _) as [[k pos]|] eqn:E; simpl.
  - apply find_first in E as (l1 & l2 & Hsplit & Hl1 & Hfree). simpl in Hfree.
    apply bool_decide_eq_true in Hfree. split; [exact Hfree|].
    assert (Hmem : forall e, e ∈ combine keys values <-> e ∈ l1 ++ (k, pos) :: l2).
    { intros e. rewrite <- Hsplit, (sort_desc_perm _). reflexivity. }
    exists k. split; [apply Hmem, elem_of_app; right; left|].
    intros k' pos' Hin Hfree'. apply Hmem in Hin.
    apply elem_of_app in Hin as [Hin|Hin].
    + pose proof (proj1 (Forall_forall _ _) Hl1 _ Hin) as Hno. simpl in Hno.
      apply bool_decide_eq_false in Hno. contradiction.
    + rewrite Hsplit in Hsorted. apply elem_of_cons in Hin as [[= -> ->]|Hin].
      * apply fleb_refl.
        assert (Hk : (k, pos) ∈ combine keys values) by (apply Hmem, elem_of_app; right; left).
        exact (proj1 (Forall_forall _ _) Hkeys _ Hk).
      * exact (proj1 (Forall_forall _ _) (decreasing_app_inv _ _ _ Hsorted) _ Hin).
  - intros pos Hpos. pose proof (find_none _ _ E) as Hnone.
    apply list_elem_of_In, (In_nth_error) in Hpos as [i Hi].
    destruct (nth_error keys i) as [k|] eqn:Ek.
    + assert (Hin : In (k, pos) (combine keys values)).
      { clear -Ek Hi. revert values keys Ek Hi. induction i as [|i IH];
          intros [|v values] [|k' keys] Ek Hi; simpl in *; try discriminate.
        - injection Ek as ->. injection Hi as ->. left. reflexivity.
        - right. apply (IH values keys); assumption. }
      apply list_elem_of_In in Hin. rewrite <- (sort_desc_perm _) in Hin.
      apply list_elem_of_In in Hin. specialize (Hnone _ Hin). simpl in Hnone.
      apply bool_decide_eq_false in Hnone. destruct (decide (pos ∈ pos_memory a)); tauto.
    + apply nth_error_None in Ek.
      assert (Hlt : (i < length values)%nat) by (apply nth_error_Some; congruence).
      lia.
Qed.

(** ** Snapshots *)

Lemma map_map_ext {A B} (f g : A -> B) (P : A -> Prop) (arr : list (list A)) :
  (forall x, P x -> f x = g x) -> Forall (Forall P) arr ->
  map (map f) arr = map (map g) arr.
Proof.
  intros Hfg Harr. induction Harr as [|r arr Hr _ IH]; simpl; [reflexivity|].
  rewrite IH. f_equal. induction Hr as [|x r Hx _ IHr]; simpl; [reflexivity|].
  rewrite IHr, (Hfg x Hx). reflexivity.
Qed.

Lemma fold_max2_flat v (xs : list npfloat) :
  Forall (fun x => x = Fin v) xs ->
  fold_left np_max2 xs (Fin v) = Fin v /\ fold_left np_min2 xs (Fin v) = Fin v.
Proof.
  induction 1 as [|x xs -> _ [IH1 IH2]]; simpl; [auto|].
  destruct (negb (Qle_bool v v)); auto.
Qed.

Lemma gray_flat v : gray (Fin v) (Fin v) (Fin v) = NaN.
Proof.
  unfold gray, fsub, of_Z. simpl.
  replace (Qeq_bool (v + - v) 0) with true
    by (symmetry; apply Qeq_bool_iff; lra).
  replace (Qsgn (inject_Z (255 - 0) * (v + - v))) with 0; [reflexivity|].
  destruct v as [a d]. unfold Qsgn. simpl. replace (a * Z.pos d + - a * Z.pos d) with 0 by lia.
  reflexivity.
Qed.

Lemma convert_to_gray_flat arr v :
  concat arr <> [] -> Forall (Forall (fun x => x = Fin v)) arr ->
  convert_to_gray arr = Ok (map (map (fun _ => NaN)) arr).
Proof.
  intros Hne Hall. unfold convert_to_gray.
  pose proof (proj2 (Forall_concat _ _) Hall) as Hc.
  destruct (concat arr) as [|x xs]; [congruence|].
  apply Forall_cons in Hc as [-> Hxs]. simpl.
  destruct (fold_max2_flat v xs Hxs) as [-> ->]. f_equal.
  apply (map_map_ext _ _ (fun x => x = Fin v)); [|exact Hall].
  intros x ->. apply gray_flat.
Qed.

(** X16: the rescaling of [convert_to_gray] at its edges.  An array
    without an entry makes [arr.max()] raise [ValueError]; on a flat field,
    every entry the same number, the range [old_max - old_min] is zero and
    every entry of the result is NaN. *)
Theorem gray_of_flat_field arr v :
  (concat arr = [] -> convert_to_gray arr = Raise ValueError)
  /\ (concat arr <> [] -> Forall (Forall (fun x => x = Fin v)) arr ->
      convert_to_gray arr = Ok (map (map (fun _ => NaN)) arr)).
Proof.
  split.
  - intros H. unfold convert_to_gray. rewrite H. reflexivity.
  - apply convert_to_gray_flat.
Qed.

Lemma fold_min2_fin (xs : list npfloat) : forall a mn,
  Forall is_fin xs -> fold_left np_min2 xs (Fin a) = Fin mn ->
  (mn <= a)%Q /\ Forall (fun w => exists x, w = Fin x /\ (mn <= x)%Q) xs.
Proof.
  induction xs as [|w xs IH]; intros a mn Hfin Hm; simpl in Hm.
  - injection Hm as <-. split; [lra|constructor].
  - apply Forall_cons in Hfin as [[x ->] Hfin]. simpl in Hm.
    destruct (negb (Qle_bool a x)) eqn:E.
    + destruct (IH _ _ Hfin Hm) as [H1 H2].
      assert (Hax : (x < a)%Q) by (apply (fltb_fin x a); exact E).
      split; [lra|]. constructor; [exists x; split; [reflexivity|exact H1]|exact H2].
    + destruct (IH _ _ Hfin Hm) as [H1 H2].
      assert (Hxa : (a <= x)%Q).
      { apply negb_false_iff in E. apply Qle_bool_iff. exact E. }
      split; [exact H1|]. constructor; [exists x; split; [reflexivity|lra]|exact H2].
Qed.

Lemma gray_fin mn mx x :
  (mn < mx)%Q ->
  gray (Fin mn) (Fin mx) (Fin x)
  = Fin (inject_Z 255 * (x + - mn) / (mx + - mn) + inject_Z 0).
Proof.
  intros Hlt. unfold gray, fsub, of_Z. simpl.
  replace (Qeq_bool (mx + - mn) 0) with false; [reflexivity|].
  symmetry. destruct (Qeq_bool (mx + - mn) 0) eqn:E; [|reflexivity].
  apply Qeq_bool_iff in E. lra.
Qed.

(** X17: the rescaling of [convert_to_gray] on a field that is not flat.
    When the entries are numbers with [old_min < old_max], the result has
    the shape of the argument, no entry of it is negative, an entry equal to
    the minimum goes to [0], and the rescaling keeps the order: of two
    numbers the larger never gets the smaller value.  Nothing is stated on
    the upper end of the range: the quotient of line 232 is rounded, and the
    value of the maximum need not be [255] exactly. *)
Theorem gray_keeps_order arr mn mx :
  Forall (Forall is_fin) arr ->
  np_amin (concat arr) = Ok (Fin mn) -> np_amax (concat arr) = Ok (Fin mx) ->
  (mn < mx)%Q ->
  convert_to_gray arr = Ok (map (map (gray (Fin mn) (Fin mx))) arr)
  /\ (forall r w, r ∈ arr -> w ∈ r ->
        exists x y, w = Fin x /\ gray (Fin mn) (Fin mx) w = Fin y
          /\ (0 <= y)%Q /\ ((x == mn)%Q -> (y == 0)%Q))
  /\ (forall x1 x2 y1 y2,
        gray (Fin mn) (Fin mx) (Fin x1) = Fin y1 ->
        gray (Fin mn) (Fin mx) (Fin x2) = Fin y2 ->
        (x1 <= x2)%Q -> (y1 <= y2)%Q).
Proof.
  intros Hfin Hmin Hmax Hlt.
  assert (Hs : (0 < mx + - mn)%Q) by lra.
  split; [|split].
  - unfold convert_to_gray. rewrite Hmax, Hmin. reflexivity.
  - intros r w Hr Hw.
    assert (Hall : Forall (fun w => exists x, w = Fin x /\ (mn <= x)%Q) (concat arr)).
    { pose proof (proj2 (Forall_concat _ _) Hfin) as Hcf.
      unfold np_amin in Hmin.
      destruct (concat arr) as [|w0 ws]; [discriminate|].
      apply Forall_cons in Hcf as [[x0 ->] Hws].
      injection Hmin as Hmin.
      destruct (fold_min2_fin ws x0 mn Hws Hmin) as [Hx0 Hge].
      constructor; [exists x0; split; [reflexivity|exact Hx0]|exact Hge]. }
    apply Forall_concat in Hall.
    pose proof (proj1 (Forall_forall _ _) (proj1 (Forall_forall _ _) Hall _ Hr) _ Hw)
      as Hx.
    destruct Hx as (x & -> & Hxmn).
    exists x, (inject_Z 255 * (x + - mn) / (mx + - mn) + inject_Z 0)%Q.
    split; [reflexivity|]. split; [apply gray_fin; exact Hlt|].
    change (inject_Z 0) with 0%Q. change (inject_Z 255) with 255%Q.
    split.
    + rewrite Qplus_0_r. apply Qle_shift_div_l; [exact Hs|]. lra.
    + intros E. rewrite E. field. lra.
  - intros x1 x2 y1 y2 H1 H2 Hle.
    rewrite (gray_fin mn mx x1 Hlt) in H1. rewrite (gray_fin mn mx x2 Hlt) in H2.
    injection H1 as <-. injection H2 as <-.
    change (inject_Z 0) with 0%Q. change (inject_Z 255) with 255%Q.
    rewrite !Qplus_0_r. unfold Qdiv.
    apply Qmult_le_compat_r; [lra|].
    apply Qlt_le_weak, Qinv_lt_0_compat. exact Hs.
Qed.

(** X18: the snapshot of a colony as built.  Every total is [tau_min], a
    flat field: the array that [generate_pheromone_image] would hand to the
    image writer holds NaN everywhere. *)
Theorem first_snapshot_is_blank im imax n pp mm am tau bb al be draws c0 :
  0 <= mm -> img_max im = Ok imax -> 0 < shape1 im -> is_fin tau ->
  init im n pp mm am tau bb al be draws = Ok c0 ->
  pheromone_image c0
  = Ok (replicate (Z.to_nat (shape0 im)) (replicate (Z.to_nat (shape1 im)) NaN)).
Proof.
  intros Hm Himax Hcols [v ->] Hi.
  pose proof (img_max_rows im imax Himax) as Hrows.
  apply init_inv in Hi as (imax' & placed & _ & _ & ->); [|exact Hm].
  unfold pheromone_image. simpl.
  rewrite (mapM_map _ (map (fun _ : list npfloat => Fin v))).
  - simpl. rewrite !fmap_replicate.
    rewrite (convert_to_gray_flat _ v).
    + rewrite !fmap_replicate. reflexivity.
    + destruct (Z.to_nat (shape0 im)) as [|r] eqn:Er; [lia|].
      destruct (Z.to_nat (shape1 im)) as [|k] eqn:Ek; [lia|]. discriminate.
    + apply Forall_replicate, Forall_replicate. reflexivity.
  - apply Forall_replicate. apply mapM_map. apply Forall_replicate.
    apply py_get_Ok. exists (Z.to_nat mm). unfold init_cell.
    rewrite length_insert, length_replicate.
    split; [rewrite py_norm_last by lia; f_equal; lia|].
    apply list_lookup_insert_eq. rewrite length_replicate. lia.
Qed.

(** ** More on the intensity field *)

Lemma px_uniform im v i j :
  Forall (Forall (fun x => x = v)) im ->
  Forall (fun r => Z.of_nat (length r) = shape1 im) im ->
  0 <= i < shape0 im -> 0 <= j < shape1 im -> px im i j = v.
Proof.
  intros Hall Hrect Hi Hj.
  destruct (rect_get2 (shape0 im) (shape1 im) im i j (conj eq_refl Hrect) Hi Hj)
    as (r & x & Hr & Hx & Hgr & Hgx).
  unfold px, get2. rewrite Hgr. simpl. rewrite Hgx.
  exact (Forall_lookup_1 _ _ _ _ (Forall_lookup_1 _ _ _ _ Hall Hr) Hx).
Qed.

Lemma max_gradient_uniform im v r k :
  Forall (Forall (fun x => x = v)) im ->
  Forall (fun row_ => Z.of_nat (length row_) = shape1 im) im ->
  0 <= r < shape0 im -> 0 <= k < shape1 im -> max_gradient im r k = 0.
Proof.
  intros Hall Hrect Hr Hk.
  pose proof (fun i j => px_uniform im v i j Hall Hrect) as Hpx.
  unfold max_gradient, gradients.
  assert (H1 : (if both_diagonals_inside im r k
                then Z.abs (px im (r - 1) (k - 1) - px im (r + 1) (k + 1)) else 0) = 0).
  { unfold both_diagonals_inside.
    destruct (Z.leb_spec 0 (r - 1)), (Z.leb_spec 0 (k - 1)),
      (Z.ltb_spec (r + 1) (shape0 im)), (Z.ltb_spec (k + 1) (shape1 im)); simpl;
      try reflexivity.
    rewrite !Hpx by lia. lia. }
  assert (H2 : (if both_diagonals_inside im r k
                then Z.abs (px im (r - 1) (k + 1) - px im (r + 1) (k - 1)) else 0) = 0).
  { unfold both_diagonals_inside.
    destruct (Z.leb_spec 0 (r - 1)), (Z.leb_spec 0 (k - 1)),
      (Z.ltb_spec (r + 1) (shape0 im)), (Z.ltb_spec (k + 1) (shape1 im)); simpl;
      try reflexivity.
    rewrite !Hpx by lia. lia. }
  assert (H3 : (if horizontal_inside im k
                then Z.abs (px im r (k - 1) - px im r (k + 1)) else 0) = 0).
  { unfold horizontal_inside.
    destruct (Z.leb_spec 0 (k - 1)), (Z.ltb_spec (k + 1) (shape1 im)); simpl;
      try reflexivity.
    rewrite !Hpx by lia. lia. }
  assert (H4 : (if vertical_inside im r
                then Z.abs (px im (r - 1) k - px im (r + 1) k) else 0) = 0).
  { unfold vertical_inside.
    destruct (Z.leb_spec 0 (r - 1)), (Z.ltb_spec (r + 1) (shape0 im)); simpl;
      try reflexivity.
    rewrite !Hpx by lia. lia. }
  rewrite H1, H2, H3, H4. reflexivity.
Qed.

Lemma fold_max_uniform v (xs : list Z) :
  Forall (fun x => x = v) xs -> fold_left Z.max xs v = v.
Proof.
  induction 1 as [|x xs -> _ IH]; simpl; [reflexivity|].
  rewrite Z.max_id. exact IH.
Qed.

(** X19: an image without contrast has no edge.  On a rectangular image
    whose samples all equal [v > 0] the maximum is [v] and the intensity of
    every pixel is zero, so it fails the test [>= b] for every positive
    threshold [b]. *)
Theorem uniform_image_has_no_edge im v r k :
  0 < v ->
  Forall (Forall (fun x => x = v)) im ->
  Forall (fun row_ => Z.of_nat (length row_) = shape1 im) im ->
  0 <= r < shape0 im -> 0 <= k < shape1 im ->
  img_max im = Ok v
  /\ exists x, pixel_intensity im v r k = Fin x /\ (x == 0)%Q
       /\ forall t, (0 < t)%Q -> fgeb (Fin x) (Fin t) = false.
Proof.
  intros Hv Hall Hrect Hr Hk. split.
  - unfold img_max. pose proof (proj2 (Forall_concat _ _) Hall) as Hc.
    destruct (concat im) as [|x xs] eqn:E.
    + exfalso. destruct im as [|row0 im']; [unfold shape0 in Hr; simpl in Hr; lia|].
      inversion Hrect; subst. destruct row0; [simpl in *; lia|discriminate].
    + apply Forall_cons in Hc as [-> Hxs]. rewrite (fold_max_uniform v xs Hxs).
      reflexivity.
  - unfold pixel_intensity. rewrite (max_gradient_uniform im v r k Hall Hrect Hr Hk).
    unfold of_Z, f1. simpl.
    replace (Qeq_bool (inject_Z v) 0) with false.
    + eexists. split; [reflexivity|]. split; [ring|].
      intros t Ht. apply fltb_not_fgeb. apply fltb_fin.
      assert (E : (1 / inject_Z v * inject_Z 0 == 0)%Q) by ring. rewrite E. exact Ht.
    + symmetry. destruct (Qeq_bool (inject_Z v) 0) eqn:E; [|reflexivity].
      apply Qeq_bool_iff in E. unfold Qeq in E. simpl in E. lia.
Qed.

End Properties.

(** * The properties on the sample colonies *)

Definition ant_at (r k : Z) (mem : list (Z * Z)) : Ant :=
  {| row := r; col := k; pos_memory := mem; special := true |}.

Lemma edge_start_init : default_colony img_1x5 1 2 [(0, 3)] = Ok edge_start.
Proof. vm_compute. reflexivity. Qed.

Lemma edge_start_wf : wf edge_start.
Proof.
  apply (init_wf img_1x5 1 (q 1 10) 2 100 (q 1 10000) (q 1 20) f1 f1 [(0, 3)]);
    [lia|exact edge_start_init].
Qed.

Lemma edge_moved_step :
  step_ant fpow_int edge_start 0 (draw directions 0 0) = Ok edge_moved.
Proof. vm_compute. reflexivity. Qed.

Lemma edge_moved_wf : wf edge_moved.
Proof. exact (step_ant_wf fpow_int _ _ _ _ edge_start_wf edge_moved_step). Qed.

Lemma single_moved_wf : wf single_moved.
Proof.
  apply (step_ant_wf fpow_int single_start 0 (draw directions 0 0)).
  - apply (init_wf img_1x5 1 (q 1 10) 1 100 (q 1 10000) (q 1 20) f1 f1 [(0, 3)]);
      [lia|vm_compute; reflexivity].
  - vm_compute. reflexivity.
Qed.

Lemma edge_pass_adjust : adjust_pheromone edge_moved = Ok edge_pass.
Proof. vm_compute. reflexivity. Qed.

Lemma edge_pass_reachable : reachable fpow_int edge_start edge_pass.
Proof.
  eapply reach_adjust; [|exact edge_pass_adjust].
  eapply reach_step; [apply reach_start|exact edge_moved_step].
Qed.

Lemma nonneg_img_1x5 : nonneg_img img_1x5.
Proof. repeat constructor; lia. Qed.

Lemma flat_start_init :
  init img_3x3_flat 1 (q 1 10) 2 100 (q 1 10000) f0 f1 f1 [(1, 1)] = Ok flat_start.
Proof. vm_compute. reflexivity. Qed.

Lemma flat_start_wf : wf flat_start.
Proof.
  apply (init_wf img_3x3_flat 1 (q 1 10) 2 100 (q 1 10000) f0 f1 f1 [(1, 1)]);
    [lia|exact flat_start_init].
Qed.

Lemma bare_start_init : default_colony img_1x5 0 2 [] = Ok bare_start.
Proof. vm_compute. reflexivity. Qed.

(** ** Witnesses *)

Lemma intensity_range_on_edge :
  nonneg_img img_1x5 /\ img_max img_1x5 = Ok 1
  /\ exists x, pixel_intensity img_1x5 1 0 2 = Fin x /\ (0 <= x <= 1)%Q.
Proof.
  split; [exact nonneg_img_1x5|]. split; [reflexivity|].
  destruct (intensity_needs_positive_maximum img_1x5 1 nonneg_img_1x5 eq_refl)
    as [Hpos _].
  destruct (Hpos ltac:(lia)) as [Hpix _]. exact (Hpix 0 2).
Defined.

Lemma total_floor_on_edge :
  exists t, get3 (pheromone edge_pass) 0 2 (m edge_pass) = Ok t
            /\ fleb (q 1 10000) t = true.
Proof.
  eexists. split; [vm_compute; reflexivity|].
  eapply (total_layer_floor fpow_int img_1x5 1 (q 1 10) 2 100 (q 1 10000) (q 1 20)
            f1 f1 [(0, 3)] edge_start edge_pass 0 2).
  - exact nonneg_img_1x5.
  - eexists. reflexivity.
  - eexists. reflexivity.
  - lia.
  - exact edge_start_init.
  - exact edge_pass_reachable.
  - vm_compute. reflexivity.
Defined.

Lemma frame_on_edge :
  wf edge_start
  /\ step_ant fpow_int edge_start 0 (draw directions 0 0) = Ok edge_moved
  /\ same_setup edge_start edge_moved
  /\ forall i j, layer_at (pheromone edge_moved) i j (Z.to_nat (m edge_start))
                 = layer_at (pheromone edge_start) i j (Z.to_nat (m edge_start)).
Proof.
  split; [exact edge_start_wf|]. split; [exact edge_moved_step|].
  destruct (step_frame fpow_int edge_start 0 (draw directions 0 0) edge_moved
              edge_start_wf edge_moved_step) as (H1 & _ & _ & H2 & _).
  split; [exact H1|exact H2].
Defined.

Lemma selected_on_edge :
  get_max_probability_pos fpow_int edge_start
    (update_memory edge_start (ant_at 0 3 [])) directions = Ok (Some (0, 2))
  /\ exists i,
       get2 (intensities edge_start) 0 2 = Ok i /\ fgeb i (b edge_start) = true
       /\ step_ant fpow_int edge_start 0 (draw directions 0 0)
          = Ok (set_ants (deposited edge_start 0 2 i)
                  (<[0%nat := set_pos (update_memory edge_start (ant_at 0 3 [])) 0 2]>
                     (ants edge_start))).
Proof.
  split; [vm_compute; reflexivity|].
  destruct (step_on_selected fpow_int edge_start 0 (ant_at 0 3 [])
              (draw directions 0 0) 0 2 edge_start_wf eq_refl)
    as (i & Hi & Hge & _).
  { vm_compute. reflexivity. }
  exists i. split; [exact Hi|].
  assert (Hb : fgeb i (b edge_start) = true).
  { vm_compute in Hi. injection Hi as <-. vm_compute. reflexivity. }
  split; [exact Hb|]. exact (proj1 (Hge Hb)).
Defined.

Lemma zero_weights_on_flat :
  wf flat_start /\ ants flat_start !! 0%nat = Some (ant_at 1 1 [])
  /\ exists nums poss,
       get_index_probabilities fpow_int flat_start
         (update_memory flat_start (ant_at 1 1 [])) directions = Ok (nums, poss).
Proof.
  split; [exact flat_start_wf|]. split; [reflexivity|].
  destruct (step_on_zero_weights fpow_int flat_start 0 (ant_at 1 1 [])
              (draw directions 2 2) flat_start_wf eq_refl)
    as (nums & poss & Hgip & _).
  exists nums, poss. exact Hgip.
Defined.

Lemma consolidation_on_edge :
  (wf edge_moved /\ 2 <= m edge_moved
   /\ exists c', adjust_pheromone edge_moved = Ok c'
        /\ memory_index c' = (memory_index edge_moved + 1) mod m edge_moved
        /\ memory_index c' <> memory_index edge_moved
        /\ get3 (pheromone c') 0 2 (memory_index edge_moved) = Ok f1)
  /\ (wf single_moved /\ m single_moved = 1
      /\ get3 (pheromone single_moved) 0 2 (memory_index single_moved) = Ok f1
      /\ exists c', adjust_pheromone single_moved = Ok c'
           /\ memory_index c' = memory_index single_moved
           /\ get3 (pheromone c') 0 2 (memory_index single_moved) = Ok f0).
Proof.
  split.
  - split; [exact edge_moved_wf|]. split; [vm_compute; discriminate|].
    destruct (consolidation_spec fpow_int edge_moved edge_moved_wf)
      as (c' & Ha & Hidx & _ & _ & _ & _ & _ & Hdeep & _).
    destruct Hdeep as [Hne Hkept]; [vm_compute; discriminate|].
    exists c'. split; [exact Ha|]. split; [exact Hidx|]. split; [exact Hne|].
    apply Hkept. vm_compute. reflexivity.
  - split; [exact single_moved_wf|]. split; [reflexivity|].
    split; [vm_compute; reflexivity|].
    destruct (consolidation_spec fpow_int single_moved single_moved_wf)
      as (c' & Ha & _ & _ & _ & _ & _ & _ & _ & Hone).
    destruct Hone as [He Hzero]; [reflexivity|].
    exists c'. split; [exact Ha|]. split; [exact He|].
    eapply Hzero. vm_compute. reflexivity.
Defined.

Lemma evaporation_on_bare :
  default_colony img_1x5 0 2 [] = Ok bare_start
  /\ exists ct ct1,
       iterate_from fpow_int 0 3 bare_start (fun _ _ => draw directions 0 0) = Ok ct
       /\ iterate_from fpow_int 0 4 bare_start (fun _ _ => draw directions 0 0) = Ok ct1
       /\ forall i j x, get3 (pheromone ct) i j (-1) = Ok x ->
            get3 (pheromone ct1) i j (-1)
            = Ok (pymax (fmul (fsub f1 (q 1 10)) x) (q 1 10000)).
Proof.
  split; [exact bare_start_init|].
  apply (pure_evaporation fpow_int img_1x5 (q 1 10) 2 100 (q 1 10000) (q 1 20) f1 f1 []
           bare_start (fun _ _ => draw directions 0 0) 3);
    [lia|exact bare_start_init].
Defined.


Lemma room_on_one_cell :
  img_max img_1x1 = Ok 7
  /\ forall draws, default_colony img_1x1 2 2 draws = Looping.
Proof.
  split; [reflexivity|].
  apply (construction_needs_room img_1x1 7 2 (q 1 10) 2 100 (q 1 10000) (q 1 20) f1 f1);
    [reflexivity|reflexivity|lia|reflexivity].
Defined.

(** ** Where the code departs from the specification *)

(** C1 (counterexample): the consolidation that ends the first pass.  The
    ant wrote [1] to layer [0], the current index; after the consolidation
    that layer still holds [1] at the cell: the layer zeroed is the one of
    the new index, [1]. *)
Lemma consolidation_keeps_current_layer :
  memory_index edge_moved = 0
  /\ get3 (pheromone edge_moved) 0 2 (memory_index edge_moved) = Ok f1
  /\ adjust_pheromone edge_moved = Ok edge_pass
  /\ get3 (pheromone edge_pass) 0 2 (memory_index edge_moved) = Ok f1
  /\ get3 (pheromone edge_pass) 0 2 (memory_index edge_moved) <> Ok f0
  /\ memory_index edge_pass = 1.
Proof.
  split; [reflexivity|]. split; [vm_compute; reflexivity|].
  split; [exact edge_pass_adjust|]. split; [vm_compute; reflexivity|].
  split; [vm_compute; discriminate|reflexivity].
Qed.

(** C3 (counterexample): a flat image and a threshold [b = 0].  All eight
    weights are zero, so their sum is; the call still selects the first
    neighbour enumerated, [(0, 1)], and moves the ant there instead of to
    the coordinate drawn, [(2, 2)]. *)
Lemma zero_weights_still_select :
  exists nums poss,
    get_index_probabilities fpow_int flat_start
      (update_memory flat_start (ant_at 1 1 [])) directions = Ok (nums, poss)
    /\ zero_sum nums
    /\ step_ant fpow_int flat_start 0 (draw directions 2 2) = Ok flat_moved
    /\ ants flat_moved = [ant_at 0 1 [(1, 1)]]
    /\ relocated flat_start (ant_at 1 1 []) (draw directions 2 2)
       = ant_at 2 2 [(1, 1)].
Proof.
  eexists _, _. split; [vm_compute; reflexivity|]. split.
  - split.
    + repeat constructor; eexists; (split; [reflexivity|unfold Qle; simpl; lia]).
    + eexists. split; [vm_compute; reflexivity|reflexivity].
  - split; [vm_compute; reflexivity|]. split; vm_compute; reflexivity.
Qed.

(** C4: the second call on the ant of [img_1x5].  The neighbours [(0, 1)]
    and [(0, 3)] have the same weight, hence the same probability, the
    highest; [(0, 3)] is in the memory, [(0, 1)] is not.  The dictionary keyed
    by probability keeps the last one enumerated only, [(0, 3)]: the
    selection returns [None] and the ant relocates, to [(0, 4)], although
    [(0, 1)] is a neighbour of highest probability outside the memory. *)
Theorem selection_loses_tied_candidate :
  west_first ≡ₚ directions
  /\ reachable fpow_int edge_start edge_pass
  /\ ants edge_pass = [ant_at 0 2 [(0, 3)]]
  /\ get_index_probabilities fpow_int edge_pass
       (update_memory edge_pass (ant_at 0 2 [(0, 3)])) west_first
     = Ok ([q 1 10000; q 1 10000], [(0, 1); (0, 3)])
  /\ first_free (update_memory edge_pass (ant_at 0 2 [(0, 3)])) [(0, 1); (0, 3)]
     = Some (0, 1)
  /\ get_max_probability_pos fpow_int edge_pass
       (update_memory edge_pass (ant_at 0 2 [(0, 3)])) west_first
     = Ok None
  /\ step_ant fpow_int edge_pass 0 (draw west_first 0 4) = Ok edge_lost
  /\ ants edge_lost = [ant_at 0 4 [(0, 3); (0, 2)]]
  /\ pheromone edge_lost = pheromone edge_pass.
Proof.
  split; [exact (Permutation_middle [N; NE; E; SE; S_; SW] [NW] W)|].
  split; [exact edge_pass_reachable|].
  repeat split; vm_compute; reflexivity.
Qed.

(** C5 (counterexample): two ants on a grid of one cell.  No sequence of
    draws makes the constructor stop, with a result or with an exception. *)
Lemma two_ants_one_cell :
  ~ exists draws, default_colony img_1x1 2 2 draws <> Looping.
Proof.
  intros [draws H]. apply H. unfold default_colony.
  apply (init_looping img_1x1 7); [reflexivity|reflexivity|lia|reflexivity].
Qed.


(** ** Witnesses of the further properties *)

Lemma strip_start_init :
  init img_1x5_flat 1 (q 1 10) 2 2 (q 1 10000) (q 1 20) f1 f1 [(0, 0)]
  = Ok strip_start.
Proof. vm_compute. reflexivity. Qed.

Lemma strip_is_below_threshold i j v :
  get2 (intensities strip_start) i j = Ok v -> fgeb v (q 1 20) = false.
Proof.
  intros (r & Hr & Hv)%get2_elem.
  apply list_elem_of_In in Hr. simpl in Hr. destruct Hr as [<-|[]].
  apply list_elem_of_In in Hv. simpl in Hv.
  repeat (destruct Hv as [<-|Hv]; [reflexivity|]). destruct Hv.
Qed.

Lemma deposit_runs_on_edge :
  wf edge_start /\ ants edge_start !! 0%nat = Some (ant_at 0 3 [])
  /\ exists c', step_ant fpow_int edge_start 0 (draw directions 0 0) = Ok c'
       /\ wf c' /\ length (ants c') = length (ants edge_start).
Proof.
  split; [exact edge_start_wf|]. split; [reflexivity|].
  exact (deposit_never_raises fpow_int edge_start 0 (ant_at 0 3 [])
           (draw directions 0 0) edge_start_wf eq_refl).
Defined.

Lemma iterate_runs_on_edge :
  default_colony img_1x5 1 2 [(0, 3)] = Ok edge_start
  /\ exists c, iterate fpow_int 1000 edge_start (fun _ _ => draw directions 0 0) = Ok c
       /\ wf c /\ reachable fpow_int edge_start c
       /\ length (ants c) = length (ants edge_start).
Proof.
  split; [exact edge_start_init|].
  apply (iterate_completes fpow_int img_1x5 1 (q 1 10) 2 100 (q 1 10000) (q 1 20)
           f1 f1 [(0, 3)]); [lia|exact edge_start_init].
Defined.

Lemma index_cycles_on_edge :
  exists c', iterate_from fpow_int 0 5 edge_start (fun _ _ => draw directions 0 0) = Ok c'
    /\ memory_index c' = (memory_index edge_start + 5) mod m edge_start.
Proof.
  destruct (iterate_from_run fpow_int 5 0 edge_start
              (fun _ _ => draw directions 0 0) edge_start_wf)
    as (c' & Hc & _).
  exists c'. split; [exact Hc|].
  exact (proj2 (proj2 (memory_index_cycles fpow_int edge_start 5 0 _ c'
                         edge_start_wf Hc))).
Defined.

Lemma ants_inside_on_edge :
  reachable fpow_int edge_start edge_pass
  /\ Z.of_nat (length (ants edge_pass)) = Z.max 0 1.
Proof.
  split; [exact edge_pass_reachable|].
  exact (proj1 (ants_stay_inside fpow_int img_1x5 1 (q 1 10) 2 100 (q 1 10000)
                  (q 1 20) f1 f1 [(0, 3)] edge_start edge_pass
                  ltac:(lia) edge_start_init edge_pass_reachable)).
Defined.

Lemma distinct_on_edge :
  default_colony img_1x5 1 2 [(0, 3)] = Ok edge_start
  /\ NoDup (map ant_pos (ants edge_start)).
Proof.
  split; [exact edge_start_init|].
  exact (proj1 (construction_places_distinct img_1x5 1 (q 1 10) 2 100 (q 1 10000)
                  (q 1 20) f1 f1 [(0, 3)] edge_start edge_start_init)).
Defined.

Lemma completes_on_edge :
  exists c0, default_colony img_1x5 3 2 [(0, 3); (0, 0); (0, 4)] = Ok c0
    /\ map ant_pos (ants c0) = [(0, 3); (0, 0); (0, 4)].
Proof.
  apply (construction_completes img_1x5 1 3 (q 1 10) 2 100 (q 1 10000) (q 1 20) f1 f1
           [(0, 3); (0, 0); (0, 4)]).
  - reflexivity.
  - lia.
  - apply NoDup_cons; split; [|apply NoDup_cons; split; [|apply NoDup_singleton]];
      rewrite ?elem_of_cons, ?elem_of_nil; intuition congruence.
  - intros d. rewrite !elem_of_cons, elem_of_nil.
    intros [->|[->|[->|[]]]]; vm_compute; intuition congruence.
  - reflexivity.
Defined.

Lemma floor_on_edge :
  get3 (pheromone edge_start) 0 2 2 = Ok (q 1 10000)
  /\ get3 (pheromone edge_start) 0 2 0 = Ok f0.
Proof.
  split.
  - exact (proj1 (construction_fills_floor img_1x5 1 (q 1 10) 2 100 (q 1 10000)
                    (q 1 20) f1 f1 [(0, 3)] edge_start 0 2 2
                    ltac:(lia) edge_start_init ltac:(vm_compute; intuition congruence)
                    ltac:(vm_compute; intuition congruence) ltac:(lia))).
  - vm_compute. reflexivity.
Defined.

Lemma move_on_edge :
  step_ant fpow_int edge_start 0 (draw directions 0 0) = Ok edge_moved
  /\ exists a', ants edge_moved !! 0%nat = Some a'.
Proof.
  split; [exact edge_moved_step|].
  destruct (move_is_to_free_neighbour fpow_int edge_start 0 (ant_at 0 3 [])
              (draw directions 0 0) edge_moved edge_start_wf eq_refl
              (fun v H => H) edge_moved_step) as (a' & Ha' & _).
  exists a'. exact Ha'.
Defined.

Lemma memory_set_on_edge :
  reachable fpow_int edge_start edge_pass
  /\ forall a, a ∈ ants edge_pass -> NoDup (pos_memory a).
Proof.
  split; [exact edge_pass_reachable|].
  exact (proj1 (taboo_memory_is_a_set fpow_int img_1x5 1 (q 1 10) 2 100 (q 1 10000)
                  (q 1 20) f1 f1 [(0, 3)] edge_start edge_pass
                  edge_start_init edge_pass_reachable)).
Defined.

Lemma below_threshold_on_strip :
  memory_clear strip_start
  /\ forall k d c', step_ant fpow_int strip_start k d = Ok c' ->
       pheromone c' = pheromone strip_start.
Proof.
  destruct (no_deposit_below_threshold fpow_int img_1x5_flat 1 (q 1 10) 2 2
              (q 1 10000) (q 1 20) f1 f1 [(0, 0)] strip_start strip_start
              ltac:(lia) strip_start_init strip_is_below_threshold
              (reach_start fpow_int strip_start)) as (H1 & H2 & _).
  split; [exact H1|exact H2].
Defined.

Lemma zero_depth_on_edge :
  default_colony img_1x5 1 0 [(0, 3)] = Ok shallow_start
  /\ exists c', adjust_pheromone shallow_start = Ok c'
       /\ get3 (pheromone c') 0 0 (-1) = Ok f0.
Proof.
  assert (Hi : default_colony img_1x5 1 0 [(0, 3)] = Ok shallow_start).
  { vm_compute. reflexivity. }
  split; [exact Hi|].
  destruct (zero_depth_clears_totals img_1x5 1 (q 1 10) 100 (q 1 10000) (q 1 20)
              f1 f1 [(0, 3)] shallow_start Hi) as (c' & Ha & _ & Hz).
  exists c'. split; [exact Ha|].
  apply (Hz 0 0); vm_compute; intuition congruence.
Defined.

Lemma layers_on_edge :
  get3 (pheromone edge_pass) 0 2 0 = Ok f1
  /\ (f1 = f0 \/ (get2 (intensities edge_start) 0 2 = Ok f1
                  /\ fgeb f1 (q 1 20) = true)).
Proof.
  split; [vm_compute; reflexivity|].
  apply (memory_layers_hold_intensities fpow_int img_1x5 1 (q 1 10) 2 100
           (q 1 10000) (q 1 20) f1 f1 [(0, 3)] edge_start edge_pass 0 2 0 f1);
    [lia|exact edge_start_init|exact edge_pass_reachable|lia|lia|lia|
     vm_compute; reflexivity].
Defined.

Lemma best_of_two :
  ant_max (ant_at 0 2 [(0, 3)])
    (dict_of_zip [q 1 4; q 3 4] [(0, 3); (0, 1)]) = Some (0, 1)
  /\ match ant_max (ant_at 0 2 [(0, 3)])
             (dict_of_zip [q 1 4; q 3 4] [(0, 3); (0, 1)]) with
     | Some pos =>
         (pos ∉ pos_memory (ant_at 0 2 [(0, 3)]))
         /\ exists k, (k, pos) ∈ combine [q 1 4; q 3 4] [(0, 3); (0, 1)]
              /\ forall k' pos', (k', pos') ∈ combine [q 1 4; q 3 4] [(0, 3); (0, 1)] ->
                   pos' ∉ pos_memory (ant_at 0 2 [(0, 3)]) -> fleb k' k = true
     | None => forall pos, pos ∈ [(0, 3); (0, 1)] ->
                 pos ∈ pos_memory (ant_at 0 2 [(0, 3)])
     end.
Proof.
  split; [vm_compute; reflexivity|].
  apply (selection_without_ties (ant_at 0 2 [(0, 3)]) [q 1 4; q 3 4] [(0, 3); (0, 1)]).
  - reflexivity.
  - repeat constructor; discriminate.
  - simpl. repeat split; repeat constructor.
Defined.

Lemma gray_on_ramp :
  convert_to_gray [[q 1 1; q 2 1]; [q 3 1; q 5 1]]
  = Ok (map (map (gray (q 1 1) (q 5 1))) [[q 1 1; q 2 1]; [q 3 1; q 5 1]]).
Proof.
  apply (gray_keeps_order [[q 1 1; q 2 1]; [q 3 1; q 5 1]] 1 5).
  - repeat constructor; eexists; reflexivity.
  - reflexivity.
  - reflexivity.
  - reflexivity.
Defined.

Lemma blank_snapshot_on_edge :
  pheromone_image edge_start = Ok [[NaN; NaN; NaN; NaN; NaN]].
Proof.
  apply (first_snapshot_is_blank img_1x5 1 1 (q 1 10) 2 100 (q 1 10000) (q 1 20)
           f1 f1 [(0, 3)] edge_start).
  - lia.
  - reflexivity.
  - reflexivity.
  - eexists. reflexivity.
  - exact edge_start_init.
Defined.

Lemma no_edge_on_flat :
  img_max img_3x3_flat = Ok 5
  /\ exists x, pixel_intensity img_3x3_flat 5 1 1 = Fin x /\ (x == 0)%Q.
Proof.
  destruct (uniform_image_has_no_edge img_3x3_flat 5 1 1) as (H1 & x & H2 & H3 & _).
  - lia.
  - repeat constructor.
  - repeat constructor.
  - vm_compute. intuition congruence.
  - vm_compute. intuition congruence.
  - split; [exact H1|]. exists x. split; [exact H2|exact H3].
Defined.

Lemma floor_kept_on_strip :
  exists c, iterate_from fpow_int 0 3 strip_start (fun _ _ => draw directions 0 1) = Ok c
    /\ forall i j x, get3 (pheromone c) i j (-1) = Ok x -> x = q 1 10000.
Proof.
  assert (Hwf : wf strip_start).
  { apply (init_wf img_1x5_flat 1 (q 1 10) 2 2 (q 1 10000) (q 1 20) f1 f1 [(0, 0)]);
      [lia|exact strip_start_init]. }
  destruct (iterate_from_run fpow_int 3 0 strip_start
              (fun _ _ => draw directions 0 1) Hwf)
    as (c & Hc & _ & _ & _ & _ & Hr).
  exists c. split; [exact Hc|]. intros i j x.
  apply (totals_stay_at_floor fpow_int img_1x5_flat 1 (1 # 10) 2 2 (1 # 10000)
           (q 1 20) f1 f1 [(0, 0)] strip_start c i j x);
    [lia|reflexivity|reflexivity|exact strip_start_init
     |exact strip_is_below_threshold|exact Hr].
Defined.
